(** * fb_image_gen: the image composer (src/app/components/ImageComposer.tsx)

    A shallow embedding of the composition pipeline of [ImageComposer]:
    colour sampling ([analyzeImageColors]), the adaptive style
    ([deriveFontStyleFromImage] and the merge done by [adaptStyle]), line
    wrapping ([wrapText]) and the render pass ([draw]) with its 2D context.

    Conventions of the embedding.
    - A JavaScript [number] is a rational ([Q]) wherever the result does not
      hang on the last bit of a double: coordinates, sizes, sums of bytes.
      The two comparisons that rounding can decide, the luminance against
      115 and the score against the best score so far, are computed in
      IEEE-754 binary64 ([Double], over the reference implementation of
      [SpecFloat]).  Pixel bytes and image dimensions are integers ([Z]).
    - A JavaScript string that carries user text is a list of UTF-16 code
      units ([jsstring]), because [split("")] cuts between code units.  CSS
      colours, font stacks and URLs are [string]s.
    - The browser is a set of Section variables: image decoding, the 64x64
      resampling of [drawImage]/[getImageData], and [measureText].
    - The 2D context is an explicit state ([Ctx]); every drawing call appends
      an [Op] holding the context it was issued under to the canvas log. *)

From Stdlib Require Import QArith Qround Qminmax Qabs Lqa Lia ZArith.
From Stdlib Require Import SpecFloat.
From Stdlib Require Import List String Ascii Bool.
Import ListNotations.

Open Scope Q_scope.

(** ** Numbers *)

Definition Qltb (x y : Q) : bool := negb (Qle_bool y x).

(** [Math.round]: the nearest integer, halves going up. *)
Definition Math_round (x : Q) : Q := inject_Z (Qfloor (x + (1 # 2))).

(** [Math.floor]. *)
Definition Math_floor (x : Q) : Q := inject_Z (Qfloor x).

(** [clamp(v, min = 0, max = 255)] is [Math.min(max, Math.max(min, v))]. *)
Definition clamp3 (v lo hi : Q) : Q := Qmin hi (Qmax lo v).
Definition clamp (v : Q) : Q := clamp3 v 0 255.

(** *** Doubles

    IEEE-754 binary64 with rounding to nearest, ties to even: the operations
    of [SpecFloat] at 53 bits of precision.  [ofQ q] is the double nearest
    to [q] when the numerator and the denominator of [q] are below [2 ^ 53];
    it reads the decimal literals of the source ([ofQ 0.299] is the double
    that JavaScript reads for [0.299]) and the numbers that the rational part
    of the model hands over. *)
Module Double.

Definition t : Type := spec_float.
Definition prec : Z := 53.
Definition emax : Z := 1024.

Definition ofZ (z : Z) : t := binary_normalize prec emax z 0 false.
Definition add : t -> t -> t := SFadd prec emax.
Definition sub : t -> t -> t := SFsub prec emax.
Definition mul : t -> t -> t := SFmul prec emax.
Definition div : t -> t -> t := SFdiv prec emax.
Definition abs : t -> t := SFabs.
(** [x < y] and [x === y] on numbers. *)
Definition ltb : t -> t -> bool := SFltb.
Definition eqb : t -> t -> bool := SFeqb.

Definition ofQ (q : Q) : t := div (ofZ (Qnum q)) (ofZ (Zpos (Qden q))).

End Double.

(** ** Colours *)

Record RGB := mkRGB { r : Q; g : Q; b : Q }.

Definition hexDigit (n : Z) : ascii :=
  match n with
  | 0%Z => "0" | 1%Z => "1" | 2%Z => "2" | 3%Z => "3" | 4%Z => "4"
  | 5%Z => "5" | 6%Z => "6" | 7%Z => "7" | 8%Z => "8" | 9%Z => "9"
  | 10%Z => "a" | 11%Z => "b" | 12%Z => "c" | 13%Z => "d" | 14%Z => "e"
  | _ => "f"
  end%char.

(** [n.toString(16)] for an integer [0 <= n <= 255]. *)
Definition toString16 (n : Z) : string :=
  if (n <? 16)%Z then String (hexDigit n) EmptyString
  else String (hexDigit (n / 16)) (String (hexDigit (n mod 16)) EmptyString).

(** [s.padStart(2, "0")]. *)
Definition padStart2 (s : string) : string :=
  match s with
  | EmptyString => "00"
  | String c EmptyString => String "0"%char (String c EmptyString)
  | _ => s
  end%string.

Definition toHex (n : Q) : string :=
  padStart2 (toString16 (Qfloor (clamp (Math_round n)))).

Definition rgbToHex (c : RGB) : string :=
  ("#" ++ toHex (r c) ++ toHex (g c) ++ toHex (b c))%string.

Definition adjustColor (color : RGB) (delta : Q) : RGB :=
  {| r := clamp (r color + delta);
     g := clamp (g color + delta);
     b := clamp (b color + delta) |}.

(** [0.299 * r + 0.587 * g + 0.114 * b], two roundings per term and one per
    sum, left to right. *)
Definition getLuminance (c : RGB) : Double.t :=
  Double.add
    (Double.add (Double.mul (Double.ofQ 0.299) (Double.ofQ (r c)))
                (Double.mul (Double.ofQ 0.587) (Double.ofQ (g c))))
    (Double.mul (Double.ofQ 0.114) (Double.ofQ (b c))).

Record ImageTone := mkTone { average : RGB; accent : RGB; isDark : bool }.

(** *** The sampling loop of [analyzeImageColors] *)

(** The sums of bytes are integers far below [2 ^ 53], exact in doubles;
    the best score is a double. *)
Record Scan := mkScan
  { sumR : Q; sumG : Q; sumB : Q; maxScore : Double.t; scanAccent : RGB }.

Definition scanInit : Scan :=
  {| sumR := 0; sumG := 0; sumB := 0; maxScore := Double.ofZ (-1);
     scanAccent := mkRGB 255 255 255 |}.

(** [max === 0 ? 0 : (max - min) / max]. *)
Definition saturationOf (pr pg pb : Q) : Double.t :=
  let max := Qmax (Qmax pr pg) pb in
  let min := Qmin (Qmin pr pg) pb in
  if Qeq_bool max 0 then Double.ofZ 0
  else Double.div (Double.sub (Double.ofQ max) (Double.ofQ min))
                  (Double.ofQ max).

(** [saturation * 0.6 + contrastToMid * 0.4] with
    [contrastToMid = Math.abs(luminance - 128) / 128]. *)
Definition scoreOf (pr pg pb : Q) : Double.t :=
  let saturation := saturationOf pr pg pb in
  let luminance := getLuminance (mkRGB pr pg pb) in
  let contrastToMid :=
    Double.div (Double.abs (Double.sub luminance (Double.ofZ 128)))
               (Double.ofZ 128) in
  Double.add (Double.mul saturation (Double.ofQ 0.6))
             (Double.mul contrastToMid (Double.ofQ 0.4)).

(** One iteration of the body of the [for] loop, at the pixel [(pr, pg, pb)]. *)
Definition scanStep (st : Scan) (pr pg pb : Q) : Scan :=
  let score := scoreOf pr pg pb in
  let hit := Double.ltb (maxScore st) score in
  {| sumR := sumR st + pr;
     sumG := sumG st + pg;
     sumB := sumB st + pb;
     maxScore := if hit then score else maxScore st;
     scanAccent := if hit then mkRGB pr pg pb else scanAccent st |}.

(** [for (i = 0; i < data.length; i += 4)] over the RGBA bytes.  The data of
    an ImageData always holds whole pixels; on anything else the source would
    read [undefined], which is [None] here. *)
Fixpoint scanPixels (data : list Z) (st : Scan) : option Scan :=
  match data with
  | [] => Some st
  | dr :: dg :: db :: _ :: rest =>
      scanPixels rest (scanStep st (inject_Z dr) (inject_Z dg) (inject_Z db))
  | _ => None
  end.

(** The part of [analyzeImageColors] after [getImageData]: [data] is the
    RGBA content of the 64x64 sampling canvas, which is never empty.  The
    average of a channel is the quotient of two integers; [getLuminance]
    rounds it to the double that the source holds. *)
Definition analyzeData (data : list Z) : option ImageTone :=
  match scanPixels data scanInit with
  | None => None
  | Some st =>
      let pixels := inject_Z (Z.of_nat (List.length data)) / 4 in
      let average :=
        {| r := sumR st / pixels; g := sumG st / pixels; b := sumB st / pixels |} in
      Some {| average := average;
              accent := scanAccent st;
              isDark := Double.ltb (getLuminance average) (Double.ofZ 115) |}
  end.

(** ** Text *)

(** User text: UTF-16 code units. *)
Definition jsstring := list N.

Definition SP : N := 32.
Definition LF : N := 10.
Definition CR : N := 13.

(** Truthiness of a string: only the empty string is falsy. *)
Definition truthy {A : Type} (s : list A) : bool :=
  match s with [] => false | _ :: _ => true end.

Definition truthyStr (s : string) : bool :=
  match s with EmptyString => false | String _ _ => true end.

(** [s.split(sep)] for a one-unit separator. *)
Fixpoint splitOn (sep : N) (s : jsstring) : list jsstring :=
  match s with
  | [] => [[]]
  | c :: rest =>
      if N.eqb c sep then [] :: splitOn sep rest
      else match splitOn sep rest with
           | [] => [[c]]
           | h :: t => (c :: h) :: t
           end
  end.

(** [s.split("")]: one string per code unit. *)
Definition splitUnits (s : jsstring) : list jsstring := map (fun c => [c]) s.

(** [s.replace(/\r/g, "")]. *)
Definition removeCR (s : jsstring) : jsstring :=
  filter (fun c => negb (N.eqb c CR)) s.

(** [s.includes(" ")]. *)
Definition includesSpace (s : jsstring) : bool := existsb (N.eqb SP) s.

(** White space and line terminators, as [String.prototype.trim] strips them. *)
Definition isTrimSpace (c : N) : bool :=
  match c with
  | 9 | 10 | 11 | 12 | 13 | 32 | 160 | 5760 | 8232 | 8233 | 8239 | 8287
  | 12288 | 65279 => true
  | _ => (8192 <=? c) && (c <=? 8202)
  end%N.

Fixpoint trimStart (s : jsstring) : jsstring :=
  match s with
  | c :: rest => if isTrimSpace c then trimStart rest else s
  | [] => []
  end.

Definition trim (s : jsstring) : jsstring :=
  rev (trimStart (rev (trimStart s))).

(** ** Font styles *)

Definition dq : string := String (ascii_of_nat 34) EmptyString.
Definition quoted (s : string) : string := (dq ++ s ++ dq)%string.

Definition THAI_FONT_FALLBACK : string :=
  (quoted "Sarabun" ++ ", " ++ quoted "Noto Sans Thai" ++ ", " ++
   quoted "Kanit" ++ ", " ++ quoted "Sukhumvit Set" ++ ", " ++
   quoted "Prompt" ++ ", " ++ quoted "Maitree" ++ ", " ++ quoted "Pridi" ++
   ", system-ui, -apple-system, " ++ quoted "Tahoma" ++ ", " ++
   quoted "Arial" ++ ", sans-serif")%string.

Definition FONT_CHOICES : list string :=
  ["Sarabun"; "Kanit"; "Pridi"; "Athiti"; "Prompt"; "Maitree";
   "Bai Jamjuree"; "Anuphan"]%string.

Record FontStyle := mkFontStyle
  { size : Q;
    lineHeight : Q;
    paddingX : Q;
    paddingY : Q;
    fontWeight : Q;
    fill : string;
    stroke : string;
    strokeWidth : Q;
    shadowColor : string;
    shadowBlur : Q;
    shadowOffsetY : Q;
    fontFamily : string }.

(** [Partial<FontStyle>]: a field is [None] when the key is absent. *)
Record PartialFontStyle := mkPartial
  { p_size : option Q;
    p_lineHeight : option Q;
    p_paddingX : option Q;
    p_paddingY : option Q;
    p_fontWeight : option Q;
    p_fill : option string;
    p_stroke : option string;
    p_strokeWidth : option Q;
    p_shadowColor : option string;
    p_shadowBlur : option Q;
    p_shadowOffsetY : option Q;
    p_fontFamily : option string }.

Definition orElse {A : Type} (o : option A) (d : A) : A :=
  match o with Some v => v | None => d end.

(** The object spread [{ ...prev, ...over }]. *)
Definition spread (prev : FontStyle) (over : PartialFontStyle) : FontStyle :=
  {| size := orElse (p_size over) (size prev);
     lineHeight := orElse (p_lineHeight over) (lineHeight prev);
     paddingX := orElse (p_paddingX over) (paddingX prev);
     paddingY := orElse (p_paddingY over) (paddingY prev);
     fontWeight := orElse (p_fontWeight over) (fontWeight prev);
     fill := orElse (p_fill over) (fill prev);
     stroke := orElse (p_stroke over) (stroke prev);
     strokeWidth := orElse (p_strokeWidth over) (strokeWidth prev);
     shadowColor := orElse (p_shadowColor over) (shadowColor prev);
     shadowBlur := orElse (p_shadowBlur over) (shadowBlur prev);
     shadowOffsetY := orElse (p_shadowOffsetY over) (shadowOffsetY prev);
     fontFamily := orElse (p_fontFamily over) (fontFamily prev) |}.

(** The updater that [adaptStyle] hands to [setFontStyle]:
    [{ ...prev, ...adaptive, fontFamily: prev.fontFamily,
       fontWeight: prev.fontWeight }]. *)
Definition adaptMerge (prev : FontStyle) (adaptive : PartialFontStyle)
  : FontStyle :=
  let m := spread prev adaptive in
  {| size := size m;
     lineHeight := lineHeight m;
     paddingX := paddingX m;
     paddingY := paddingY m;
     fontWeight := fontWeight prev;
     fill := fill m;
     stroke := stroke m;
     strokeWidth := strokeWidth m;
     shadowColor := shadowColor m;
     shadowBlur := shadowBlur m;
     shadowOffsetY := shadowOffsetY m;
     fontFamily := fontFamily prev |}.

Definition buildFontStack (primary : option string) : string :=
  match primary with
  | Some p =>
      if truthyStr p then (quoted p ++ ", " ++ THAI_FONT_FALLBACK)%string
      else THAI_FONT_FALLBACK
  | None => THAI_FONT_FALLBACK
  end.

(** [pickRandomFontStack], [u] being the value of [Math.random()]. *)
Definition pickRandomFontStack (u : Q) : string :=
  let idx := Qfloor (u * inject_Z (Z.of_nat (List.length FONT_CHOICES))) in
  buildFontStack
    (if (idx <? 0)%Z then None else nth_error FONT_CHOICES (Z.to_nat idx)).

(** The four values of [Math.random()] that [deriveFontStyleFromImage]
    consumes, in the order of the calls.  The arithmetic on them is read in
    exact rationals; the doubles of the source differ from it by the rounding
    of the last place, so that a range proved here is claimed with both ends
    included. *)
Record Draws := mkDraws { u_size : Q; u_padding : Q; u_font : Q; u_lineHeight : Q }.

Definition styleOfTone (tone : ImageTone) (u : Draws) : PartialFontStyle :=
  let fillBase :=
    if isDark tone then adjustColor (average tone) 65
    else adjustColor (average tone) (-80) in
  let strokeBase :=
    if isDark tone then adjustColor (accent tone) (-40)
    else adjustColor (accent tone) 50 in
  let size := Math_round (50 + u_size u * 10) in
  let paddingY := 78 + Math_round (u_padding u * 18) in
  {| p_size := Some size;
     p_lineHeight := Some (1.18 + u_lineHeight u * 0.07);
     p_paddingX := None;
     p_paddingY := Some paddingY;
     p_fontWeight := None;
     p_fill := Some (rgbToHex fillBase);
     p_stroke := Some (rgbToHex strokeBase);
     p_strokeWidth := Some (if isDark tone then 3.6 else 3.2);
     p_shadowColor :=
       Some (if isDark tone then "rgba(0,0,0,0.55)" else "rgba(0,0,0,0.38)")%string;
     p_shadowBlur := None;
     p_shadowOffsetY := None;
     p_fontFamily := Some (pickRandomFontStack (u_font u)) |}.

Inductive PresetMode := adaptive | gold | strike | banner.

Definition PresetMode_eqb (x y : PresetMode) : bool :=
  match x, y with
  | adaptive, adaptive | gold, gold | strike, strike | banner, banner => true
  | _, _ => false
  end.

(** ** The 2D context *)

Record Image := mkImage { width : Z; height : Z; source : string }.

Record Font := mkFont { f_weight : Q; f_size : Q; f_family : string }.

Inductive Paint :=
| Color (css : string)
| LinearGradient (x0 y0 x1 y1 : Q) (stops : list (Q * string)).

(** [addColorStop] on a gradient. *)
Definition addColorStop (offset : Q) (css : string) (p : Paint) : Paint :=
  match p with
  | LinearGradient x0 y0 x1 y1 stops =>
      LinearGradient x0 y0 x1 y1 (stops ++ [(offset, css)])
  | Color _ => p
  end.

Inductive Filter := NoFilter | Blur (px : Q).

Record Ctx := mkCtx
  { c_font : Font;
    c_textAlign : string;
    c_textBaseline : string;
    c_fillStyle : Paint;
    c_strokeStyle : Paint;
    c_lineWidth : Q;
    c_shadowColor : string;
    c_shadowBlur : Q;
    c_shadowOffsetX : Q;
    c_shadowOffsetY : Q;
    c_globalAlpha : Q;
    c_filter : Filter }.

(** The state of a context whose canvas has just been resized. *)
Definition defaultCtx : Ctx :=
  {| c_font := mkFont 400 10 "sans-serif";
     c_textAlign := "start";
     c_textBaseline := "alphabetic";
     c_fillStyle := Color "#000000";
     c_strokeStyle := Color "#000000";
     c_lineWidth := 1;
     c_shadowColor := "rgba(0, 0, 0, 0)";
     c_shadowBlur := 0;
     c_shadowOffsetX := 0;
     c_shadowOffsetY := 0;
     c_globalAlpha := 1;
     c_filter := NoFilter |}.

(** A drawing call, with the context state it was issued under. *)
Inductive Op :=
| DrawImage (c : Ctx) (img : Image) (sx sy sw sh dx dy dw dh : Q)
| DrawImageAt (c : Ctx) (img : Image) (dx dy dw dh : Q)
| FillRect (c : Ctx) (x y w h : Q)
| StrokeText (c : Ctx) (text : jsstring) (x y : Q)
| FillText (c : Ctx) (text : jsstring) (x y : Q).

Record Canvas := mkCanvas { cur : Ctx; saved : list Ctx; log : list Op }.

Definition freshCanvas : Canvas :=
  {| cur := defaultCtx; saved := []; log := [] |}.

Definition withCtx (f : Ctx -> Ctx) (cv : Canvas) : Canvas :=
  {| cur := f (cur cv); saved := saved cv; log := log cv |}.

Definition emit (mk : Ctx -> Op) (cv : Canvas) : Canvas :=
  {| cur := cur cv; saved := saved cv; log := log cv ++ [mk (cur cv)] |}.

Definition save (cv : Canvas) : Canvas :=
  {| cur := cur cv; saved := cur cv :: saved cv; log := log cv |}.

Definition restore (cv : Canvas) : Canvas :=
  match saved cv with
  | [] => cv
  | c :: rest => {| cur := c; saved := rest; log := log cv |}
  end.

Definition setFont (v : Font) : Canvas -> Canvas :=
  withCtx (fun c => mkCtx v (c_textAlign c) (c_textBaseline c) (c_fillStyle c)
    (c_strokeStyle c) (c_lineWidth c) (c_shadowColor c) (c_shadowBlur c)
    (c_shadowOffsetX c) (c_shadowOffsetY c) (c_globalAlpha c) (c_filter c)).
Definition setTextAlign (v : string) : Canvas -> Canvas :=
  withCtx (fun c => mkCtx (c_font c) v (c_textBaseline c) (c_fillStyle c)
    (c_strokeStyle c) (c_lineWidth c) (c_shadowColor c) (c_shadowBlur c)
    (c_shadowOffsetX c) (c_shadowOffsetY c) (c_globalAlpha c) (c_filter c)).
Definition setTextBaseline (v : string) : Canvas -> Canvas :=
  withCtx (fun c => mkCtx (c_font c) (c_textAlign c) v (c_fillStyle c)
    (c_strokeStyle c) (c_lineWidth c) (c_shadowColor c) (c_shadowBlur c)
    (c_shadowOffsetX c) (c_shadowOffsetY c) (c_globalAlpha c) (c_filter c)).
Definition setFillStyle (v : Paint) : Canvas -> Canvas :=
  withCtx (fun c => mkCtx (c_font c) (c_textAlign c) (c_textBaseline c) v
    (c_strokeStyle c) (c_lineWidth c) (c_shadowColor c) (c_shadowBlur c)
    (c_shadowOffsetX c) (c_shadowOffsetY c) (c_globalAlpha c) (c_filter c)).
Definition setStrokeStyle (v : Paint) : Canvas -> Canvas :=
  withCtx (fun c => mkCtx (c_font c) (c_textAlign c) (c_textBaseline c)
    (c_fillStyle c) v (c_lineWidth c) (c_shadowColor c) (c_shadowBlur c)
    (c_shadowOffsetX c) (c_shadowOffsetY c) (c_globalAlpha c) (c_filter c)).
Definition setLineWidth (v : Q) : Canvas -> Canvas :=
  withCtx (fun c => mkCtx (c_font c) (c_textAlign c) (c_textBaseline c)
    (c_fillStyle c) (c_strokeStyle c) v (c_shadowColor c) (c_shadowBlur c)
    (c_shadowOffsetX c) (c_shadowOffsetY c) (c_globalAlpha c) (c_filter c)).
Definition setShadowColor (v : string) : Canvas -> Canvas :=
  withCtx (fun c => mkCtx (c_font c) (c_textAlign c) (c_textBaseline c)
    (c_fillStyle c) (c_strokeStyle c) (c_lineWidth c) v (c_shadowBlur c)
    (c_shadowOffsetX c) (c_shadowOffsetY c) (c_globalAlpha c) (c_filter c)).
Definition setShadowBlur (v : Q) : Canvas -> Canvas :=
  withCtx (fun c => mkCtx (c_font c) (c_textAlign c) (c_textBaseline c)
    (c_fillStyle c) (c_strokeStyle c) (c_lineWidth c) (c_shadowColor c) v
    (c_shadowOffsetX c) (c_shadowOffsetY c) (c_globalAlpha c) (c_filter c)).
Definition setShadowOffsetX (v : Q) : Canvas -> Canvas :=
  withCtx (fun c => mkCtx (c_font c) (c_textAlign c) (c_textBaseline c)
    (c_fillStyle c) (c_strokeStyle c) (c_lineWidth c) (c_shadowColor c)
    (c_shadowBlur c) v (c_shadowOffsetY c) (c_globalAlpha c) (c_filter c)).
Definition setShadowOffsetY (v : Q) : Canvas -> Canvas :=
  withCtx (fun c => mkCtx (c_font c) (c_textAlign c) (c_textBaseline c)
    (c_fillStyle c) (c_strokeStyle c) (c_lineWidth c) (c_shadowColor c)
    (c_shadowBlur c) (c_shadowOffsetX c) v (c_globalAlpha c) (c_filter c)).
Definition setGlobalAlpha (v : Q) : Canvas -> Canvas :=
  withCtx (fun c => mkCtx (c_font c) (c_textAlign c) (c_textBaseline c)
    (c_fillStyle c) (c_strokeStyle c) (c_lineWidth c) (c_shadowColor c)
    (c_shadowBlur c) (c_shadowOffsetX c) (c_shadowOffsetY c) v (c_filter c)).
Definition setFilter (v : Filter) : Canvas -> Canvas :=
  withCtx (fun c => mkCtx (c_font c) (c_textAlign c) (c_textBaseline c)
    (c_fillStyle c) (c_strokeStyle c) (c_lineWidth c) (c_shadowColor c)
    (c_shadowBlur c) (c_shadowOffsetX c) (c_shadowOffsetY c) (c_globalAlpha c) v).

(** The result of awaiting a promise. *)
Inductive Settled (A : Type) :=
| Resolved (a : A)
| Rejected.
Arguments Resolved {A} a.
Arguments Rejected {A}.

Definition andThen {A B : Type} (m : Settled A) (k : A -> Settled B)
  : Settled B :=
  match m with
  | Resolved a => k a
  | Rejected => Rejected
  end.

(** What the browser reports for an [Image] whose [src] was set. *)
Inductive LoadEvent := onload (img : Image) | onerror.

Record LogoSettings := mkLogoSettings
  { logo_size : Q; logo_opacity : Q; logo_blur : Q; logo_padding : Q }.

(** The React state that [draw] and [adaptStyle] read. *)
Record AppState := mkAppState
  { imageUrl : string;
    preset : PresetMode;
    logoUrl : string;
    logoSettings : LogoSettings;
    text : jsstring;
    fontStyle : FontStyle }.

Definition withFontStyle (st : AppState) (fs : FontStyle) : AppState :=
  {| imageUrl := imageUrl st; preset := preset st; logoUrl := logoUrl st;
     logoSettings := logoSettings st; text := text st; fontStyle := fs |}.

Definition W : Q := 960.
Definition H : Q := 1200.

(** What the fitting loop of [draw] leaves behind; [iterations] is a ghost
    counter of the executions of the loop body. *)
Record Fit := mkFit
  { fitCanvas : Canvas;
    drawFontSize : Q;
    lines : list jsstring;
    iterations : nat }.

(** Enough fuel for the fitting loop started at [size]. *)
Definition fitFuel (size : Q) : nat := S (Z.to_nat (Qfloor ((size - 34) / 2))).

Section Browser.

(** Decoding of the image behind a URL. *)
Variable loadEvent : string -> LoadEvent.
(** [getContext("2d")], [drawImage(image, 0, 0, 64, 64)] and
    [getImageData(0, 0, 64, 64).data]; [None] when there is no context. *)
Variable sampleData : Image -> option (list Z).
(** [measureText(s).width] under a font. *)
Variable measureWidth : Font -> jsstring -> Q.
(** [sarabun.style.fontFamily] of next/font. *)
Variable sarabunFamily : string.

Definition SARABUN_STACK : string :=
  if truthyStr sarabunFamily
  then (sarabunFamily ++ ", " ++ THAI_FONT_FALLBACK)%string
  else (quoted "Sarabun" ++ ", " ++ THAI_FONT_FALLBACK)%string.

(** The initial [fontStyle] state. *)
Definition initialFontStyle : FontStyle :=
  {| size := 54; lineHeight := 1.22; paddingX := 80; paddingY := 90;
     fontWeight := 700; fill := "#F5F7FF"; stroke := "#7A0D1B";
     strokeWidth := 3; shadowColor := "rgba(0,0,0,0.55)"; shadowBlur := 14;
     shadowOffsetY := 6; fontFamily := SARABUN_STACK |}.

Definition analyzeImageColors (image : Image) : option ImageTone :=
  match sampleData image with
  | None => None
  | Some data => analyzeData data
  end.

Definition deriveFontStyleFromImage (img : Image) (u : Draws)
  : option PartialFontStyle :=
  match analyzeImageColors img with
  | None => None
  | Some tone => Some (styleOfTone tone u)
  end.

Definition measureText (c : Ctx) (s : jsstring) : Q :=
  measureWidth (c_font c) s.

(** *** wrapText *)

(** The [for] loop over the tokens of a paragraph, from the current [line];
    the result is what the loop and the [if (line)] after it push. *)
Fixpoint wrapTokens (ctx : Ctx) (maxWidth : Q) (hasSpace : bool)
    (tokens : list jsstring) (line : jsstring) : list jsstring :=
  match tokens with
  | [] => if truthy line then [line] else []
  | piece :: rest =>
      let testLine :=
        if truthy line
        then (if hasSpace then line ++ [SP] ++ piece else line ++ piece)
        else piece in
      if Qltb maxWidth (measureText ctx testLine) && truthy line
      then line :: wrapTokens ctx maxWidth hasSpace rest piece
      else wrapTokens ctx maxWidth hasSpace rest testLine
  end.

Definition tokensOf (paragraph : jsstring) : list jsstring :=
  if includesSpace paragraph
  then filter truthy (splitOn SP paragraph)
  else filter truthy (splitUnits paragraph).

Definition wrapParagraph (ctx : Ctx) (maxWidth : Q) (paragraph : jsstring)
  : list jsstring :=
  wrapTokens ctx maxWidth (includesSpace paragraph) (tokensOf paragraph) [].

(** [paragraphs.forEach]: every paragraph but the last is followed by an
    empty line. *)
Fixpoint wrapParagraphs (ctx : Ctx) (maxWidth : Q)
    (paragraphs : list jsstring) : list jsstring :=
  match paragraphs with
  | [] => []
  | paragraph :: rest =>
      wrapParagraph ctx maxWidth paragraph
      ++ (if truthy rest then [[]] else [])
      ++ wrapParagraphs ctx maxWidth rest
  end.

Definition wrapText (ctx : Ctx) (text : jsstring) (maxWidth : Q)
  : list jsstring :=
  wrapParagraphs ctx maxWidth (splitOn LF (removeCR text)).

(** *** Loading *)

Definition loadImageSafe (src : string) : Settled (option Image) :=
  match loadEvent src with
  | onload img => Resolved (Some img)
  | onerror => Resolved None
  end.

Definition loadLogoSafe (src : string) : Settled (option Image) :=
  match loadEvent src with
  | onload img => Resolved (Some img)
  | onerror => Resolved None
  end.

(** *** The layers of [draw] *)

Definition drawFallbackBackground (cv : Canvas) : Canvas :=
  let gradient := LinearGradient 0 0 0 H [] in
  let gradient := addColorStop 0 "#0c1224" gradient in
  let gradient := addColorStop 1 "#05070f" gradient in
  let cv := setFillStyle gradient cv in
  emit (fun c => FillRect c 0 0 W H) cv.

Definition drawBottomPlate (cv : Canvas) : Canvas :=
  let bandH := 320 in
  let band := LinearGradient 0 (H - bandH) 0 H [] in
  let band := addColorStop 0 "rgba(0,0,0,0.00)" band in
  let band := addColorStop 0.35 "rgba(0,0,0,0.25)" band in
  let band := addColorStop 1 "rgba(0,0,0,0.78)" band in
  let cv := setFillStyle band cv in
  emit (fun c => FillRect c 0 (H - bandH) W bandH) cv.

(** The source rectangle [(sx, sy, sw, sh)] of the cover crop. *)
Definition coverCrop (img : Image) : Q * Q * Q * Q :=
  let imgAR := inject_Z (width img) / inject_Z (height img) in
  let canvasAR := W / H in
  if Qltb canvasAR imgAR then
    let sh := inject_Z (height img) in
    let sw := Math_floor (sh * canvasAR) in
    let sx := Math_floor ((inject_Z (width img) - sw) / 2) in
    (sx, 0, sw, sh)
  else
    let sw := inject_Z (width img) in
    let sh := Math_floor (sw / canvasAR) in
    let sy := Math_floor ((inject_Z (height img) - sh) / 2) in
    (0, sy, sw, sh).

Definition drawBackground (img : option Image) (cv : Canvas) : Canvas :=
  match img with
  | Some img =>
      let '(sx, sy, sw, sh) := coverCrop img in
      emit (fun c => DrawImage c img sx sy sw sh 0 0 W H) cv
  | None => drawFallbackBackground cv
  end.

(** [logoImg.width / logoImg.height || 1], then [targetW / aspect]; a zero
    height with a non-zero width makes the aspect infinite. *)
Definition logoTargetH (logoImg : Image) (targetW : Q) : Q :=
  if (height logoImg =? 0)%Z then
    (if (width logoImg =? 0)%Z then targetW / 1 else 0)
  else
    let ratio := inject_Z (width logoImg) / inject_Z (height logoImg) in
    targetW / (if Qeq_bool ratio 0 then 1 else ratio).

Definition drawLogo (ls : LogoSettings) (logoImg : Image) (cv : Canvas)
  : Canvas :=
  let targetW := logo_size ls in
  let targetH := logoTargetH logoImg targetW in
  let x := W - targetW - logo_padding ls in
  let y := logo_padding ls in
  let cv := save cv in
  let cv := setGlobalAlpha (logo_opacity ls) cv in
  let cv := setFilter (Blur (logo_blur ls)) cv in
  let cv := emit (fun c => DrawImageAt c logoImg x y targetW targetH) cv in
  restore cv.

(** [while (drawFontSize >= 34) { ... }]. *)
Fixpoint fitLoop (fuel : nat) (fs : FontStyle) (safeText : jsstring)
    (maxTextWidth : Q) (drawFontSize : Q) (lines : list jsstring)
    (n : nat) (cv : Canvas) : option Fit :=
  if Qle_bool 34 drawFontSize then
    match fuel with
    | O => None
    | S fuel' =>
        let cv := setFont (mkFont (fontWeight fs) drawFontSize (fontFamily fs)) cv in
        let candidate := wrapText (cur cv) safeText maxTextWidth in
        let longest :=
          fold_left (fun acc ln => Qmax acc (measureText (cur cv) ln))
                    candidate 0 in
        if Qle_bool longest maxTextWidth
        then Some (mkFit cv drawFontSize candidate (S n))
        else fitLoop fuel' fs safeText maxTextWidth (drawFontSize - 2)
                     candidate (S n) cv
    end
  else Some (mkFit cv drawFontSize lines n).

(** [lines.forEach((ln, idx) => ...)]. *)
Fixpoint forEachLine (f : jsstring -> nat -> Canvas -> Canvas)
    (lines : list jsstring) (idx : nat) (cv : Canvas) : Canvas :=
  match lines with
  | [] => cv
  | ln :: rest => forEachLine f rest (S idx) (f ln idx cv)
  end.

Definition idxQ (idx : nat) : Q := inject_Z (Z.of_nat idx).

(** Step 3 of [draw], after the fitting loop. *)
Definition drawLines (p : PresetMode) (fs : FontStyle) (fit : Fit) : Canvas :=
  let cv := fitCanvas fit in
  let drawFontSize := drawFontSize fit in
  let lines := lines fit in
  let totalTextHeight :=
    idxQ (List.length lines) * drawFontSize * lineHeight fs in
  let startY := H - paddingY fs - totalTextHeight / 2 in
  let cv := setFont (mkFont (fontWeight fs) drawFontSize (fontFamily fs)) cv in
  let isGold := PresetMode_eqb p gold in
  let isStrike := PresetMode_eqb p strike in
  let isBanner := PresetMode_eqb p banner in
  let shadowColor :=
    (if isGold then "rgba(0,0,0,0.48)"
     else if isStrike then "rgba(0,0,0,0.8)"
     else if isBanner then "rgba(0,0,0,0.75)"
     else shadowColor fs)%string in
  let strokeWidth :=
    if isGold then Qmax (drawFontSize * 0.08) 4.8
    else if isStrike then Qmax (drawFontSize * 0.06) 4.5
    else if isBanner then Qmax (drawFontSize * 0.05) 4.2
    else strokeWidth fs in
  let strokeColor :=
    (if isGold then "#3b2500"
     else if isStrike then "#0c0f1a"
     else if isBanner then "#0a0a0a"
     else stroke fs)%string in
  let cv := setShadowColor shadowColor cv in
  let cv := setShadowBlur
    (if isGold then 18 else if isStrike then 22 else if isBanner then 20
     else shadowBlur fs) cv in
  let cv := setShadowOffsetX 0 cv in
  let cv := setShadowOffsetY
    (if isGold then 8 else if isStrike then 10 else if isBanner then 12
     else shadowOffsetY fs) cv in
  let cv := setLineWidth strokeWidth cv in
  let cv := setStrokeStyle (Color strokeColor) cv in
  let cv := forEachLine (fun ln idx =>
    let y := startY + idxQ idx * drawFontSize * lineHeight fs in
    emit (fun c => StrokeText c ln (W / 2) y)) lines 0 cv in
  let cv :=
    if isGold then
      let grad := LinearGradient (W / 2) (startY - drawFontSize) (W / 2)
                    (startY + totalTextHeight + drawFontSize) [] in
      let grad := addColorStop 0 "#f4e4b2" grad in
      let grad := addColorStop 0.45 "#f6d57a" grad in
      let grad := addColorStop 0.55 "#d6a73a" grad in
      let grad := addColorStop 1 "#9a6b1b" grad in
      setFillStyle grad cv
    else if isStrike then
      let grad := LinearGradient 0 (startY - drawFontSize) 0
                    (startY + totalTextHeight + drawFontSize) [] in
      let grad := addColorStop 0 "#f7f8fc" grad in
      let grad := addColorStop 0.35 "#e6e8f1" grad in
      let grad := addColorStop 0.65 "#d32f2f" grad in
      let grad := addColorStop 1 "#8c0f0f" grad in
      setFillStyle grad cv
    else if isBanner then
      let grad := LinearGradient 0 0 W 0 [] in
      let grad := addColorStop 0 "#ffffff" grad in
      let grad := addColorStop 0.45 "#ffffff" grad in
      let grad := addColorStop 0.55 "#f2c23a" grad in
      let grad := addColorStop 1 "#f2c23a" grad in
      setFillStyle grad cv
    else setFillStyle (Color (fill fs)) cv in
  let cv := forEachLine (fun ln idx =>
    let y := startY + idxQ idx * drawFontSize * lineHeight fs in
    emit (fun c => FillText c ln (W / 2) y)) lines 0 cv in
  let cv := setShadowColor "transparent" cv in
  let cv := setShadowBlur 0 cv in
  setShadowOffsetY 0 cv.

(** Steps 1 to 2.5 of [draw]: background, bottom plate, logo. *)
Definition drawLayers (st : AppState) : Settled Canvas :=
  let cv := freshCanvas in
  andThen
    (if truthyStr (imageUrl st) then loadImageSafe (imageUrl st)
     else Resolved None)
    (fun img =>
       let cv := drawBackground img cv in
       let cv := drawBottomPlate cv in
       if truthyStr (logoUrl st) then
         andThen (loadLogoSafe (logoUrl st)) (fun logoImg =>
           match logoImg with
           | Some logoImg => Resolved (drawLogo (logoSettings st) logoImg cv)
           | None => Resolved cv
           end)
       else Resolved cv).

(** The fitting loop as [draw] enters it. *)
Definition fitText (fs : FontStyle) (safeText : jsstring) (cv : Canvas)
  : option Fit :=
  let maxTextWidth := W - paddingX fs * 2 in
  let cv := setTextAlign "center" cv in
  let cv := setTextBaseline "middle" cv in
  fitLoop (fitFuel (size fs)) fs safeText maxTextWidth (size fs) [] 0 cv.

(** [draw].  [surface] tells whether the canvas and its 2D context exist;
    the result is the canvas after the pass, [None] when [draw] returned
    before touching it. *)
Definition draw (surface : bool) (st : AppState) : Settled (option Canvas) :=
  if negb surface then Resolved None
  else
    andThen (drawLayers st) (fun cv =>
      let safeText := trim (text st) in
      if negb (truthy safeText) then Resolved (Some cv)
      else
        match fitText (fontStyle st) safeText cv with
        | Some fit =>
            Resolved (Some (drawLines (preset st) (fontStyle st) fit))
        | None => Rejected
        end).

(** [adaptStyle], run by the effect on [imageUrl] and [preset]; the result
    is the [fontStyle] state afterwards.  [cancelled] is the flag of the
    effect's cleanup as read after the image has loaded. *)
Definition adaptStyle (st : AppState) (cancelled : bool) (u : Draws)
  : Settled FontStyle :=
  if negb (truthyStr (imageUrl st)) || negb (PresetMode_eqb (preset st) adaptive)
  then Resolved (fontStyle st)
  else
    andThen (loadImageSafe (imageUrl st)) (fun img =>
      match img with
      | None => Resolved (fontStyle st)
      | Some img =>
          if cancelled then Resolved (fontStyle st)
          else
            match deriveFontStyleFromImage img u with
            | None => Resolved (fontStyle st)
            | Some derived => Resolved (adaptMerge (fontStyle st) derived)
            end
      end).

End Browser.

(** * Vocabulary of the properties *)

(** The pixels of an RGBA byte array, in scan order. *)
Fixpoint pixelsOf (data : list Z) : option (list RGB) :=
  match data with
  | [] => Some []
  | dr :: dg :: db :: _ :: rest =>
      option_map (cons (mkRGB (inject_Z dr) (inject_Z dg) (inject_Z db)))
                 (pixelsOf rest)
  | _ => None
  end.

Definition score (p : RGB) : Double.t := scoreOf (r p) (g p) (b p).

Definition scanList (ps : list RGB) (st : Scan) : Scan :=
  fold_left (fun st p => scanStep st (r p) (g p) (b p)) ps st.

Definition channelSum (f : RGB -> Q) (ps : list RGB) : Q :=
  fold_right (fun p acc => f p + acc) 0 ps.

(** [a] is the first pixel of [ps] with the greatest score, the scores being
    the doubles that the source compares: no pixel has a greater one, and
    every pixel before [a] has a smaller one. *)
Definition firstArgmax (ps : list RGB) (a : RGB) : Prop :=
  exists k,
    nth_error ps k = Some a /\
    (forall j p, nth_error ps j = Some p ->
       Double.ltb (score a) (score p) = false) /\
    (forall j p, (j < k)%nat -> nth_error ps j = Some p ->
       Double.ltb (score p) (score a) = true).

Definition byteRGB (p : RGB) : Prop :=
  0 <= r p <= 255 /\ 0 <= g p <= 255 /\ 0 <= b p <= 255.

(** A channel read from a byte of the image data. *)
Definition isByteQ (q : Q) : Prop :=
  exists z, q = inject_Z z /\ (0 <= z <= 255)%Z.

Definition bytePixel (p : RGB) : Prop :=
  isByteQ (r p) /\ isByteQ (g p) /\ isByteQ (b p).

(** The invariant of the accent search after the pixels [ps]. *)
Definition accentInv (ps : list RGB) (st : Scan) : Prop :=
  (ps = [] /\ maxScore st = Double.ofZ (-1)) \/
  (firstArgmax ps (scanAccent st) /\ maxScore st = score (scanAccent st)).

(** *** Classes of doubles *)

Definition notNaN (x : Double.t) : Prop :=
  match x with S754_nan => False | _ => True end.

(** Zero, a positive number or plus infinity. *)
Definition nonneg (x : Double.t) : Prop :=
  match x with
  | S754_nan => False
  | S754_zero _ => True
  | S754_infinity s | S754_finite s _ _ => s = false
  end.

Definition finitePos (x : Double.t) : Prop :=
  match x with S754_finite false _ _ => True | _ => False end.

Definition signed (s : bool) (x : Double.t) : Prop :=
  match x with
  | S754_nan => False
  | S754_zero s' | S754_infinity s' | S754_finite s' _ _ => s' = s
  end.

(** The double of a byte [z]: zero, or a positive mantissa [z * 2 ^ -e]. *)
Definition byteShape (z : Z) (x : Double.t) : Prop :=
  match x with
  | S754_zero _ => z = 0%Z
  | S754_finite false m e => (e <= 0)%Z /\ Zpos m = (z * 2 ^ (- e))%Z
  | _ => False
  end.

Definition byteShapeb (z : Z) (x : Double.t) : bool :=
  match x with
  | S754_zero _ => (z =? 0)%Z
  | S754_finite false m e => (e <=? 0)%Z && (Zpos m =? z * 2 ^ (- e))%Z
  | _ => false
  end.

Definition byteValues : list Z := map Z.of_nat (seq 0 256).

(** *** The exact reading

    Luminance, saturation and score as formulas over the rationals, without
    the rounding of the doubles. *)
Definition exactLuminance (c : RGB) : Q :=
  0.299 * r c + 0.587 * g c + 0.114 * b c.

Definition exactSaturation (c : RGB) : Q :=
  let max := Qmax (Qmax (r c) (g c)) (b c) in
  let min := Qmin (Qmin (r c) (g c)) (b c) in
  if Qeq_bool max 0 then 0 else (max - min) / max.

Definition exactScore (c : RGB) : Q :=
  exactSaturation c * 0.6 + Qabs (exactLuminance c - 128) / 128 * 0.4.

(** [a] is the first pixel of [ps] with the greatest exact score. *)
Definition exactFirstArgmax (ps : list RGB) (a : RGB) : Prop :=
  exists k,
    nth_error ps k = Some a /\
    (forall j p, nth_error ps j = Some p -> exactScore p <= exactScore a) /\
    (forall j p, (j < k)%nat -> nth_error ps j = Some p ->
       exactScore p < exactScore a).

Definition isByte (x : Z) : bool := (0 <=? x)%Z && (x <=? 255)%Z.

(** The luminance of the average of a tone, in the doubles of the source:
    [(0.299 * avgR + 0.587 * avgG) + 0.114 * avgB]. *)
Definition averageLuminance (tone : ImageTone) : Double.t :=
  Double.add
    (Double.add
       (Double.mul (Double.ofQ 0.299) (Double.ofQ (r (average tone))))
       (Double.mul (Double.ofQ 0.587) (Double.ofQ (g (average tone)))))
    (Double.mul (Double.ofQ 0.114) (Double.ofQ (b (average tone)))).

(** A 64x64 grid holding the same RGBA pixel everywhere. *)
Definition uniformGrid (px : list Z) : list Z :=
  List.concat (repeat px (Z.to_nat 4096)).

(** A 64x64 grid of the pixel [px] whose last pixel is [final]. *)
Definition gridEndingWith (px final : list Z) : list Z :=
  List.concat (repeat px (Z.to_nat 4095)) ++ final.

(** [n] additions of [x] to [acc], in the order of the loop. *)
Fixpoint addTimes (n : nat) (x acc : Q) : Q :=
  match n with
  | O => acc
  | S k => addTimes k x (acc + x)
  end.

(** The state of the scan after [n] copies of the pixel [p], [n] at least 1. *)
Definition uniformScan (p : RGB) (n : nat) : Scan :=
  {| sumR := addTimes n (r p) 0;
     sumG := addTimes n (g p) 0;
     sumB := addTimes n (b p) 0;
     maxScore := score p;
     scanAccent := p |}.

(** The state of a user who has not touched the font buttons, with a photo
    behind [blob:photo] that samples to a uniform dark grid. *)
Definition untouchedState : AppState :=
  {| imageUrl := "blob:photo"; preset := adaptive; logoUrl := "";
     logoSettings := mkLogoSettings 120 0.35 1 40;
     text := [3614; 3636; 3617; 3614; 3660]%N;
     fontStyle := initialFontStyle "" |}.

Definition darkPhoto : Image := mkImage 640 480 "blob:photo".

Definition darkSamples (_ : Image) : option (list Z) :=
  Some (uniformGrid [10; 20; 30; 255]%Z).

Definition someDraws : Draws :=
  {| u_size := 1 # 2; u_padding := 1 # 2; u_font := 1 # 4; u_lineHeight := 1 # 2 |}.

(** Every token of a text, over all its paragraphs. *)
Definition textTokens (text : jsstring) : list jsstring :=
  flat_map tokensOf (splitOn LF (removeCR text)).

(** A line fits, or is one token that is too wide by itself. *)
Definition fitsOrLoneToken (measureWidth : Font -> jsstring -> Q) (ctx : Ctx)
    (tokens : list jsstring) (maxWidth : Q) (line : jsstring) : Prop :=
  measureText measureWidth ctx line <= maxWidth \/
  (In line tokens /\ maxWidth < measureText measureWidth ctx line).

(** Width grows when a string is extended. *)
Definition monotoneMeasure (measureWidth : Font -> jsstring -> Q) : Prop :=
  forall f s t, measureWidth f s <= measureWidth f (s ++ t).

(** A measure that gives every code unit the width 20, whatever the font. *)
Definition fixedPitch (_ : Font) (s : jsstring) : Q :=
  inject_Z (Z.of_nat (List.length s)) * 20.

(** The initial text of the composer. *)
Definition DEFAULT_TEXT : jsstring :=
  [3614; 3636; 3617; 3614; 3660; 3586; 3657; 3629; 3588; 3623; 3634; 3617;
   3605; 3619; 3591; 3609; 3637; 3657; 8230]%N.

(** A measure that gives every code unit half the font size. *)
Definition halfEm (f : Font) (s : jsstring) : Q :=
  inject_Z (Z.of_nat (List.length s)) * f_size f / 2.

Definition ctxAt (px : Q) : Ctx :=
  cur (setFont (mkFont 700 px "Sarabun") freshCanvas).

(** The crop of [draw] is within the image and has the aspect of the canvas
    up to the rounding of [Math.floor]. *)
Definition coverCropSpec (img : Image) (crop : Q * Q * Q * Q) : Prop :=
  let '(sx, sy, sw, sh) := crop in
  let w := inject_Z (width img) in
  let h := inject_Z (height img) in
  (0 <= sx /\ 0 <= sy /\ 0 <= sw /\ 0 <= sh /\ sx + sw <= w /\ sy + sh <= h) /\
  ((W / H < w / h /\
    sh = h /\ sy = 0 /\
    sh * (W / H) - 1 < sw <= sh * (W / H) /\
    sx = Math_floor ((w - sw) / 2))
   \/
   (w / h <= W / H /\
    sw = w /\ sx = 0 /\
    sw / (W / H) - 1 < sh <= sw / (W / H) /\
    sy = Math_floor ((h - sh) / 2))).

(** The calls of [strokeText] in a log: text, x, y and the baseline in force. *)
Definition strokeCalls (ops : list Op) : list (jsstring * Q * Q * string) :=
  flat_map (fun op =>
    match op with
    | StrokeText c t x y => [(t, x, y, c_textBaseline c)]
    | _ => []
    end) ops.

(** The calls of [fillText] in a log. *)
Definition fillCalls (ops : list Op) : list (jsstring * Q * Q * string) :=
  flat_map (fun op =>
    match op with
    | FillText c t x y => [(t, x, y, c_textBaseline c)]
    | _ => []
    end) ops.

(** The font sizes under which text was stroked or filled. *)
Definition textSizes (ops : list Op) : list Q :=
  flat_map (fun op =>
    match op with
    | StrokeText c _ _ _ | FillText c _ _ _ => [f_size (c_font c)]
    | _ => []
    end) ops.

Definition isTextOp (op : Op) : bool :=
  match op with
  | StrokeText _ _ _ _ | FillText _ _ _ _ => true
  | _ => false
  end.

(** Lines centred at [W / 2], the one of index [idx] at height
    [startY + idx * s * h]. *)
Fixpoint placeLines (startY s h : Q) (baseline : string)
    (lines : list jsstring) (idx : nat) : list (jsstring * Q * Q * string) :=
  match lines with
  | [] => []
  | ln :: rest =>
      (ln, W / 2, startY + idxQ idx * s * h, baseline)
      :: placeLines startY s h baseline rest (S idx)
  end.

(** The vertical centre of a block of lines drawn on their middle. *)
Definition blockCentre (calls : list (jsstring * Q * Q * string)) : Q :=
  let ys := map (fun c => snd (fst c)) calls in
  (hd 0 ys + last ys 0) / 2.

(** The operations that a [forEach] over the lines emits under [c]. *)
Fixpoint lineOps (mk : jsstring -> nat -> Ctx -> Op) (c : Ctx)
    (lines : list jsstring) (idx : nat) : list Op :=
  match lines with
  | [] => []
  | ln :: rest => mk ln idx c :: lineOps mk c rest (S idx)
  end.

(** The image that [draw] gets for a URL. *)
Definition loaded (loadEvent : string -> LoadEvent) (url : string)
  : option Image :=
  if truthyStr url then
    match loadEvent url with onload img => Some img | onerror => None end
  else None.

(** The operations of the first layers: background, plate, logo. *)
Definition layerOps (loadEvent : string -> LoadEvent) (st : AppState)
  : list Op :=
  log (drawBottomPlate (drawBackground (loaded loadEvent (imageUrl st)) freshCanvas))
  ++ match loaded loadEvent (logoUrl st) with
     | Some logoImg =>
         [DrawImageAt
            (cur (setFilter (Blur (logo_blur (logoSettings st)))
                   (setGlobalAlpha (logo_opacity (logoSettings st))
                      (drawBottomPlate
                         (drawBackground (loaded loadEvent (imageUrl st)) freshCanvas)))))
            logoImg
            (W - logo_size (logoSettings st) - logo_padding (logoSettings st))
            (logo_padding (logoSettings st))
            (logo_size (logoSettings st))
            (logoTargetH logoImg (logo_size (logoSettings st)))]
     | None => []
     end.

(** A render pass on the fallback background, with no logo. *)
Definition plainState (fs : FontStyle) (t : jsstring) : AppState :=
  {| imageUrl := ""; preset := adaptive; logoUrl := "";
     logoSettings := mkLogoSettings 120 0.35 1 40;
     text := t; fontStyle := fs |}.

Definition styleOfSize (px h : Q) : FontStyle :=
  {| size := px; lineHeight := h; paddingX := 80; paddingY := 90;
     fontWeight := 700; fill := "#F5F7FF"; stroke := "#7A0D1B";
     strokeWidth := 3; shadowColor := "rgba(0,0,0,0.55)"; shadowBlur := 14;
     shadowOffsetY := 6; fontFamily := SARABUN_STACK "" |}.

Definition noImage (_ : string) : LoadEvent := onerror.

(** Sixty letters, a space and one more letter: the first word is 1020 px
    wide at 34 px under [halfEm], against a budget of 800 px. *)
Definition longWord : jsstring := repeat 97%N 60 ++ [32; 98]%N.

(** Sixty letters with no space at 40 px under [halfEm]: two lines. *)
Definition twoLineState : AppState :=
  plainState (styleOfSize 40 1.25) (repeat 97%N 60).

Definition landscapePhoto : Image := mkImage 1920 1080 "blob:photo".

Definition photoState : AppState :=
  {| imageUrl := "blob:photo"; preset := adaptive; logoUrl := "";
     logoSettings := mkLogoSettings 120 0.35 1 40;
     text := DEFAULT_TEXT; fontStyle := styleOfSize 54 1.22 |}.

(** * Further definitions

    Helpers to state more properties, and two more pieces of the source: the
    image generation route and the naming of the output file.  Every string
    of the route is a list of code units. *)

(** The byte that [toHex] prints for a channel. *)
Definition channelByte (n : Q) : Z := Qfloor (clamp (Math_round n)).

(** The value of a lower-case hexadecimal digit, from its character code. *)
Definition hexValue (c : ascii) : option Z :=
  let code := Z.of_N (N_of_ascii c) in
  if (48 <=? code)%Z && (code <=? 57)%Z then Some (code - 48)%Z
  else if (97 <=? code)%Z && (code <=? 102)%Z then Some (code - 87)%Z
  else None.

Definition hexPair (hi lo : ascii) : option Z :=
  match hexValue hi, hexValue lo with
  | Some h, Some l => Some (16 * h + l)%Z
  | _, _ => None
  end.

(** Reading back a colour written as [#rrggbb]. *)
Definition parseHexColor (s : string) : option (Z * Z * Z) :=
  match s with
  | String "#" (String r1 (String r0 (String g1 (String g0
      (String b1 (String b0 EmptyString)))))) =>
      match hexPair r1 r0, hexPair g1 g0, hexPair b1 b0 with
      | Some vr, Some vg, Some vb => Some (vr, vg, vb)
      | _, _, _ => None
      end
  | _ => None
  end.

(** The same RGBA array with every alpha byte set to 255. *)
Fixpoint opaque (data : list Z) : list Z :=
  match data with
  | dr :: dg :: db :: _ :: rest => dr :: dg :: db :: 255%Z :: opaque rest
  | _ => data
  end.

(** [ls.join(sep)] for a one-unit separator. *)
Fixpoint joinWith (sep : N) (ls : list jsstring) : jsstring :=
  match ls with
  | [] => []
  | x :: rest =>
      match rest with
      | [] => x
      | _ :: _ => x ++ sep :: joinWith sep rest
      end
  end.

(** The number of empty lines in a list of lines. *)
Definition emptyLines (ls : list jsstring) : nat :=
  List.length (filter (fun l => negb (truthy l)) ls).

(** The number of line feeds in a text. *)
Definition lineFeeds (s : jsstring) : nat :=
  List.length (filter (N.eqb LF) s).

(** The line that [wrapTokens] tries next: [line] and [piece], with a
    space between them in word mode. *)
Definition glue (hasSpace : bool) (line piece : jsstring) : jsstring :=
  if hasSpace then line ++ [SP] ++ piece else line ++ piece.

(** What [wrapText] makes of a one-paragraph text that needs no break: the
    words joined by single spaces, or the text itself when it has no space
    (carriage returns removed in both cases). *)
Definition oneLine (text : jsstring) : jsstring :=
  let t := removeCR text in
  if includesSpace t then joinWith SP (filter truthy (splitOn SP t)) else t.

(** The [longest] of the fitting loop: the greatest width among the lines,
    and at least 0. *)
Definition longestLine (measureWidth : Font -> jsstring -> Q) (c : Ctx)
    (ls : list jsstring) : Q :=
  fold_left (fun acc ln => Qmax acc (measureText measureWidth c ln)) ls 0.

(** How the fitting loop, entered at [size] with the lines [ls] after [n]
    iterations, can end: at once, on a wrap that fits, or below 34 after a
    wrap that does not fit. *)
Definition fitOutcome (measureWidth : Font -> jsstring -> Q) (fs : FontStyle)
    (safeText : jsstring) (maxTextWidth size : Q) (ls : list jsstring)
    (n : nat) (fit : Fit) : Prop :=
  (size < 34 /\ drawFontSize fit = size /\ lines fit = ls /\
   iterations fit = n)
  \/
  (exists c k,
     34 <= drawFontSize fit /\
     drawFontSize fit == size - 2 * inject_Z (Z.of_nat k) /\
     iterations fit = (n + k + 1)%nat /\
     c_font c = mkFont (fontWeight fs) (drawFontSize fit) (fontFamily fs) /\
     lines fit = wrapText measureWidth c safeText maxTextWidth /\
     longestLine measureWidth c (lines fit) <= maxTextWidth)
  \/
  (exists c s k,
     34 <= s /\ s - 2 < 34 /\
     drawFontSize fit = s - 2 /\
     s == size - 2 * inject_Z (Z.of_nat k) /\
     iterations fit = (n + k + 1)%nat /\
     c_font c = mkFont (fontWeight fs) s (fontFamily fs) /\
     lines fit = wrapText measureWidth c safeText maxTextWidth /\
     maxTextWidth < longestLine measureWidth c (lines fit)).

(** The parts of the context that a logo overlay sets: opacity and filter. *)
Definition compositing (c : Ctx) : Q * Filter := (c_globalAlpha c, c_filter c).

(** The context of a text call. *)
Definition textCtx (op : Op) : option Ctx :=
  match op with
  | StrokeText c _ _ _ | FillText c _ _ _ => Some c
  | _ => None
  end.

(** A style with other colours, stroke width and shadow. *)
Definition recoloured (fs : FontStyle) (fill' stroke' : string)
    (strokeWidth' : Q) (shadowColor' : string) (shadowBlur' shadowOffsetY' : Q)
  : FontStyle :=
  {| size := size fs; lineHeight := lineHeight fs; paddingX := paddingX fs;
     paddingY := paddingY fs; fontWeight := fontWeight fs;
     fill := fill'; stroke := stroke'; strokeWidth := strokeWidth';
     shadowColor := shadowColor'; shadowBlur := shadowBlur';
     shadowOffsetY := shadowOffsetY'; fontFamily := fontFamily fs |}.

(** A render with a background photo and a logo that both load. *)
Definition logoState : AppState :=
  {| imageUrl := "blob:photo"; preset := gold; logoUrl := "blob:logo";
     logoSettings := mkLogoSettings 120 0.35 1 40;
     text := DEFAULT_TEXT; fontStyle := styleOfSize 54 1.22 |}.

Definition logoImage : Image := mkImage 300 150 "blob:logo".

Definition photoAndLogo (url : string) : LoadEvent :=
  if String.eqb url "blob:logo" then onload logoImage else onload landscapePhoto.

(** ** The image generation route (src/app/api/hf-generate/route.ts) *)

(** The code units of an ASCII literal. *)
Definition ofAscii (s : string) : jsstring :=
  map N_of_ascii (list_ascii_of_string s).

Module HfGenerate.

Definition HF_MODEL : jsstring := ofAscii "black-forest-labs/FLUX.1-schnell".
Definition HF_ENDPOINT : jsstring :=
  ofAscii "https://api-inference.huggingface.co/models/" ++ HF_MODEL.

(** "HF_TOKEN ยังไม่ถูกตั้งค่าใน env" *)
Definition NO_TOKEN : jsstring :=
  ofAscii "HF_TOKEN " ++
  [3618; 3633; 3591; 3652; 3617; 3656; 3606; 3641; 3585; 3605; 3633; 3657;
   3591; 3588; 3656; 3634; 3651; 3609]%N ++ ofAscii " env".

(** "prompt ว่าง" *)
Definition EMPTY_PROMPT : jsstring :=
  ofAscii "prompt " ++ [3623; 3656; 3634; 3591]%N.

Definition UNEXPECTED : jsstring := ofAscii "hf-generate: unexpected error".

Inductive Payload :=
| ErrorBody (error : jsstring)
| ImageBody (image : jsstring).

(** [Response.json(payload, { status })]; the status is 200 when not given. *)
Record Response := mkResponse { status : Z; payload : Payload }.

(** What the handler reads of the parsed request body: [prompt] is
    [body?.prompt?.toString?.()], absent when that is undefined; the numbers
    are [Number(body?.width)] and so on, absent when that is NaN.
    [b_throws] says that one of these four conversions throws instead, as
    [Number] does on a JSON object that has a [toString] entry of its own,
    and [toString?.()] when that entry is neither null nor callable. *)
Record Body := mkBody
  { b_prompt : option jsstring;
    b_width : option Q;
    b_height : option Q;
    b_seed : option Q;
    b_throws : bool }.

(** The call to the inference endpoint. *)
Record Request := mkRequest
  { endpoint : jsstring;
    authorization : jsstring;
    inputs : jsstring;
    negative_prompt : jsstring;
    r_width : Q;
    r_height : Q;
    num_inference_steps : Z;
    guidance_scale : Q;
    r_seed : Q }.

(** What comes back from [fetch]: [up_error] is [detail?.error] of
    [response.json()] when that parses and the field is truthy, [up_bytes]
    is [response.arrayBuffer()], absent when reading it throws. *)
Record Upstream := mkUpstream
  { up_ok : bool;
    up_status : Z;
    up_error : option jsstring;
    up_bytes : option (list Z) }.

(** [a || b] on environment variables. *)
Definition firstTruthy (a b : option jsstring) : option jsstring :=
  match a with
  | Some s => if truthy s then Some s else b
  | None => b
  end.

Definition tokenOf (a b : option jsstring) : option jsstring :=
  match firstTruthy a b with
  | Some s => if truthy s then Some s else None
  | None => None
  end.

(** [Number(x) || d]. *)
Definition numberOr (n : option Q) (d : Q) : Q :=
  match n with
  | Some q => if Qeq_bool q 0 then d else q
  | None => d
  end.

Section Handler.

(** [String(n)] for a number. *)
Variable numberToString : Q -> jsstring.
(** [Buffer.from(bytes).toString("base64")]. *)
Variable toBase64 : list Z -> jsstring.
(** [fetch]; [None] when it throws. *)
Variable fetch : Request -> option Upstream.

Definition unexpected : Response := mkResponse 500 (ErrorBody UNEXPECTED).

(** [POST].  [HF_TOKEN] and [HUGGINGFACE_TOKEN] are the environment
    variables, [body] is [await req.json()] ([None] when it throws) and
    [random] the value of [Math.random()].  The result is the response and
    the requests sent upstream.  Whatever throws inside the [try], the
    parsing, a conversion, [fetch] or the reading of the bytes, is answered
    by the [catch]. *)
Definition POST (HF_TOKEN HUGGINGFACE_TOKEN : option jsstring)
    (body : option Body) (random : Q) : Response * list Request :=
  match tokenOf HF_TOKEN HUGGINGFACE_TOKEN with
  | None => (mkResponse 500 (ErrorBody NO_TOKEN), [])
  | Some token =>
      match body with
      | None => (unexpected, [])
      | Some body =>
          if b_throws body then (unexpected, [])
          else
          let prompt :=
            match b_prompt body with
            | Some p => trim p
            | None => []
            end in
          let width := numberOr (b_width body) 960 in
          let height := numberOr (b_height body) 1200 in
          let seed := numberOr (b_seed body) (Math_floor (random * 1000000)) in
          if negb (truthy prompt)
          then (mkResponse 400 (ErrorBody EMPTY_PROMPT), [])
          else
            let fullPrompt :=
              prompt ++ ofAscii ", "
              ++ ofAscii "hyperrealistic photo, realistic vision, ultra detailed, sharp focus, cinematic lighting"
              ++ ofAscii ", "
              ++ (numberToString width ++ ofAscii "x" ++ numberToString height) in
            let negativePrompt :=
              ofAscii "text, watermark, logo, caption, subtitles" ++ ofAscii ", "
              ++ ofAscii "cartoon, illustration, anime, painting, cgi"
              ++ ofAscii ", "
              ++ ofAscii "distorted hands or fingers, extra limbs, blurry, lowres, low quality" in
            let request :=
              {| endpoint := HF_ENDPOINT;
                 authorization := ofAscii "Bearer " ++ token;
                 inputs := fullPrompt;
                 negative_prompt := negativePrompt;
                 r_width := width;
                 r_height := height;
                 num_inference_steps := 28;
                 guidance_scale := 3.5;
                 r_seed := seed |} in
            match fetch request with
            | None => (unexpected, [request])
            | Some response =>
                if negb (up_ok response) then
                  let errMsg :=
                    ofAscii "HF error "
                    ++ numberToString (inject_Z (up_status response)) in
                  let errMsg :=
                    match up_error response with
                    | Some e => if truthy e then e else errMsg
                    | None => errMsg
                    end in
                  (mkResponse 502 (ErrorBody errMsg), [request])
                else
                  match up_bytes response with
                  | None => (unexpected, [request])
                  | Some bytes =>
                      let base64 := toBase64 bytes in
                      let dataUrl := ofAscii "data:image/png;base64," ++ base64 in
                      (mkResponse 200 (ImageBody dataUrl), [request])
                  end
            end
      end
  end.

End Handler.

End HfGenerate.

(** ** File names *)

Definition DOT : N := 46.

(** [name.replace(/\.[^.]+$/, "")]: the first dot that is followed, up to
    the end, by one or more units none of which is a dot, is where the name
    is cut. *)
Fixpoint stripExtension (name : jsstring) : jsstring :=
  match name with
  | [] => []
  | c :: rest =>
      if N.eqb c DOT && truthy rest && negb (existsb (N.eqb DOT) rest)
      then []
      else c :: stripExtension rest
  end.

(** The file name that [onPickFile] sets for a picked file. *)
Definition pickedFileName (name : jsstring) : jsstring :=
  stripExtension name ++ ofAscii "-960x1200.png".

(** The name that [downloadPNG] gives to the download. *)
Definition downloadName (fileName : jsstring) : jsstring :=
  if truthy fileName then fileName else ofAscii "fb-post-960x1200.png".

(** The first token of a line: up to its first space in word mode, its first
    unit otherwise. *)
Definition firstToken (hasSpace : bool) (line : jsstring) : jsstring :=
  if hasSpace then hd [] (splitOn SP line) else firstn 1 line.

(** Every line is full: the first token of the next line did not fit behind
    it. *)
Fixpoint linesAreFull (measureWidth : Font -> jsstring -> Q) (ctx : Ctx)
    (maxWidth : Q) (hasSpace : bool) (ls : list jsstring) : Prop :=
  match ls with
  | l1 :: rest =>
      match rest with
      | l2 :: _ =>
          maxWidth
          < measureText measureWidth ctx
              (glue hasSpace l1 (firstToken hasSpace l2))
      | [] => True
      end /\ linesAreFull measureWidth ctx maxWidth hasSpace rest
  | [] => True
  end.

(** A token as [wrapText] cuts them: not empty, without a space in word
    mode, one unit otherwise. *)
Definition isToken (hasSpace : bool) (t : jsstring) : Prop :=
  truthy t = true /\
  if hasSpace then existsb (N.eqb SP) t = false else List.length t = 1%nat.

(** * Properties *)

(** ** Comparisons *)

Lemma Qltb_lt (x y : Q) : Qltb x y = true <-> x < y.
Proof.
  unfold Qltb. rewrite negb_true_iff.
  split; intro Hxy.
  - apply Qnot_le_lt. intro Hle. apply Qle_bool_iff in Hle. congruence.
  - destruct (Qle_bool y x) eqn:E; [|reflexivity].
    apply Qle_bool_iff in E. lra.
Qed.

Lemma Qltb_ge (x y : Q) : Qltb x y = false <-> y <= x.
Proof.
  unfold Qltb. rewrite negb_false_iff. apply Qle_bool_iff.
Qed.

(** ** Doubles

    Rounding never turns a sign: what the scan adds, multiplies and divides
    stays a number that is not negative. *)

Lemma iter_pos_invariant {A : Type} (P : A -> Prop) (f : A -> A) :
  (forall x, P x -> P (f x)) -> forall n x, P x -> P (iter_pos f n x).
Proof.
  intro Hf. induction n as [n IH|n IH|]; intros x Hx; cbn.
  - apply IH, IH, Hf, Hx.
  - apply IH, IH, Hx.
  - apply Hf, Hx.
Qed.

Lemma shr_1_nonneg (mrs : shr_record) :
  (0 <= shr_m mrs)%Z -> (0 <= shr_m (shr_1 mrs))%Z.
Proof.
  destruct mrs as [m rb sb]. cbn [shr_m].
  destruct m as [|[p|p|]|p]; cbn; lia.
Qed.

Lemma shr_fexp_nonneg (pr em m e : Z) (l : location) :
  (0 <= m)%Z -> (0 <= shr_m (fst (shr_fexp pr em m e l)))%Z.
Proof.
  intro Hm. unfold shr_fexp, shr.
  assert (H0 : (0 <= shr_m (shr_record_of_loc m l))%Z).
  { destruct l as [|[ | | ]]; exact Hm. }
  destruct (fexp pr em (Zdigits2 m + e) - e)%Z as [|p|p]; cbn [fst];
    try exact H0.
  apply (iter_pos_invariant (fun mrs => (0 <= shr_m mrs)%Z)); [|exact H0].
  apply shr_1_nonneg.
Qed.

Lemma round_nearest_even_nonneg (m : Z) (l : location) :
  (0 <= m)%Z -> (0 <= round_nearest_even m l)%Z.
Proof.
  intro Hm. destruct l as [|[ | | ]]; cbn; try lia.
  destruct (Z.even m); lia.
Qed.

Lemma binary_round_aux_signed (pr em : Z) (s : bool) (m e : Z) (l : location) :
  (0 <= m)%Z -> signed s (binary_round_aux pr em s m e l).
Proof.
  intro Hm. unfold binary_round_aux.
  pose proof (shr_fexp_nonneg pr em m e l Hm) as H1.
  destruct (shr_fexp pr em m e l) as [mrs' e']. cbn [fst] in H1.
  pose proof (shr_fexp_nonneg pr em
                (round_nearest_even (shr_m mrs') (loc_of_shr_record mrs')) e'
                loc_Exact (round_nearest_even_nonneg _ _ H1)) as H2.
  destruct (shr_fexp pr em _ e' loc_Exact) as [mrs'' e'']. cbn [fst] in H2.
  destruct (shr_m mrs'') as [|p|p]; [reflexivity | | lia].
  destruct (e'' <=? em - pr)%Z; reflexivity.
Qed.

Lemma binary_round_signed (pr em : Z) (s : bool) (m : positive) (e : Z) :
  signed s (binary_round pr em s m e).
Proof.
  unfold binary_round.
  destruct (shl_align m e _) as [mz ez].
  apply binary_round_aux_signed. lia.
Qed.

Lemma binary_normalize_notNaN (pr em : Z) (m e : Z) (sz : bool) :
  notNaN (binary_normalize pr em m e sz).
Proof.
  destruct m as [|p|p]; cbn [binary_normalize]; [exact I | |].
  - pose proof (binary_round_signed pr em false p e) as H.
    destruct (binary_round pr em false p e); cbn in *; tauto.
  - pose proof (binary_round_signed pr em true p e) as H.
    destruct (binary_round pr em true p e); cbn in *; tauto.
Qed.

Lemma signed_nonneg (x : Double.t) : signed false x -> nonneg x.
Proof. destruct x; cbn; auto. Qed.

Lemma nonneg_notNaN (x : Double.t) : nonneg x -> notNaN x.
Proof. destruct x; cbn; auto. Qed.

Lemma ofZ_nonneg (z : Z) : (0 <= z)%Z -> nonneg (Double.ofZ z).
Proof.
  intro Hz. unfold Double.ofZ. destruct z as [|p|p]; [exact I | | lia].
  apply signed_nonneg, binary_round_signed.
Qed.

Lemma add_nonneg (x y : Double.t) :
  nonneg x -> nonneg y -> nonneg (Double.add x y).
Proof.
  destruct x as [sx|sx| |sx mx ex], y as [sy|sy| |sy my ey]; cbn;
    intros Hx Hy; subst; try tauto; try reflexivity.
  - destruct sx, sy; exact I.
  - unfold binary_normalize.
    destruct (shl_align mx ex (Z.min ex ey)) as [m1 e1].
    destruct (shl_align my ey (Z.min ex ey)) as [m2 e2]. cbn [fst].
    apply signed_nonneg, binary_round_signed.
Qed.

(** Multiplication, division and subtraction by a finite positive constant. *)
Lemma mul_nonneg (x c : Double.t) :
  nonneg x -> finitePos c -> nonneg (Double.mul x c).
Proof.
  destruct c as [s|s| |[|] m e]; try contradiction. intros Hx _.
  destruct x as [sx|sx| |sx mx ex]; cbn in *; subst; try tauto.
  apply signed_nonneg, binary_round_aux_signed. lia.
Qed.

Lemma mul_nonneg_l (c x : Double.t) :
  finitePos c -> nonneg x -> nonneg (Double.mul c x).
Proof.
  destruct c as [s|s| |[|] m e]; try contradiction. intros _ Hx.
  destruct x as [sx|sx| |sx mx ex]; cbn in *; subst; try tauto.
  apply signed_nonneg, binary_round_aux_signed. lia.
Qed.

Lemma div_nonneg (x c : Double.t) :
  nonneg x -> finitePos c -> nonneg (Double.div x c).
Proof.
  destruct c as [s|s| |[|] m e]; try contradiction. intros Hx _.
  destruct x as [sx|sx| |sx mx ex]; cbn in *; subst; try tauto.
  unfold SFdiv_core_binary.
  match goal with
  | |- context [Z.div_eucl ?a ?b] =>
      pose proof (Z_div_mod a b ltac:(lia)) as Hdm;
      assert (Ha : (0 <= a)%Z);
      [|destruct (Z.div_eucl a b) as [q r0]]
  end.
  { match goal with
    | |- (0 <= match ?s with _ => _ end)%Z => destruct s; try lia
    end.
    apply Z.shiftl_nonneg. lia. }
  apply signed_nonneg, binary_round_aux_signed.
  destruct Hdm as [Heq Hr]. nia.
Qed.

Lemma sub_notNaN (x c : Double.t) :
  notNaN x -> finitePos c -> notNaN (Double.sub x c).
Proof.
  destruct c as [s|s| |[|] m e]; try contradiction. intros Hx _.
  destruct x as [sx|sx| |sx mx ex]; cbn in *; try tauto.
  apply binary_normalize_notNaN.
Qed.

Lemma abs_nonneg (x : Double.t) : notNaN x -> nonneg (Double.abs x).
Proof. destruct x; cbn; auto. Qed.

(** [Double.ltb] is a strict order, total on what is not NaN. *)
Lemma ltb_irrefl (x : Double.t) : Double.ltb x x = false.
Proof.
  unfold Double.ltb, SFltb.
  destruct x as [s|s| |s m e]; cbn; try reflexivity.
  - destruct s; reflexivity.
  - destruct s; rewrite Z.compare_refl;
      change (Pos.compare_cont Eq m m) with (Pos.compare m m);
      rewrite Pos.compare_refl; reflexivity.
Qed.

(** Every comparison of two exponents or two mantissas, by cases. *)
Ltac order_cases :=
  repeat match goal with
  | H : context [Z.compare ?a ?b] |- _ =>
      destruct (Z.compare_spec a b)
  | |- context [Z.compare ?a ?b] =>
      destruct (Z.compare_spec a b)
  | H : context [Pos.compare ?a ?b] |- _ =>
      destruct (Pos.compare_spec a b)
  | |- context [Pos.compare ?a ?b] =>
      destruct (Pos.compare_spec a b)
  end.

(** The cases that the signs settle, whatever the magnitudes. *)
Ltac by_signs sx sy sz :=
  try tauto; try discriminate; try reflexivity;
  try (destruct sx; discriminate);
  try (destruct sy; discriminate);
  try (destruct sz; discriminate);
  try (destruct sx, sy; discriminate || reflexivity);
  try (destruct sy, sz; discriminate || reflexivity);
  try (destruct sx, sz; discriminate || reflexivity);
  try (destruct sx, sy, sz; discriminate || reflexivity).

(** Three finite numbers: exponents first, then mantissas. *)
Ltac by_magnitudes sx sy sz mx my mz :=
  change (Pos.compare_cont Eq mx my) with (Pos.compare mx my);
  change (Pos.compare_cont Eq my mz) with (Pos.compare my mz);
  change (Pos.compare_cont Eq mx mz) with (Pos.compare mx mz);
  destruct sx, sy, sz; try discriminate; try reflexivity;
  order_cases; cbn; subst; try discriminate; try reflexivity; try lia.

Lemma ltb_trans (x y z : Double.t) :
  Double.ltb x y = true -> Double.ltb y z = true -> Double.ltb x z = true.
Proof.
  unfold Double.ltb, SFltb.
  destruct x as [sx|sx| |sx mx ex], y as [sy|sy| |sy my ey],
           z as [sz|sz| |sz mz ez]; cbn; by_signs sx sy sz.
  by_magnitudes sx sy sz mx my mz.
Qed.

(** [y <= x < z] gives [y < z], where [y <= x] is "not [x < y]" and [y] is
    a number. *)
Lemma ltb_ge_lt (x y z : Double.t) :
  notNaN y ->
  Double.ltb x y = false -> Double.ltb x z = true -> Double.ltb y z = true.
Proof.
  unfold Double.ltb, SFltb.
  destruct x as [sx|sx| |sx mx ex], y as [sy|sy| |sy my ey],
           z as [sz|sz| |sz mz ez]; cbn; intro Hy; by_signs sx sy sz.
  by_magnitudes sx sy sz mx my mz.
Qed.

Lemma ltb_minus_one (x : Double.t) :
  nonneg x -> Double.ltb (Double.ofZ (-1)) x = true.
Proof.
  destruct x as [s|s| |s m e]; cbn; intro H; subst; try tauto; reflexivity.
Qed.

Lemma byteShapeb_spec (z : Z) (x : Double.t) :
  byteShapeb z x = true -> byteShape z x.
Proof.
  destruct x as [s|s| |[|] m e]; cbn; try discriminate.
  - apply Z.eqb_eq.
  - intro H. apply andb_true_iff in H. destruct H as [H1 H2].
    split; [apply Z.leb_le, H1 | apply Z.eqb_eq, H2].
Qed.

Lemma in_byteValues (z : Z) : (0 <= z <= 255)%Z -> In z byteValues.
Proof.
  intro Hz. unfold byteValues. apply in_map_iff. exists (Z.to_nat z).
  split; [lia|]. apply in_seq. lia.
Qed.

Lemma ofQ_byte (z : Z) :
  (0 <= z <= 255)%Z -> byteShape z (Double.ofQ (inject_Z z)).
Proof.
  intro Hz. apply byteShapeb_spec.
  assert (Hall : forallb (fun z => byteShapeb z (Double.ofQ (inject_Z z)))
                   byteValues = true) by (vm_compute; reflexivity).
  rewrite forallb_forall in Hall. apply Hall, in_byteValues, Hz.
Qed.

Lemma iter_xO_value (m d : positive) :
  Zpos (Pos.iter xO m d) = (Zpos m * 2 ^ Zpos d)%Z.
Proof.
  induction d as [|d IH] using Pos.peano_ind.
  - cbn [Pos.iter]. lia.
  - rewrite Pos.iter_succ, Pos2Z.inj_succ, Z.pow_succ_r by lia.
    rewrite Pos2Z.inj_xO, IH. ring.
Qed.

Lemma shl_align_value (m : positive) (e e' : Z) :
  (e' <= e)%Z -> Zpos (fst (shl_align m e e')) = (Zpos m * 2 ^ (e - e'))%Z.
Proof.
  intro Hle. unfold shl_align.
  destruct (e' - e)%Z as [|d|d] eqn:E; cbn [fst]; try lia.
  - replace (e - e')%Z with 0%Z by lia. lia.
  - rewrite iter_xO_value. replace (e - e')%Z with (Zpos d) by lia. reflexivity.
Qed.

Lemma byteShape_pos (z : Z) (m : positive) (e : Z) :
  byteShape z (S754_finite false m e) -> (0 < z)%Z.
Proof.
  intros [He Hm].
  assert (0 < 2 ^ (- e))%Z by (apply Z.pow_pos_nonneg; lia). nia.
Qed.

Lemma sub_bytes_nonneg (z1 z2 : Z) (x y : Double.t) :
  byteShape z1 x -> byteShape z2 y -> (0 <= z2 <= z1)%Z ->
  nonneg (Double.sub x y).
Proof.
  intros Hx Hy Hz.
  destruct x as [sx|sx| |[|] mx ex]; try contradiction;
    destruct y as [sy|sy| |[|] my ey]; try contradiction.
  - cbn. destruct sx, sy; exact I.
  - apply byteShape_pos in Hy. cbn in Hx. lia.
  - reflexivity.
  - destruct Hx as [Hex Hmx], Hy as [Hey Hmy].
    cbn [Double.sub SFsub cond_Zopp].
    pose proof (shl_align_value mx ex (Z.min ex ey) ltac:(lia)) as Ha.
    pose proof (shl_align_value my ey (Z.min ex ey) ltac:(lia)) as Hb.
    assert (Hdiff : (0 <= Zpos (fst (shl_align mx ex (Z.min ex ey)))
                         - Zpos (fst (shl_align my ey (Z.min ex ey))))%Z).
    { rewrite Ha, Hb, Hmx, Hmy.
      rewrite <- !Z.mul_assoc, <- !Z.pow_add_r by lia.
      replace (- ex + (ex - Z.min ex ey))%Z with (- Z.min ex ey)%Z by lia.
      replace (- ey + (ey - Z.min ex ey))%Z with (- Z.min ex ey)%Z by lia.
      assert (0 < 2 ^ (- Z.min ex ey))%Z by (apply Z.pow_pos_nonneg; lia).
      nia. }
    destruct (Zpos (fst (shl_align mx ex (Z.min ex ey)))
              - Zpos (fst (shl_align my ey (Z.min ex ey))))%Z as [|p|p];
      [exact I | | lia].
    apply signed_nonneg, binary_round_signed.
Qed.

Lemma Qmax_cases (x y : Q) : Qmax x y = x \/ Qmax x y = y.
Proof.
  unfold Qmax, GenericMinMax.gmax. destruct (x ?= y); auto.
Qed.

Lemma Qmin_cases (x y : Q) : Qmin x y = x \/ Qmin x y = y.
Proof.
  unfold Qmin, GenericMinMax.gmin. destruct (x ?= y); auto.
Qed.

Lemma Qmax_byte (x y : Q) : isByteQ x -> isByteQ y -> isByteQ (Qmax x y).
Proof. intros Hx Hy. destruct (Qmax_cases x y) as [-> | ->]; assumption. Qed.

Lemma Qmin_byte (x y : Q) : isByteQ x -> isByteQ y -> isByteQ (Qmin x y).
Proof. intros Hx Hy. destruct (Qmin_cases x y) as [-> | ->]; assumption. Qed.

Lemma ofQ_byte_nonneg (q : Q) : isByteQ q -> nonneg (Double.ofQ q).
Proof.
  intros [z [-> Hz]]. pose proof (ofQ_byte z Hz) as H.
  destruct (Double.ofQ (inject_Z z)) as [s|s| |[|] m e]; try contradiction.
  - exact I.
  - reflexivity.
Qed.

Lemma saturationOf_nonneg (pr pg pb : Q) :
  isByteQ pr -> isByteQ pg -> isByteQ pb -> nonneg (saturationOf pr pg pb).
Proof.
  intros Hr Hg Hb. unfold saturationOf.
  pose proof (Qmax_byte _ _ (Qmax_byte _ _ Hr Hg) Hb) as [hi [Ehi Hhi]].
  pose proof (Qmin_byte _ _ (Qmin_byte _ _ Hr Hg) Hb) as [lo [Elo Hlo]].
  assert (Hle : Qmin (Qmin pr pg) pb <= Qmax (Qmax pr pg) pb).
  { pose proof (Q.le_min_l (Qmin pr pg) pb).
    pose proof (Q.le_min_l pr pg).
    pose proof (Q.le_max_l (Qmax pr pg) pb).
    pose proof (Q.le_max_l pr pg). lra. }
  rewrite Ehi, Elo in *. rewrite <- Zle_Qle in Hle.
  destruct (Qeq_bool (inject_Z hi) 0) eqn:E0; [exact I|].
  apply Qeq_bool_neq in E0.
  pose proof (ofQ_byte hi Hhi) as Sh. pose proof (ofQ_byte lo Hlo) as Sl.
  pose proof (sub_bytes_nonneg hi lo _ _ Sh Sl ltac:(lia)) as Hsub.
  destruct (Double.ofQ (inject_Z hi)) as [s|s| |[|] m e] eqn:Eh;
    try contradiction.
  - cbn in Sh. subst hi. exfalso. apply E0. reflexivity.
  - apply div_nonneg; [exact Hsub | exact I].
Qed.

Lemma finitePos_constants :
  finitePos (Double.ofQ 0.299) /\ finitePos (Double.ofQ 0.587) /\
  finitePos (Double.ofQ 0.114) /\ finitePos (Double.ofQ 0.6) /\
  finitePos (Double.ofQ 0.4) /\ finitePos (Double.ofZ 128).
Proof. vm_compute. tauto. Qed.

Lemma getLuminance_nonneg (c : RGB) :
  isByteQ (r c) -> isByteQ (g c) -> isByteQ (b c) -> nonneg (getLuminance c).
Proof.
  intros Hr Hg Hb. unfold getLuminance.
  destruct finitePos_constants as [K1 [K2 [K3 _]]].
  apply add_nonneg; [apply add_nonneg|].
  - apply mul_nonneg_l; [exact K1 | apply ofQ_byte_nonneg, Hr].
  - apply mul_nonneg_l; [exact K2 | apply ofQ_byte_nonneg, Hg].
  - apply mul_nonneg_l; [exact K3 | apply ofQ_byte_nonneg, Hb].
Qed.

Lemma scoreOf_nonneg (pr pg pb : Q) :
  isByteQ pr -> isByteQ pg -> isByteQ pb -> nonneg (scoreOf pr pg pb).
Proof.
  intros Hr Hg Hb. unfold scoreOf.
  destruct finitePos_constants as [_ [_ [_ [K6 [K4 K128]]]]].
  apply add_nonneg; apply mul_nonneg; try assumption.
  - apply saturationOf_nonneg; assumption.
  - apply div_nonneg; [|assumption].
    apply abs_nonneg, sub_notNaN; [|assumption].
    apply nonneg_notNaN, getLuminance_nonneg; assumption.
Qed.

(** ** The sampling loop *)

Lemma list_ind4 (P : list Z -> Prop) :
  P [] -> (forall a, P [a]) -> (forall a b, P [a; b]) ->
  (forall a b c, P [a; b; c]) ->
  (forall a b c d rest, P rest -> P (a :: b :: c :: d :: rest)) ->
  forall l, P l.
Proof.
  intros H0 H1 H2 H3 H4.
  fix IH 1. intros [|a [|b' [|c [|d rest]]]].
  - exact H0.
  - apply H1.
  - apply H2.
  - apply H3.
  - apply H4. apply IH.
Qed.

Lemma scanPixels_pixelsOf (data : list Z) :
  forall st,
    scanPixels data st = option_map (fun ps => scanList ps st) (pixelsOf data).
Proof.
  induction data as [| | | |dr dg db da rest IH] using list_ind4;
    intro st; try reflexivity.
  cbn [scanPixels pixelsOf]. rewrite IH.
  destruct (pixelsOf rest); reflexivity.
Qed.

Lemma pixelsOf_whole (k : nat) :
  forall data, List.length data = (4 * k)%nat ->
    exists ps, pixelsOf data = Some ps /\ List.length ps = k.
Proof.
  induction k as [|k IH]; intros data Hlen.
  - destruct data; [|discriminate]. exists []. split; reflexivity.
  - destruct data as [|dr [|dg [|db [|da rest]]]]; cbn in Hlen; try lia.
    destruct (IH rest) as [ps [Hps Hk]]; [lia|].
    exists (mkRGB (inject_Z dr) (inject_Z dg) (inject_Z db) :: ps).
    cbn [pixelsOf]. rewrite Hps. cbn. split; [reflexivity | lia].
Qed.

Lemma pixelsOf_bytes (data : list Z) :
  forall ps, pixelsOf data = Some ps ->
    (forall x, In x data -> (0 <= x <= 255)%Z) ->
    Forall byteRGB ps.
Proof.
  induction data as [| | | |dr dg db da rest IH] using list_ind4;
    intros ps Hps Hb; try discriminate.
  - injection Hps as <-. constructor.
  - cbn [pixelsOf] in Hps.
    destruct (pixelsOf rest) as [ps'|] eqn:E; [|discriminate].
    injection Hps as <-.
    assert (Hq : forall x, (0 <= x <= 255)%Z -> 0 <= inject_Z x <= 255).
    { intros x [Hx0 Hx1]. split.
      - rewrite Zle_Qle in Hx0. exact Hx0.
      - rewrite Zle_Qle in Hx1. exact Hx1. }
    constructor.
    + repeat split; cbn; apply Hq, Hb; cbn; auto.
    + apply IH; [reflexivity|]. intros x Hx. apply Hb. cbn. auto.
Qed.

Lemma scanList_snoc (ps : list RGB) (p : RGB) (st : Scan) :
  scanList (ps ++ [p]) st = scanStep (scanList ps st) (r p) (g p) (b p).
Proof. unfold scanList. rewrite fold_left_app. reflexivity. Qed.

Lemma scanList_sums (ps : list RGB) :
  forall st,
    sumR (scanList ps st) == sumR st + channelSum r ps /\
    sumG (scanList ps st) == sumG st + channelSum g ps /\
    sumB (scanList ps st) == sumB st + channelSum b ps.
Proof.
  induction ps as [|p ps IH]; intro st.
  - cbn. repeat split; ring.
  - change (scanList (p :: ps) st)
      with (scanList ps (scanStep st (r p) (g p) (b p))).
    destruct (IH (scanStep st (r p) (g p) (b p))) as [HR [HG HB]].
    rewrite HR, HG, HB.
    change (channelSum r (p :: ps)) with (r p + channelSum r ps).
    change (channelSum g (p :: ps)) with (g p + channelSum g ps).
    change (channelSum b (p :: ps)) with (b p + channelSum b ps).
    unfold scanStep; cbn [sumR sumG sumB].
    repeat split; ring.
Qed.

Lemma channelSum_bounds (f : RGB -> Q) (ps : list RGB) :
  Forall (fun p => 0 <= f p <= 255) ps ->
  0 <= channelSum f ps <= 255 * inject_Z (Z.of_nat (List.length ps)).
Proof.
  induction 1 as [|p ps Hp _ IH].
  - change (channelSum f []) with 0.
    change (inject_Z (Z.of_nat (List.length (@nil RGB)))) with 0. lra.
  - change (channelSum f (p :: ps)) with (f p + channelSum f ps).
    cbn [List.length].
    rewrite Nat2Z.inj_succ, <- Z.add_1_r, inject_Z_plus.
    change (inject_Z 1) with 1. lra.
Qed.

Lemma pixelsOf_bytePixels (data : list Z) :
  forall ps, pixelsOf data = Some ps ->
    (forall x, In x data -> (0 <= x <= 255)%Z) ->
    Forall bytePixel ps.
Proof.
  induction data as [| | | |dr dg db da rest IH] using list_ind4;
    intros ps Hps Hb; try discriminate.
  - injection Hps as <-. constructor.
  - cbn [pixelsOf] in Hps.
    destruct (pixelsOf rest) as [ps'|] eqn:E; [|discriminate].
    injection Hps as <-.
    constructor.
    + repeat split; cbn [r g b]; eexists; (split; [reflexivity|]);
        apply Hb; cbn; auto.
    + apply IH; [reflexivity|]. intros x Hx. apply Hb. cbn. auto.
Qed.

Lemma score_nonneg (p : RGB) : bytePixel p -> nonneg (score p).
Proof.
  intros [Hr [Hg Hb]]. apply scoreOf_nonneg; assumption.
Qed.

Lemma accentInv_step (ps : list RGB) (p : RGB) (st : Scan) :
  bytePixel p -> Forall bytePixel ps -> accentInv ps st ->
  accentInv (ps ++ [p]) (scanStep st (r p) (g p) (b p)).
Proof.
  intros Hp Hps [[-> Hm] | [[k [Hk [Hall Hbefore]]] Hm]]; right.
  - assert (Hhit : Double.ltb (maxScore st) (scoreOf (r p) (g p) (b p)) = true).
    { rewrite Hm. apply ltb_minus_one. exact (score_nonneg p Hp). }
    unfold scanStep. cbn [scanAccent maxScore]. rewrite Hhit.
    split; [|reflexivity].
    exists 0%nat. repeat split.
    + destruct p; reflexivity.
    + intros [|j] q Hq; cbn in Hq.
      * injection Hq as <-. apply ltb_irrefl.
      * destruct j; discriminate.
    + intros j q Hj. lia.
  - unfold scanStep. cbn [scanAccent maxScore].
    destruct (Double.ltb (maxScore st) (scoreOf (r p) (g p) (b p))) eqn:Hhit.
    + rewrite Hm in Hhit. split; [|reflexivity].
      change (score (mkRGB (r p) (g p) (b p))) with (score p).
      change (scoreOf (r p) (g p) (b p)) with (score p) in Hhit.
      exists (List.length ps). repeat split.
      * rewrite nth_error_app2, Nat.sub_diag by lia. destruct p; reflexivity.
      * intros j q Hq.
        change (score (mkRGB (r p) (g p) (b p))) with (score p).
        destruct (Nat.lt_ge_cases j (List.length ps)) as [Hlt|Hge].
        -- rewrite nth_error_app1 in Hq by exact Hlt.
           specialize (Hall j q Hq).
           destruct (Double.ltb (score p) (score q)) eqn:E; [|reflexivity].
           rewrite (ltb_trans _ _ _ Hhit E) in Hall. discriminate.
        -- rewrite nth_error_app2 in Hq by exact Hge.
           destruct (j - List.length ps)%nat as [|i]; cbn in Hq.
           ++ injection Hq as <-. apply ltb_irrefl.
           ++ destruct i; discriminate.
      * intros j q Hj Hq. rewrite nth_error_app1 in Hq by exact Hj.
        change (score (mkRGB (r p) (g p) (b p))) with (score p).
        apply (ltb_ge_lt (score (scanAccent st))); [|exact (Hall j q Hq)|exact Hhit].
        apply nonneg_notNaN, score_nonneg.
        rewrite Forall_forall in Hps. apply Hps.
        exact (nth_error_In _ _ Hq).
    + rewrite Hm in Hhit.
      change (scoreOf (r p) (g p) (b p)) with (score p) in Hhit.
      split; [|exact Hm].
      assert (Hklt : (k < List.length ps)%nat).
      { apply nth_error_Some. congruence. }
      exists k. repeat split.
      * rewrite nth_error_app1 by exact Hklt. exact Hk.
      * intros j q Hq.
        destruct (Nat.lt_ge_cases j (List.length ps)) as [Hlt|Hge].
        -- rewrite nth_error_app1 in Hq by exact Hlt. exact (Hall j q Hq).
        -- rewrite nth_error_app2 in Hq by exact Hge.
           destruct (j - List.length ps)%nat as [|i]; cbn in Hq.
           ++ injection Hq as <-. exact Hhit.
           ++ destruct i; discriminate.
      * intros j q Hj Hq. rewrite nth_error_app1 in Hq by lia.
        exact (Hbefore j q Hj Hq).
Qed.

Lemma scanList_accent (ps : list RGB) :
  Forall bytePixel ps -> accentInv ps (scanList ps scanInit).
Proof.
  induction ps as [|p ps IH] using rev_ind; intro Hb.
  - left. split; reflexivity.
  - apply Forall_app in Hb. destruct Hb as [Hps Hp].
    rewrite scanList_snoc. apply accentInv_step.
    + inversion Hp; assumption.
    + exact Hps.
    + apply IH, Hps.
Qed.

Lemma analyzeData_whole (data : list Z) (k : nat) :
  List.length data = (4 * k)%nat ->
  exists ps,
    pixelsOf data = Some ps /\ List.length ps = k /\
    analyzeData data =
      Some (let st := scanList ps scanInit in
            let pixels := inject_Z (Z.of_nat (List.length data)) / 4 in
            let average :=
              {| r := sumR st / pixels; g := sumG st / pixels;
                 b := sumB st / pixels |} in
            {| average := average; accent := scanAccent st;
               isDark :=
                 Double.ltb (getLuminance average) (Double.ofZ 115) |}).
Proof.
  intro Hlen. destruct (pixelsOf_whole k data Hlen) as [ps [Hps Hk]].
  exists ps. repeat split; try assumption.
  unfold analyzeData. rewrite scanPixels_pixelsOf, Hps. reflexivity.
Qed.

(** *** Runs of one pixel

    A run of equal pixels is scanned without a second look at the score: the
    score of a pixel is not greater than itself. *)

Lemma scanList_repeat (p : RGB) (n : nat) :
  forall st,
    Double.ltb (maxScore st) (score p) = false ->
    scanList (repeat p n) st
    = {| sumR := addTimes n (r p) (sumR st);
         sumG := addTimes n (g p) (sumG st);
         sumB := addTimes n (b p) (sumB st);
         maxScore := maxScore st;
         scanAccent := scanAccent st |}.
Proof.
  induction n as [|n IH]; intros st Hst.
  - destruct st; reflexivity.
  - cbn [repeat].
    change (scanList (p :: repeat p n) st)
      with (scanList (repeat p n) (scanStep st (r p) (g p) (b p))).
    assert (Hstep : scanStep st (r p) (g p) (b p)
                    = {| sumR := sumR st + r p; sumG := sumG st + g p;
                         sumB := sumB st + b p; maxScore := maxScore st;
                         scanAccent := scanAccent st |}).
    { unfold scanStep. change (scoreOf (r p) (g p) (b p)) with (score p).
      rewrite Hst. reflexivity. }
    rewrite Hstep, IH by exact Hst. reflexivity.
Qed.

Lemma scanList_uniform (p : RGB) (n : nat) :
  bytePixel p -> scanList (repeat p (S n)) scanInit = uniformScan p (S n).
Proof.
  intro Hp. cbn [repeat].
  change (scanList (p :: repeat p n) scanInit)
    with (scanList (repeat p n) (scanStep scanInit (r p) (g p) (b p))).
  assert (Hstep : scanStep scanInit (r p) (g p) (b p)
                  = {| sumR := 0 + r p; sumG := 0 + g p; sumB := 0 + b p;
                       maxScore := score p; scanAccent := p |}).
  { unfold scanStep. change (scoreOf (r p) (g p) (b p)) with (score p).
    change (maxScore scanInit) with (Double.ofZ (-1)).
    rewrite (ltb_minus_one _ (score_nonneg p Hp)). destruct p; reflexivity. }
  rewrite Hstep, scanList_repeat by apply ltb_irrefl. reflexivity.
Qed.

Lemma pixelsOf_repeat (dr dg db da : Z) (n : nat) :
  pixelsOf (List.concat (repeat [dr; dg; db; da] n))
  = Some (repeat (mkRGB (inject_Z dr) (inject_Z dg) (inject_Z db)) n).
Proof.
  induction n as [|n IH]; [reflexivity|].
  cbn [repeat List.concat app pixelsOf]. rewrite IH. reflexivity.
Qed.

Lemma pixelsOf_repeat_snoc (dr dg db da er eg eb ea : Z) (n : nat) :
  pixelsOf (List.concat (repeat [dr; dg; db; da] n) ++ [er; eg; eb; ea])
  = Some (repeat (mkRGB (inject_Z dr) (inject_Z dg) (inject_Z db)) n
          ++ [mkRGB (inject_Z er) (inject_Z eg) (inject_Z eb)]).
Proof.
  induction n as [|n IH]; [reflexivity|].
  cbn [repeat List.concat app pixelsOf]. rewrite IH. reflexivity.
Qed.

Lemma bytePixel_bytes (dr dg db : Z) :
  (0 <= dr <= 255)%Z -> (0 <= dg <= 255)%Z -> (0 <= db <= 255)%Z ->
  bytePixel (mkRGB (inject_Z dr) (inject_Z dg) (inject_Z db)).
Proof.
  intros Hr Hg Hb. repeat split; cbn [r g b]; eexists; split;
    try reflexivity; assumption.
Qed.

(** The scan of a grid that holds one pixel everywhere. *)
Lemma scanPixels_uniformGrid (dr dg db da : Z) :
  (0 <= dr <= 255)%Z -> (0 <= dg <= 255)%Z -> (0 <= db <= 255)%Z ->
  scanPixels (uniformGrid [dr; dg; db; da]) scanInit
  = Some (uniformScan (mkRGB (inject_Z dr) (inject_Z dg) (inject_Z db))
            (Z.to_nat 4096)).
Proof.
  intros Hr Hg Hb. unfold uniformGrid.
  rewrite scanPixels_pixelsOf, pixelsOf_repeat. cbn [option_map].
  change (Z.to_nat 4096) with (S (Z.to_nat 4095)).
  rewrite scanList_uniform by (apply bytePixel_bytes; assumption).
  reflexivity.
Qed.

(** The scan of a grid that holds one pixel everywhere but at the end. *)
Lemma scanPixels_gridEndingWith (dr dg db da er eg eb ea : Z) :
  (0 <= dr <= 255)%Z -> (0 <= dg <= 255)%Z -> (0 <= db <= 255)%Z ->
  scanPixels (gridEndingWith [dr; dg; db; da] [er; eg; eb; ea]) scanInit
  = Some (scanStep
            (uniformScan (mkRGB (inject_Z dr) (inject_Z dg) (inject_Z db))
               (Z.to_nat 4095))
            (inject_Z er) (inject_Z eg) (inject_Z eb)).
Proof.
  intros Hr Hg Hb. unfold gridEndingWith.
  rewrite scanPixels_pixelsOf, pixelsOf_repeat_snoc. cbn [option_map].
  rewrite scanList_snoc.
  change (Z.to_nat 4095) with (S (Z.to_nat 4094)).
  rewrite scanList_uniform by (apply bytePixel_bytes; assumption).
  reflexivity.
Qed.

Lemma eqb_not_ltb (x y : Double.t) :
  Double.eqb x y = true -> Double.ltb x y = false.
Proof.
  unfold Double.eqb, Double.ltb, SFeqb, SFltb.
  destruct (SFcompare x y) as [[ | | ]|]; congruence.
Qed.

(** C6, amended.  For the data of a 64x64 sampling grid,
    [analyzeImageColors] returns a tone whose [isDark] is true exactly when
    the luminance [0.299 * avgR + 0.587 * avgG + 0.114 * avgB], computed in
    doubles, is below 115; a computed luminance equal to 115 is not dark. *)
Theorem isDark_iff_double_luminance_below_115
    (sampleData : Image -> option (list Z)) (image : Image) (data : list Z) :
  sampleData image = Some data ->
  Z.of_nat (List.length data) = (4 * (64 * 64))%Z ->
  exists tone,
    analyzeImageColors sampleData image = Some tone /\
    (isDark tone = true <->
     Double.ltb (averageLuminance tone) (Double.ofZ 115) = true) /\
    (Double.eqb (averageLuminance tone) (Double.ofZ 115) = true ->
     isDark tone = false).
Proof.
  intros Hdata Hlen.
  destruct (analyzeData_whole data (Z.to_nat 4096)) as [ps [_ [_ Han]]]; [lia|].
  unfold analyzeImageColors. rewrite Hdata, Han.
  eexists. split; [reflexivity|].
  cbv zeta. unfold averageLuminance. cbn [average isDark].
  unfold getLuminance. cbn [r g b].
  split; [tauto|]. apply eqb_not_ltb.
Qed.

Lemma isDark_iff_double_luminance_below_115_witness :
  exists tone,
    analyzeImageColors (fun _ => Some (uniformGrid [120; 110; 100; 255]%Z))
      (mkImage 640 480 "blob:photo") = Some tone /\
    (isDark tone = true <->
     Double.ltb (averageLuminance tone) (Double.ofZ 115) = true) /\
    (Double.eqb (averageLuminance tone) (Double.ofZ 115) = true ->
     isDark tone = false).
Proof.
  apply (isDark_iff_double_luminance_below_115
           (fun _ => Some (uniformGrid [120; 110; 100; 255]%Z))
           (mkImage 640 480 "blob:photo")
           (uniformGrid [120; 110; 100; 255]%Z)).
  - reflexivity.
  - vm_compute. reflexivity.
Defined.

(** C6 as stated, over exact arithmetic, fails on a flat grey image of level
    115: the luminance of its average is exactly 115, yet the doubles give
    115 - 2^-46 and the image is classified dark. *)
Lemma isDark_flat_grey_115_is_dark :
  exists tone,
    analyzeImageColors (fun _ => Some (uniformGrid [115; 115; 115; 255]%Z))
      (mkImage 640 480 "blob:photo") = Some tone /\
    exactLuminance (average tone) == 115 /\
    averageLuminance tone = S754_finite false 8092405580431359 (-46) /\
    isDark tone = true.
Proof.
  unfold analyzeImageColors, analyzeData.
  rewrite scanPixels_uniformGrid by lia.
  eexists. split; [reflexivity|].
  split; [vm_compute; reflexivity|].
  split; vm_compute; reflexivity.
Qed.

(** C7, amended.  For a 64x64 grid of bytes, every channel of the average is
    the arithmetic mean of the 4096 sampled pixels and lies in [0, 255], and
    the accent is the first pixel in scan order of greatest score, the score
    [saturation * 0.6 + contrastToMid * 0.4] being the double that the source
    computes. *)
Theorem analyzeImageColors_average_and_double_accent
    (sampleData : Image -> option (list Z)) (image : Image) (data : list Z) :
  sampleData image = Some data ->
  Z.of_nat (List.length data) = (4 * (64 * 64))%Z ->
  forallb isByte data = true ->
  exists tone ps,
    analyzeImageColors sampleData image = Some tone /\
    pixelsOf data = Some ps /\
    Z.of_nat (List.length ps) = 4096%Z /\
    (r (average tone) == channelSum r ps / 4096 /\ 0 <= r (average tone) <= 255) /\
    (g (average tone) == channelSum g ps / 4096 /\ 0 <= g (average tone) <= 255) /\
    (b (average tone) == channelSum b ps / 4096 /\ 0 <= b (average tone) <= 255) /\
    firstArgmax ps (accent tone).
Proof.
  intros Hdata Hlen Hbytes.
  destruct (analyzeData_whole data (Z.to_nat 4096)) as [ps [Hps [Hk Han]]];
    [lia|].
  assert (Hin : forall x, In x data -> (0 <= x <= 255)%Z).
  { intros x Hx. rewrite forallb_forall in Hbytes. specialize (Hbytes x Hx).
    unfold isByte in Hbytes. lia. }
  pose proof (pixelsOf_bytes data ps Hps Hin) as HB.
  pose proof (pixelsOf_bytePixels data ps Hps Hin) as HP.
  unfold analyzeImageColors. rewrite Hdata, Han.
  eexists. exists ps. split; [reflexivity|].
  split; [exact Hps|]. split; [lia|].
  cbv zeta. cbn [average accent r g b].
  rewrite Hlen.
  assert (Hpix : inject_Z (4 * (64 * 64)) / 4 == 4096) by reflexivity.
  destruct (scanList_sums ps scanInit) as [HR [HG HBl]].
  cbn [scanInit sumR sumG sumB] in HR, HG, HBl.
  assert (Hmean : forall f s, s == 0 + channelSum f ps ->
            Forall (fun p => 0 <= f p <= 255) ps ->
            s / (inject_Z (4 * (64 * 64)) / 4) == channelSum f ps / 4096 /\
            0 <= s / (inject_Z (4 * (64 * 64)) / 4) <= 255).
  { intros f s Hs Hf. rewrite Hpix, Hs, Qplus_0_l.
    pose proof (channelSum_bounds f ps Hf) as [Hlo Hhi].
    replace (Z.of_nat (List.length ps)) with 4096%Z in Hhi by lia.
    split; [reflexivity|]. split.
    - apply Qle_shift_div_l; lra.
    - apply Qle_shift_div_r; [lra|]. exact Hhi. }
  repeat split.
  - apply (Hmean r _ HR). eapply Forall_impl; [|exact HB]. intros p Hp. apply Hp.
  - apply (Hmean r _ HR). eapply Forall_impl; [|exact HB]. intros p Hp. apply Hp.
  - apply (Hmean r _ HR). eapply Forall_impl; [|exact HB]. intros p Hp. apply Hp.
  - apply (Hmean g _ HG). eapply Forall_impl; [|exact HB]. intros p Hp. apply Hp.
  - apply (Hmean g _ HG). eapply Forall_impl; [|exact HB]. intros p Hp. apply Hp.
  - apply (Hmean g _ HG). eapply Forall_impl; [|exact HB]. intros p Hp. apply Hp.
  - apply (Hmean b _ HBl). eapply Forall_impl; [|exact HB]. intros p Hp. apply Hp.
  - apply (Hmean b _ HBl). eapply Forall_impl; [|exact HB]. intros p Hp. apply Hp.
  - apply (Hmean b _ HBl). eapply Forall_impl; [|exact HB]. intros p Hp. apply Hp.
  - destruct (scanList_accent ps HP) as [[Hnil _] | [Harg _]].
    + subst ps. cbn in Hk. lia.
    + exact Harg.
Qed.

Lemma analyzeImageColors_average_and_double_accent_witness :
  exists tone ps,
    analyzeImageColors
      (fun _ => Some (gridEndingWith [10; 20; 30; 255] [200; 10; 10; 255])%Z)
      (mkImage 640 480 "blob:photo") = Some tone /\
    pixelsOf (gridEndingWith [10; 20; 30; 255] [200; 10; 10; 255])%Z = Some ps /\
    Z.of_nat (List.length ps) = 4096%Z /\
    (r (average tone) == channelSum r ps / 4096 /\ 0 <= r (average tone) <= 255) /\
    (g (average tone) == channelSum g ps / 4096 /\ 0 <= g (average tone) <= 255) /\
    (b (average tone) == channelSum b ps / 4096 /\ 0 <= b (average tone) <= 255) /\
    firstArgmax ps (accent tone).
Proof.
  apply (analyzeImageColors_average_and_double_accent
           (fun _ => Some (gridEndingWith [10; 20; 30; 255] [200; 10; 10; 255])%Z)
           (mkImage 640 480 "blob:photo")).
  - reflexivity.
  - vm_compute. reflexivity.
  - vm_compute. reflexivity.
Defined.

(** C7 as stated, over exact scores, fails on a grid of grey 254 whose last
    pixel is grey 2: every pixel has the exact score 63/160, so that the
    first pixel is the first of greatest exact score; in doubles the score
    of grey 2 is two units in the last place above that of grey 254, and
    the accent is the last pixel. *)
Lemma accent_tie_is_broken_by_rounding :
  exists tone,
    analyzeImageColors
      (fun _ => Some (gridEndingWith [254; 254; 254; 255] [2; 2; 2; 255])%Z)
      (mkImage 640 480 "blob:photo") = Some tone /\
    pixelsOf (gridEndingWith [254; 254; 254; 255] [2; 2; 2; 255])%Z
    = Some (repeat (mkRGB 254 254 254) (Z.to_nat 4095) ++ [mkRGB 2 2 2]) /\
    exactFirstArgmax
      (repeat (mkRGB 254 254 254) (Z.to_nat 4095) ++ [mkRGB 2 2 2])
      (mkRGB 254 254 254) /\
    accent tone = mkRGB 2 2 2 /\
    ~ exactFirstArgmax
        (repeat (mkRGB 254 254 254) (Z.to_nat 4095) ++ [mkRGB 2 2 2])
        (accent tone).
Proof.
  unfold analyzeImageColors, analyzeData.
  rewrite scanPixels_gridEndingWith by lia.
  eexists. split; [reflexivity|].
  split; [apply pixelsOf_repeat_snoc|].
  split; [|split; [vm_compute; reflexivity|]].
  - exists 0%nat. split; [vm_compute; reflexivity|]. split.
    + intros j p Hp. apply nth_error_In in Hp.
      apply in_app_or in Hp. destruct Hp as [Hp | [<- | []]].
      * apply repeat_spec in Hp. subst p. apply Qle_refl.
      * vm_compute. discriminate.
    + intros j p Hj. lia.
  - intros [k [Hk [_ Hbefore]]].
    destruct k as [|k]; [vm_compute in Hk; discriminate|].
    specialize (Hbefore 0%nat (mkRGB 254 254 254) ltac:(lia)
                  ltac:(vm_compute; reflexivity)).
    vm_compute in Hbefore. discriminate.
Qed.

(** ** The adaptive restyle *)

(** C2, amended.  When the adaptive restyle runs (an image URL, the adaptive
    preset, the image loads, the effect is not cancelled and the grid is
    sampled), the new style takes fill, stroke, shadowColor, strokeWidth,
    size, paddingY and lineHeight from the derived style, and keeps the
    previous fontWeight and the previous fontFamily, whatever they were: the
    derived family is dropped.  paddingX, shadowBlur and shadowOffsetY are
    untouched. *)
Theorem adaptStyle_merge
    (loadEvent : string -> LoadEvent) (sampleData : Image -> option (list Z))
    (st : AppState) (u : Draws) (img : Image) (data : list Z) :
  truthyStr (imageUrl st) = true ->
  preset st = adaptive ->
  loadEvent (imageUrl st) = onload img ->
  sampleData img = Some data ->
  Z.of_nat (List.length data) = (4 * (64 * 64))%Z ->
  exists derived fs,
    deriveFontStyleFromImage sampleData img u = Some derived /\
    adaptStyle loadEvent sampleData st false u = Resolved fs /\
    (Some (fill fs) = p_fill derived /\
     Some (stroke fs) = p_stroke derived /\
     Some (shadowColor fs) = p_shadowColor derived /\
     Some (strokeWidth fs) = p_strokeWidth derived /\
     Some (size fs) = p_size derived /\
     Some (paddingY fs) = p_paddingY derived /\
     Some (lineHeight fs) = p_lineHeight derived) /\
    (fontWeight fs = fontWeight (fontStyle st) /\
     fontFamily fs = fontFamily (fontStyle st)) /\
    (paddingX fs = paddingX (fontStyle st) /\
     shadowBlur fs = shadowBlur (fontStyle st) /\
     shadowOffsetY fs = shadowOffsetY (fontStyle st)).
Proof.
  intros Hurl Hpreset Hload Hdata Hlen.
  destruct (analyzeData_whole data (Z.to_nat 4096)) as [ps [_ [_ Han]]]; [lia|].
  unfold adaptStyle, deriveFontStyleFromImage, analyzeImageColors, loadImageSafe.
  rewrite Hurl, Hpreset, Hload.
  cbn [negb orb PresetMode_eqb andThen].
  rewrite Hdata, Han.
  eexists. eexists. split; [reflexivity|]. split; [reflexivity|].
  repeat split.
Qed.

Lemma adaptStyle_merge_witness :
  exists derived fs,
    deriveFontStyleFromImage darkSamples darkPhoto someDraws = Some derived /\
    adaptStyle (fun _ => onload darkPhoto) darkSamples untouchedState false
      someDraws = Resolved fs /\
    (Some (fill fs) = p_fill derived /\
     Some (stroke fs) = p_stroke derived /\
     Some (shadowColor fs) = p_shadowColor derived /\
     Some (strokeWidth fs) = p_strokeWidth derived /\
     Some (size fs) = p_size derived /\
     Some (paddingY fs) = p_paddingY derived /\
     Some (lineHeight fs) = p_lineHeight derived) /\
    (fontWeight fs = fontWeight (fontStyle untouchedState) /\
     fontFamily fs = fontFamily (fontStyle untouchedState)) /\
    (paddingX fs = paddingX (fontStyle untouchedState) /\
     shadowBlur fs = shadowBlur (fontStyle untouchedState) /\
     shadowOffsetY fs = shadowOffsetY (fontStyle untouchedState)).
Proof.
  apply (adaptStyle_merge (fun _ => onload darkPhoto) darkSamples
           untouchedState someDraws darkPhoto (uniformGrid [10; 20; 30; 255]%Z)).
  - reflexivity.
  - reflexivity.
  - reflexivity.
  - reflexivity.
  - vm_compute. reflexivity.
Defined.

(** C2 as stated fails at the untouched state: the restyle ran and derived the
    stack of Pridi, yet the family is still the initial one. *)
Lemma adaptStyle_drops_derived_family :
  exists derived fs,
    deriveFontStyleFromImage darkSamples darkPhoto someDraws = Some derived /\
    adaptStyle (fun _ => onload darkPhoto) darkSamples untouchedState false
      someDraws = Resolved fs /\
    p_fontFamily derived = Some (buildFontStack (Some "Pridi"%string)) /\
    fontFamily fs = SARABUN_STACK "" /\
    Some (fontFamily fs) <> p_fontFamily derived.
Proof.
  unfold adaptStyle, loadImageSafe, deriveFontStyleFromImage,
    analyzeImageColors, darkSamples, analyzeData.
  rewrite scanPixels_uniformGrid by lia.
  eexists. eexists.
  split; [vm_compute; reflexivity|].
  split; [vm_compute; reflexivity|].
  split; [vm_compute; reflexivity|].
  split; [vm_compute; reflexivity|].
  vm_compute. discriminate.
Qed.

(** ** Line wrapping *)

Lemma truthy_false {A : Type} (s : list A) : truthy s = false -> s = [].
Proof. destruct s; [reflexivity | discriminate]. Qed.

Lemma truthy_true {A : Type} (s : list A) : truthy s = true <-> s <> [].
Proof. destruct s; cbn; split; congruence. Qed.

Section Wrapping.

Variable measureWidth : Font -> jsstring -> Q.
Variable ctx : Ctx.
Variable maxWidth : Q.

Lemma token_ok (tokens : list jsstring) (t : jsstring) :
  In t tokens -> fitsOrLoneToken measureWidth ctx tokens maxWidth t.
Proof.
  intro Hin. unfold fitsOrLoneToken.
  destruct (Qlt_le_dec maxWidth (measureText measureWidth ctx t)); auto.
Qed.

Lemma wrapTokens_ok (all : list jsstring) (hasSpace : bool) :
  forall tokens line,
    incl tokens all ->
    (line = [] \/ fitsOrLoneToken measureWidth ctx all maxWidth line) ->
    Forall (fun l => l <> [] /\ fitsOrLoneToken measureWidth ctx all maxWidth l)
           (wrapTokens measureWidth ctx maxWidth hasSpace tokens line).
Proof.
  induction tokens as [|piece rest IH]; intros line Hincl Hline.
  - cbn. destruct (truthy line) eqn:E; [|constructor].
    apply truthy_true in E. constructor; [|constructor].
    split; [exact E|]. destruct Hline; [contradiction | assumption].
  - assert (Hpiece : fitsOrLoneToken measureWidth ctx all maxWidth piece) by (apply token_ok, Hincl; left; reflexivity).
    assert (Hrest : incl rest all) by (intros x Hx; apply Hincl; right; exact Hx).
    cbn [wrapTokens].
    destruct (truthy line) eqn:E.
    + rewrite andb_true_r.
      match goal with |- context [Qltb maxWidth ?m] =>
        destruct (Qltb maxWidth m) eqn:Hw end.
      * constructor.
        -- apply truthy_true in E. split; [exact E|].
           destruct Hline; [contradiction | assumption].
        -- apply IH; auto.
      * apply IH; [exact Hrest|]. right. left.
        apply Qltb_ge in Hw. exact Hw.
    + rewrite andb_false_r. apply IH; auto.
Qed.

Lemma wrapParagraphs_ok (all : list jsstring) :
  forall paragraphs,
    incl (flat_map tokensOf paragraphs) all ->
    Forall (fun l => l = [] \/ fitsOrLoneToken measureWidth ctx all maxWidth l)
           (wrapParagraphs measureWidth ctx maxWidth paragraphs).
Proof.
  induction paragraphs as [|p rest IH]; intro Hincl; [constructor|].
  cbn [wrapParagraphs flat_map] in *.
  apply Forall_app. split; [|apply Forall_app; split].
  - eapply Forall_impl;
      [|apply (wrapTokens_ok all (includesSpace p) (tokensOf p) [])].
    + intros l [_ Hl]. right. exact Hl.
    + intros x Hx. apply Hincl, in_or_app. left. exact Hx.
    + left. reflexivity.
  - destruct (truthy rest); constructor; [left; reflexivity | constructor].
  - apply IH. intros x Hx. apply Hincl, in_or_app. right. exact Hx.
Qed.

Lemma wrapText_lines (text : jsstring) (line : jsstring) :
  In line (wrapText measureWidth ctx text maxWidth) ->
  line = [] \/
  fitsOrLoneToken measureWidth ctx (textTokens text) maxWidth line.
Proof.
  intro Hin.
  pose proof (wrapParagraphs_ok (textTokens text) (splitOn LF (removeCR text))
                (incl_refl _)) as Hall.
  rewrite Forall_forall in Hall. apply Hall. exact Hin.
Qed.

(** *** Glyph wrapping *)

Lemma wrapTokens_glyph_concat :
  forall tokens line,
    let out := wrapTokens measureWidth ctx maxWidth false tokens line in
    Forall (fun l => l <> []) out /\
    List.concat out = line ++ List.concat tokens.
Proof.
  induction tokens as [|piece rest IH]; intro line; cbv zeta.
  - cbn. destruct (truthy line) eqn:E.
    + apply truthy_true in E. split; [repeat constructor; exact E|].
      cbn. reflexivity.
    + apply truthy_false in E. subst line. split; [constructor | reflexivity].
  - cbn [wrapTokens List.concat].
    destruct (truthy line) eqn:E.
    + rewrite andb_true_r.
      match goal with |- context [Qltb maxWidth ?m] =>
        destruct (Qltb maxWidth m) end.
      * destruct (IH piece) as [Hne Hcat]. split.
        -- constructor; [apply truthy_true, E | exact Hne].
        -- cbn [List.concat]. rewrite Hcat. reflexivity.
      * destruct (IH (line ++ piece)) as [Hne Hcat]. split; [exact Hne|].
        rewrite Hcat, <- app_assoc. reflexivity.
    + rewrite andb_false_r. apply truthy_false in E. subst line.
      destruct (IH piece) as [Hne Hcat]. split; [exact Hne|].
      rewrite Hcat. reflexivity.
Qed.

End Wrapping.

Lemma splitOn_absent (sep : N) (s : jsstring) :
  existsb (N.eqb sep) s = false -> splitOn sep s = [s].
Proof.
  induction s as [|c s IH]; intro H; [reflexivity|].
  cbn in H. apply orb_false_iff in H. destruct H as [Hc Hs].
  cbn [splitOn]. rewrite N.eqb_sym, Hc, (IH Hs). reflexivity.
Qed.

Lemma removeCR_keeps_absent (c : N) (s : jsstring) :
  existsb (N.eqb c) s = false -> existsb (N.eqb c) (removeCR s) = false.
Proof.
  induction s as [|d s IH]; intro H; [reflexivity|].
  cbn in H. apply orb_false_iff in H. destruct H as [Hd Hs].
  cbn. destruct (negb (d =? CR)%N); cbn; rewrite ?Hd; auto.
Qed.

Lemma splitUnits_tokens (s : jsstring) :
  filter truthy (splitUnits s) = splitUnits s /\
  List.concat (splitUnits s) = s.
Proof.
  induction s as [|c s [IH1 IH2]]; [split; reflexivity|].
  cbn. unfold splitUnits in *. rewrite IH1, IH2. split; reflexivity.
Qed.

(** C5, amended.  For a text with no space and no line feed, [wrapText]
    returns only non-empty lines, and their concatenation is the text with
    its carriage returns removed (the text itself when it has none). *)
Theorem wrapText_glyph_roundtrip
    (measureWidth : Font -> jsstring -> Q) (ctx : Ctx) (text : jsstring)
    (maxWidth : Q) :
  includesSpace text = false ->
  existsb (N.eqb LF) text = false ->
  Forall (fun line => line <> [])
         (wrapText measureWidth ctx text maxWidth) /\
  List.concat (wrapText measureWidth ctx text maxWidth) = removeCR text.
Proof.
  intros Hsp Hlf. unfold wrapText.
  rewrite (splitOn_absent LF (removeCR text) (removeCR_keeps_absent LF text Hlf)).
  cbn [wrapParagraphs truthy]. rewrite !app_nil_r.
  unfold wrapParagraph, tokensOf.
  unfold includesSpace in *. rewrite (removeCR_keeps_absent SP text Hsp).
  destruct (splitUnits_tokens (removeCR text)) as [Hf Hc]. rewrite Hf.
  pose proof (wrapTokens_glyph_concat measureWidth ctx maxWidth
                (splitUnits (removeCR text)) []) as [Hne Hcat].
  split; [exact Hne|]. rewrite Hcat, Hc. reflexivity.
Qed.

(** C4.  Every line of [wrapText] is at most [maxWidth] wide, or is one
    token that by itself is wider.  For the empty lines that separate
    paragraphs this asks that the empty string fits, as it does in [draw],
    where the width is positive and the empty string measures 0.  No
    property of the measure is needed. *)
Theorem wrapText_lines_fit
    (measureWidth : Font -> jsstring -> Q) (ctx : Ctx) (text : jsstring)
    (maxWidth : Q) (line : jsstring) :
  In line (wrapText measureWidth ctx text maxWidth) ->
  line <> [] \/ measureText measureWidth ctx [] <= maxWidth ->
  fitsOrLoneToken measureWidth ctx (textTokens text) maxWidth line.
Proof.
  intros Hin Hside.
  destruct (wrapText_lines measureWidth ctx maxWidth text line Hin) as [-> | Hok].
  - destruct Hside as [Hne | Hempty]; [congruence|]. left. exact Hempty.
  - exact Hok.
Qed.

Lemma wrapText_lines_fit_witness :
  fitsOrLoneToken fixedPitch (ctxAt 40)
    (textTokens [97; 98; 32; 99; 100; 10; 101; 102]%N) 60 [].
Proof.
  apply (wrapText_lines_fit fixedPitch (ctxAt 40)
           [97; 98; 32; 99; 100; 10; 101; 102]%N 60 []).
  - vm_compute. tauto.
  - right. vm_compute. discriminate.
Defined.

Lemma fixedPitch_monotone : monotoneMeasure fixedPitch.
Proof.
  intros f s t. unfold fixedPitch.
  rewrite length_app, Nat2Z.inj_add, inject_Z_plus.
  assert (H0 : 0 <= inject_Z (Z.of_nat (List.length t))).
  { change 0 with (inject_Z 0). rewrite <- Zle_Qle. lia. }
  lra.
Qed.

Lemma wrapText_glyph_roundtrip_witness :
  Forall (fun line => line <> [])
         (wrapText halfEm (ctxAt 54) DEFAULT_TEXT 200) /\
  List.concat (wrapText halfEm (ctxAt 54) DEFAULT_TEXT 200)
  = removeCR DEFAULT_TEXT.
Proof.
  apply (wrapText_glyph_roundtrip halfEm (ctxAt 54) DEFAULT_TEXT 200).
  - reflexivity.
  - reflexivity.
Defined.

(** C5 as stated fails on "a\rb": one paragraph, no space, and the lines
    spell "ab". *)
Lemma wrapText_glyph_drops_carriage_return :
  includesSpace [97; 13; 98]%N = false /\
  existsb (N.eqb LF) [97; 13; 98]%N = false /\
  List.concat (wrapText fixedPitch (ctxAt 40) [97; 13; 98]%N 800)
  = [97; 98]%N /\
  List.concat (wrapText fixedPitch (ctxAt 40) [97; 13; 98]%N 800)
  <> [97; 13; 98]%N.
Proof.
  split; [reflexivity|]. split; [reflexivity|].
  split; [vm_compute; reflexivity|].
  vm_compute. discriminate.
Qed.

(** ** The cover crop *)

Lemma Qfloor_nonneg (x : Q) : 0 <= x -> 0 <= inject_Z (Qfloor x).
Proof.
  intro Hx. change 0 with (inject_Z 0). rewrite <- Zle_Qle.
  change 0%Z with (Qfloor 0). apply Qfloor_resp_le, Hx.
Qed.

Lemma Qfloor_below (x : Q) : inject_Z (Qfloor x) <= x.
Proof. apply Qfloor_le. Qed.

Lemma Qfloor_above (x : Q) : x - 1 < inject_Z (Qfloor x).
Proof.
  pose proof (Qlt_floor x) as H. rewrite inject_Z_plus in H.
  change (inject_Z 1) with 1 in H. lra.
Qed.

Lemma canvasAR_value : W / H == 4 # 5.
Proof. reflexivity. Qed.

Lemma half_eq (x : Q) : x / 2 == x * (1 # 2).
Proof. reflexivity. Qed.

Lemma coverCrop_spec (img : Image) :
  (0 < width img)%Z -> (0 < height img)%Z ->
  coverCropSpec img (coverCrop img).
Proof.
  intros Hw Hh.
  assert (Hwq : 0 < inject_Z (width img)).
  { change 0 with (inject_Z 0). rewrite <- Zlt_Qlt. exact Hw. }
  assert (Hhq : 0 < inject_Z (height img)).
  { change 0 with (inject_Z 0). rewrite <- Zlt_Qlt. exact Hh. }
  unfold coverCrop, coverCropSpec.
  set (w := inject_Z (width img)) in *.
  set (h := inject_Z (height img)) in *.
  assert (Hwh : w / h * h == w) by (field; lra).
  destruct (Qltb (W / H) (w / h)) eqn:E.
  - apply Qltb_lt in E.
    pose proof (Qfloor_below (h * (W / H))) as Hb.
    pose proof (Qfloor_above (h * (W / H))) as Ha.
    assert (Hlt : h * (W / H) < w).
    { rewrite <- Hwh. rewrite (Qmult_comm h). apply Qmult_lt_r; assumption. }
    assert (Hs0 : 0 <= h * (W / H)).
    { rewrite canvasAR_value. lra. }
    pose proof (Qfloor_nonneg _ Hs0) as Hsw0.
    unfold Math_floor.
    set (sw := inject_Z (Qfloor (h * (W / H)))) in *.
    pose proof (half_eq (w - sw)) as Hhalf.
    assert (Hx0 : 0 <= (w - sw) / 2) by lra.
    pose proof (Qfloor_nonneg _ Hx0) as Hsx0.
    pose proof (Qfloor_below ((w - sw) / 2)) as Hsxb.
    split.
    + repeat split; lra.
    + left. repeat split; lra.
  - apply Qltb_ge in E.
    pose proof (Qfloor_below (w / (W / H))) as Hb.
    pose proof (Qfloor_above (w / (W / H))) as Ha.
    assert (Hle : w / (W / H) <= h).
    { apply Qle_shift_div_r; [rewrite canvasAR_value; lra|].
      rewrite <- Hwh at 1. rewrite (Qmult_comm h).
      apply Qmult_le_compat_r; lra. }
    assert (Hs0 : 0 <= w / (W / H)).
    { apply Qle_shift_div_l; [rewrite canvasAR_value; lra | lra]. }
    pose proof (Qfloor_nonneg _ Hs0) as Hsh0.
    unfold Math_floor.
    set (sh := inject_Z (Qfloor (w / (W / H)))) in *.
    pose proof (half_eq (h - sh)) as Hhalf.
    assert (Hy0 : 0 <= (h - sh) / 2) by lra.
    pose proof (Qfloor_nonneg _ Hy0) as Hsy0.
    pose proof (Qfloor_below ((h - sh) / 2)) as Hsyb.
    split.
    + repeat split; lra.
    + right. repeat split; lra.
Qed.

(** ** The render pass *)

Lemma forEachLine_emit (mk : jsstring -> nat -> Ctx -> Op) :
  forall ls idx cv,
    forEachLine (fun ln i => emit (mk ln i)) ls idx cv =
    {| cur := cur cv; saved := saved cv;
       log := log cv ++ lineOps mk (cur cv) ls idx |}.
Proof.
  induction ls as [|ln rest IH]; intros idx cv.
  - cbn. rewrite app_nil_r. destruct cv; reflexivity.
  - cbn [forEachLine]. rewrite IH. cbn [emit cur saved log].
    rewrite <- app_assoc. reflexivity.
Qed.

Lemma strokeCalls_app (a b : list Op) :
  strokeCalls (a ++ b) = strokeCalls a ++ strokeCalls b.
Proof. apply flat_map_app. Qed.

Lemma fillCalls_app (a b : list Op) :
  fillCalls (a ++ b) = fillCalls a ++ fillCalls b.
Proof. apply flat_map_app. Qed.

Lemma textSizes_app (a b : list Op) :
  textSizes (a ++ b) = textSizes a ++ textSizes b.
Proof. apply flat_map_app. Qed.

Section RenderPass.

Variable loadEvent : string -> LoadEvent.
Variable measureWidth : Font -> jsstring -> Q.

Lemma drawLayers_resolves (st : AppState) :
  exists cv,
    drawLayers loadEvent st = Resolved cv /\
    log cv = layerOps loadEvent st /\
    cur cv = cur (drawBottomPlate
                    (drawBackground (loaded loadEvent (imageUrl st)) freshCanvas)).
Proof.
  unfold drawLayers, layerOps, loaded, loadImageSafe, loadLogoSafe.
  destruct (truthyStr (imageUrl st));
    [destruct (loadEvent (imageUrl st)) as [img|]|];
    cbn [andThen];
    (destruct (truthyStr (logoUrl st));
     [destruct (loadEvent (logoUrl st)) as [logoImg|]|]);
    cbn [andThen]; eexists; (split; [reflexivity|]);
    split; try reflexivity; try (rewrite app_nil_r; reflexivity).
Qed.

Lemma layerOps_no_text (st : AppState) :
  filter isTextOp (layerOps loadEvent st) = [] /\
  strokeCalls (layerOps loadEvent st) = [] /\
  fillCalls (layerOps loadEvent st) = [] /\
  textSizes (layerOps loadEvent st) = [].
Proof.
  unfold layerOps.
  destruct (loaded loadEvent (imageUrl st)) as [img|];
    destruct (loaded loadEvent (logoUrl st)) as [logoImg|];
    cbn [drawBackground]; try destruct (coverCrop img) as [[[sx sy] sw] sh];
    repeat split; reflexivity.
Qed.

(** *** The fitting loop *)

Lemma fitLoop_total (fs : FontStyle) (safeText : jsstring) (maxTextWidth : Q) :
  forall fuel size ls n cv,
    (34 <= size -> size - 34 < 2 * inject_Z (Z.of_nat fuel)) ->
    exists fit,
      fitLoop measureWidth fuel fs safeText maxTextWidth size ls n cv
        = Some fit /\
      log (fitCanvas fit) = log cv /\
      c_textBaseline (cur (fitCanvas fit)) = c_textBaseline (cur cv) /\
      (n <= iterations fit <= n + fuel)%nat /\
      (size < 34 -> iterations fit = n /\ lines fit = ls).
Proof.
  induction fuel as [|fuel IH]; intros size ls n cv Hfuel.
  - cbn [fitLoop].
    destruct (Qle_bool 34 size) eqn:E.
    + apply Qle_bool_iff in E. specialize (Hfuel E).
      change (inject_Z (Z.of_nat 0)) with 0 in Hfuel. lra.
    + eexists. split; [reflexivity|]. cbn.
      repeat split; auto; lia.
  - cbn [fitLoop].
    destruct (Qle_bool 34 size) eqn:E.
    + apply Qle_bool_iff in E. specialize (Hfuel E).
      rewrite Nat2Z.inj_succ, <- Z.add_1_r, inject_Z_plus in Hfuel.
      change (inject_Z 1) with 1 in Hfuel.
      match goal with |- context [if ?c then _ else _] => destruct c end.
      * eexists. split; [reflexivity|]. cbn.
        repeat split; try lia; lra.
      * match goal with
        | |- context [fitLoop _ _ _ _ _ ?sz ?ls ?k ?c] =>
            destruct (IH sz ls k c) as [fit [Hfit [Hlog [Hbase [Hit _]]]]]
        end.
        { intros _. lra. }
        exists fit. split; [exact Hfit|].
        split; [exact Hlog|]. split; [exact Hbase|].
        split; [lia|]. intro Hlt. lra.
    + eexists. split; [reflexivity|]. cbn.
      repeat split; auto; lia.
Qed.

Lemma fitFuel_enough (size : Q) :
  34 <= size -> size - 34 < 2 * inject_Z (Z.of_nat (fitFuel size)).
Proof.
  intro Hs. unfold fitFuel.
  pose proof (half_eq (size - 34)) as Hhalf.
  assert (H0 : 0 <= (size - 34) / 2) by lra.
  pose proof (Qfloor_nonneg _ H0) as Hf0.
  change 0 with (inject_Z 0) in Hf0. rewrite <- Zle_Qle in Hf0.
  rewrite Nat2Z.inj_succ, Z2Nat.id, <- Z.add_1_r by exact Hf0.
  pose proof (Qlt_floor ((size - 34) / 2)) as Hlt. lra.
Qed.

Lemma fitFuel_ceiling (size : Q) :
  34 <= size ->
  (Z.of_nat (fitFuel size) <= Qceiling ((size - 34) / 2) + 1)%Z.
Proof.
  intro Hs. unfold fitFuel.
  pose proof (half_eq (size - 34)) as Hhalf.
  assert (H0 : 0 <= (size - 34) / 2) by lra.
  pose proof (Qfloor_nonneg _ H0) as Hf0.
  change 0 with (inject_Z 0) in Hf0. rewrite <- Zle_Qle in Hf0.
  rewrite Nat2Z.inj_succ, Z2Nat.id by exact Hf0.
  assert (Hfc : (Qfloor ((size - 34) / 2) <= Qceiling ((size - 34) / 2))%Z).
  { rewrite Zle_Qle.
    apply Qle_trans with ((size - 34) / 2);
      [apply Qfloor_le | apply Qle_ceiling]. }
  lia.
Qed.

(** The fitting loop of [draw] always comes to an end. *)
Lemma fitText_total (fs : FontStyle) (safeText : jsstring) (cv : Canvas) :
  exists fit,
    fitText measureWidth fs safeText cv = Some fit /\
    log (fitCanvas fit) = log cv /\
    c_textBaseline (cur (fitCanvas fit)) = "middle"%string /\
    (iterations fit <= fitFuel (size fs))%nat /\
    (size fs < 34 -> iterations fit = 0%nat /\ lines fit = []).
Proof.
  unfold fitText.
  match goal with
  | |- context [fitLoop _ ?fuel _ _ ?mw ?sz ?ls ?k ?c] =>
      destruct (fitLoop_total fs safeText mw fuel sz ls k c)
        as [fit [Hfit [Hlog [Hbase [Hit Hlow]]]]]
  end.
  { apply fitFuel_enough. }
  exists fit. split; [exact Hfit|].
  split; [exact Hlog|]. split; [exact Hbase|].
  split; [lia | exact Hlow].
Qed.

(** *** The text layer *)

Lemma log_forEachLine (mk : jsstring -> nat -> Ctx -> Op)
    (ls : list jsstring) (idx : nat) (cv : Canvas) :
  log (forEachLine (fun ln i => emit (mk ln i)) ls idx cv)
  = log cv ++ lineOps mk (cur cv) ls idx.
Proof. rewrite forEachLine_emit. reflexivity. Qed.

Lemma cur_forEachLine (mk : jsstring -> nat -> Ctx -> Op)
    (ls : list jsstring) (idx : nat) (cv : Canvas) :
  cur (forEachLine (fun ln i => emit (mk ln i)) ls idx cv) = cur cv.
Proof. rewrite forEachLine_emit. reflexivity. Qed.

Lemma drawLines_log (p : PresetMode) (fs : FontStyle) (fit : Fit) :
  let s := drawFontSize fit in
  let h := lineHeight fs in
  let total := idxQ (List.length (lines fit)) * s * h in
  let startY := H - paddingY fs - total / 2 in
  exists c1 c2,
    log (drawLines p fs fit) =
      log (fitCanvas fit)
      ++ lineOps (fun ln idx c => StrokeText c ln (W / 2)
                                    (startY + idxQ idx * s * h))
                 c1 (lines fit) 0
      ++ lineOps (fun ln idx c => FillText c ln (W / 2)
                                  (startY + idxQ idx * s * h))
                 c2 (lines fit) 0 /\
    c_font c1 = mkFont (fontWeight fs) s (fontFamily fs) /\
    c_font c2 = mkFont (fontWeight fs) s (fontFamily fs) /\
    c_textBaseline c1 = c_textBaseline (cur (fitCanvas fit)) /\
    c_textBaseline c2 = c_textBaseline (cur (fitCanvas fit)).
Proof.
  cbv zeta. unfold drawLines. cbv zeta.
  set (s := drawFontSize fit). set (h := lineHeight fs).
  set (startY := H - paddingY fs - idxQ (List.length (lines fit)) * s * h / 2).
  pose proof (log_forEachLine
    (fun ln idx c => StrokeText c ln (W / 2) (startY + idxQ idx * s * h)))
    as HS.
  pose proof (log_forEachLine
    (fun ln idx c => FillText c ln (W / 2) (startY + idxQ idx * s * h)))
    as HF.
  pose proof (cur_forEachLine
    (fun ln idx c => StrokeText c ln (W / 2) (startY + idxQ idx * s * h)))
    as HC.
  cbv beta in HS, HF, HC.
  destruct p; cbn [PresetMode_eqb];
    match goal with
    | |- context [forEachLine _ _ _ (setFillStyle ?paint ?inner)] =>
        exists (cur inner), (cur (setFillStyle paint inner));
        change (log (setShadowOffsetY 0 (setShadowBlur 0
                 (setShadowColor "transparent"
                    (forEachLine
                       (fun ln i => emit (fun c =>
                          FillText c ln (W / 2) (startY + idxQ i * s * h)))
                       (lines fit) 0%nat (setFillStyle paint inner))))))
          with (log (forEachLine
                       (fun ln i => emit (fun c =>
                          FillText c ln (W / 2) (startY + idxQ i * s * h)))
                       (lines fit) 0%nat (setFillStyle paint inner)));
        rewrite HF;
        change (log (setFillStyle paint inner)) with (log inner)
    end.
  all: rewrite HS, HC.
  all: rewrite <- app_assoc.
  all: split; [reflexivity|].
  all: split; [reflexivity|].
  all: split;
    [match goal with
     | |- c_font (cur (setFillStyle ?paint ?inner)) = _ =>
         change (c_font (cur (setFillStyle paint inner)))
           with (c_font (cur inner))
     end; rewrite HC; reflexivity|].
  all: split; [reflexivity|].
  all: match goal with
       | |- c_textBaseline (cur (setFillStyle ?paint ?inner)) = _ =>
           change (c_textBaseline (cur (setFillStyle paint inner)))
             with (c_textBaseline (cur inner))
       end; rewrite HC; reflexivity.
Qed.

Lemma lineOps_stroke (startY s h : Q) (c : Ctx) :
  forall ls idx,
    let ops := lineOps (fun ln i c => StrokeText c ln (W / 2)
                                        (startY + idxQ i * s * h)) c ls idx in
    strokeCalls ops = placeLines startY s h (c_textBaseline c) ls idx /\
    fillCalls ops = [] /\
    textSizes ops = map (fun _ => f_size (c_font c)) ls.
Proof.
  induction ls as [|ln rest IH]; intro idx; cbv zeta.
  - repeat split.
  - destruct (IH (S idx)) as [H1 [H2 H3]].
    cbn [lineOps strokeCalls fillCalls textSizes flat_map placeLines map app].
    fold (strokeCalls (lineOps (fun ln i c => StrokeText c ln (W / 2)
            (startY + idxQ i * s * h)) c rest (S idx))).
    fold (fillCalls (lineOps (fun ln i c => StrokeText c ln (W / 2)
            (startY + idxQ i * s * h)) c rest (S idx))).
    fold (textSizes (lineOps (fun ln i c => StrokeText c ln (W / 2)
            (startY + idxQ i * s * h)) c rest (S idx))).
    rewrite H1, H2, H3. repeat split.
Qed.

Lemma lineOps_fill (startY s h : Q) (c : Ctx) :
  forall ls idx,
    let ops := lineOps (fun ln i c => FillText c ln (W / 2)
                                      (startY + idxQ i * s * h)) c ls idx in
    fillCalls ops = placeLines startY s h (c_textBaseline c) ls idx /\
    strokeCalls ops = [] /\
    textSizes ops = map (fun _ => f_size (c_font c)) ls.
Proof.
  induction ls as [|ln rest IH]; intro idx; cbv zeta.
  - repeat split.
  - destruct (IH (S idx)) as [H1 [H2 H3]].
    cbn [lineOps strokeCalls fillCalls textSizes flat_map placeLines map app].
    fold (strokeCalls (lineOps (fun ln i c => FillText c ln (W / 2)
            (startY + idxQ i * s * h)) c rest (S idx))).
    fold (fillCalls (lineOps (fun ln i c => FillText c ln (W / 2)
            (startY + idxQ i * s * h)) c rest (S idx))).
    fold (textSizes (lineOps (fun ln i c => FillText c ln (W / 2)
            (startY + idxQ i * s * h)) c rest (S idx))).
    rewrite H1, H2, H3. repeat split.
Qed.

(** What a render pass with text does: the first layers, the fitting
    loop, then one stroke and one fill per line. *)
Lemma draw_with_text (st : AppState) :
  truthy (trim (text st)) = true ->
  exists layers fit cv,
    drawLayers loadEvent st = Resolved layers /\
    fitText measureWidth (fontStyle st) (trim (text st)) layers = Some fit /\
    draw loadEvent measureWidth true st = Resolved (Some cv) /\
    (iterations fit <= fitFuel (size (fontStyle st)))%nat /\
    (size (fontStyle st) < 34 -> iterations fit = 0%nat /\ lines fit = []) /\
    let s := drawFontSize fit in
    let h := lineHeight (fontStyle st) in
    let total := idxQ (List.length (lines fit)) * s * h in
    let startY := H - paddingY (fontStyle st) - total / 2 in
    log cv = layerOps loadEvent st ++ filter isTextOp (log cv) /\
    filter isTextOp (layerOps loadEvent st) = [] /\
    strokeCalls (log cv) = placeLines startY s h "middle" (lines fit) 0 /\
    fillCalls (log cv) = placeLines startY s h "middle" (lines fit) 0 /\
    textSizes (log cv) = map (fun _ => s) (lines fit ++ lines fit).
Proof.
  intro Htext.
  destruct (drawLayers_resolves st) as [layers [Hlayers [Hlog _]]].
  destruct (fitText_total (fontStyle st) (trim (text st)) layers)
    as [fit [Hfit [Hflog [Hbase [Hit Hlow]]]]].
  exists layers, fit, (drawLines (preset st) (fontStyle st) fit).
  split; [exact Hlayers|]. split; [exact Hfit|].
  split.
  { unfold draw. cbn [negb]. rewrite Hlayers. cbn [andThen].
    rewrite Htext. cbn [negb]. rewrite Hfit. reflexivity. }
  split; [exact Hit|]. split; [exact Hlow|].
  cbv zeta.
  destruct (drawLines_log (preset st) (fontStyle st) fit)
    as [c1 [c2 [Hdl [Hf1 [Hf2 [Hb1 Hb2]]]]]].
  cbv zeta in Hdl.
  destruct (layerOps_no_text st) as [Hn0 [Hn1 [Hn2 Hn3]]].
  match type of Hdl with
  | _ = _ ++ lineOps ?mkS _ _ _ ++ lineOps ?mkF _ _ _ =>
      destruct (lineOps_stroke
                  (H - paddingY (fontStyle st)
                   - idxQ (List.length (lines fit)) * drawFontSize fit
                     * lineHeight (fontStyle st) / 2)
                  (drawFontSize fit) (lineHeight (fontStyle st)) c1
                  (lines fit) 0) as [HS1 [HS2 HS3]];
      destruct (lineOps_fill
                  (H - paddingY (fontStyle st)
                   - idxQ (List.length (lines fit)) * drawFontSize fit
                     * lineHeight (fontStyle st) / 2)
                  (drawFontSize fit) (lineHeight (fontStyle st)) c2
                  (lines fit) 0) as [HF1 [HF2 HF3]]
  end.
  cbv zeta in HS1, HS2, HS3, HF1, HF2, HF3.
  rewrite Hdl, Hflog, Hlog.
  rewrite !strokeCalls_app, !fillCalls_app, !textSizes_app, !filter_app.
  rewrite Hn0, Hn1, Hn2, Hn3, HS1, HS2, HS3, HF1, HF2, HF3.
  rewrite Hb1, Hb2, Hbase, Hf1, Hf2. cbn [f_size app].
  rewrite app_nil_r, map_app.
  repeat split.
  f_equal.
  assert (Hall : forall mk c ls idx,
            (forall ln i, isTextOp (mk ln i c) = true) ->
            filter isTextOp (lineOps mk c ls idx) = lineOps mk c ls idx).
  { intros mk c ls. induction ls as [|ln rest IH]; intros idx Hmk;
      [reflexivity|].
    cbn [lineOps filter]. rewrite Hmk, IH by exact Hmk. reflexivity. }
  rewrite !Hall by reflexivity. reflexivity.
Qed.

End RenderPass.

Lemma placeLines_ends (startY s h : Q) (baseline : string) :
  forall ls idx,
    ls <> [] ->
    let ys := map (fun c : jsstring * Q * Q * string => snd (fst c))
                  (placeLines startY s h baseline ls idx) in
    hd 0 ys = startY + idxQ idx * s * h /\
    last ys 0 = startY + idxQ (idx + List.length ls - 1) * s * h.
Proof.
  induction ls as [|ln rest IH]; intros idx Hne; [congruence|].
  cbv zeta. cbn [placeLines map hd fst snd].
  split; [reflexivity|].
  destruct rest as [|ln' rest'].
  - cbn [placeLines map last List.length].
    replace (idx + 1 - 1)%nat with idx by lia. reflexivity.
  - destruct (IH (S idx)) as [_ Hlast]; [discriminate|].
    cbv zeta in Hlast.
    change (last (?y :: map ?f (placeLines ?a ?b ?c ?d (ln' :: rest') ?i)) 0)
      with (last (map f (placeLines a b c d (ln' :: rest') i)) 0).
    rewrite Hlast. cbn [List.length].
    replace (S idx + S (List.length rest') - 1)%nat
      with (idx + S (S (List.length rest')) - 1)%nat by lia.
    reflexivity.
Qed.

(** C3, amended.  For a render of a non-empty text giving [n] lines at the
    size [s] and the ratio [h], the block height is [n * s * h]; the lines
    are stroked, then filled, on the middle baseline at [W / 2], the first
    one at [H - paddingY - totalTextHeight / 2] and the next ones [s * h]
    apart.  The vertical centre of the block is therefore at
    [H - paddingY - s * h / 2]. *)
Theorem draw_text_block_placement
    (loadEvent : string -> LoadEvent) (measureWidth : Font -> jsstring -> Q)
    (st : AppState) :
  truthy (trim (text st)) = true ->
  exists layers fit cv,
    drawLayers loadEvent st = Resolved layers /\
    fitText measureWidth (fontStyle st) (trim (text st)) layers = Some fit /\
    draw loadEvent measureWidth true st = Resolved (Some cv) /\
    let n := idxQ (List.length (lines fit)) in
    let s := drawFontSize fit in
    let h := lineHeight (fontStyle st) in
    let totalTextHeight := n * s * h in
    let startY := H - paddingY (fontStyle st) - totalTextHeight / 2 in
    strokeCalls (log cv) = placeLines startY s h "middle" (lines fit) 0 /\
    fillCalls (log cv) = placeLines startY s h "middle" (lines fit) 0 /\
    (lines fit <> [] ->
     blockCentre (strokeCalls (log cv))
     == H - paddingY (fontStyle st) - s * h / 2).
Proof.
  intro Htext.
  destruct (draw_with_text loadEvent measureWidth st Htext)
    as [layers [fit [cv [Hl [Hf [Hd [_ [_ Hrest]]]]]]]].
  cbv zeta in Hrest. destruct Hrest as [_ [_ [Hs [Hfl _]]]].
  exists layers, fit, cv.
  split; [exact Hl|]. split; [exact Hf|]. split; [exact Hd|].
  cbv zeta. split; [exact Hs|]. split; [exact Hfl|].
  intro Hne. rewrite Hs. unfold blockCentre.
  match goal with
  | |- context [placeLines ?a ?b ?c ?d ?e ?f] =>
      destruct (placeLines_ends a b c d e f Hne) as [Hhd Hlast]
  end.
  cbv zeta in Hhd, Hlast. rewrite Hhd, Hlast.
  assert (Hn : idxQ (0 + List.length (lines fit) - 1)
               == idxQ (List.length (lines fit)) - 1).
  { unfold idxQ. destruct (lines fit) as [|l ls]; [congruence|].
    cbn [List.length]. replace (0 + S (List.length ls) - 1)%nat
      with (List.length ls) by lia.
    rewrite Nat2Z.inj_succ, <- Z.add_1_r, inject_Z_plus.
    change (inject_Z 1) with 1. ring. }
  rewrite Hn. change (idxQ 0) with 0. field.
Qed.

Lemma draw_text_block_placement_witness :
  exists layers fit cv,
    drawLayers noImage twoLineState = Resolved layers /\
    fitText halfEm (fontStyle twoLineState) (trim (text twoLineState)) layers
      = Some fit /\
    draw noImage halfEm true twoLineState = Resolved (Some cv) /\
    let n := idxQ (List.length (lines fit)) in
    let s := drawFontSize fit in
    let h := lineHeight (fontStyle twoLineState) in
    let totalTextHeight := n * s * h in
    let startY := H - paddingY (fontStyle twoLineState) - totalTextHeight / 2 in
    strokeCalls (log cv) = placeLines startY s h "middle" (lines fit) 0 /\
    fillCalls (log cv) = placeLines startY s h "middle" (lines fit) 0 /\
    (lines fit <> [] ->
     blockCentre (strokeCalls (log cv))
     == H - paddingY (fontStyle twoLineState) - s * h / 2).
Proof.
  apply (draw_text_block_placement noImage halfEm twoLineState).
  reflexivity.
Defined.

(** C3 as stated fails on two lines of 40 px with ratio 1.25 and bottom
    padding 90: the lines are drawn at 1060 and 1110, so the block is centred
    at 1085, while [canvasHeight - bottomPadding - totalHeight / 2] is 1060,
    the middle of the first line. *)
Lemma draw_block_centre_differs_from_startY :
  exists cv,
    draw noImage halfEm true twoLineState = Resolved (Some cv) /\
    map (fun c : jsstring * Q * Q * string => Qred (snd (fst c)))
        (strokeCalls (log cv)) = [1060; 1110] /\
    blockCentre (strokeCalls (log cv)) == 1085 /\
    H - 90 - (2 * 40 * 1.25) / 2 == 1060 /\
    ~ blockCentre (strokeCalls (log cv)) == H - 90 - (2 * 40 * 1.25) / 2.
Proof.
  eexists. split; [vm_compute; reflexivity|].
  split; [vm_compute; reflexivity|].
  split; [vm_compute; reflexivity|].
  split; [vm_compute; reflexivity|].
  vm_compute. discriminate.
Qed.

(** C1, at a failing input.  From the initial size 34, with a first word
    that is 1020 px wide against a budget of 800 px, the fitting loop runs
    its body once, wraps the text at 34 px, then leaves [drawFontSize] at 32:
    both lines are stroked and filled at 32 px, below the floor of 34. *)
Theorem draw_falls_below_floor_when_nothing_fits :
  let st := plainState (styleOfSize 34 1.25) longWord in
  exists layers fit cv,
    drawLayers noImage st = Resolved layers /\
    fitText halfEm (fontStyle st) (trim (text st)) layers = Some fit /\
    iterations fit = 1%nat /\
    drawFontSize fit = 32 /\
    map (@List.length N) (lines fit) = [60; 1]%nat /\
    draw noImage halfEm true st = Resolved (Some cv) /\
    textSizes (log cv) = [32; 32; 32; 32].
Proof.
  cbv zeta. eexists. eexists. eexists.
  split; [vm_compute; reflexivity|].
  split; [vm_compute; reflexivity|].
  repeat split; vm_compute; reflexivity.
Qed.

(** C8.  For a loaded background image of positive width and height, the
    first call of [draw] is [drawImage] with a source rectangle that lies
    within the image, is centred along the axis with excess
    ([sx = floor((width - sw) / 2)] or [sy = floor((height - sh) / 2)]) and
    has the aspect 960:1200 up to the rounding of [Math.floor]. *)
Theorem draw_cover_crop
    (loadEvent : string -> LoadEvent) (measureWidth : Font -> jsstring -> Q)
    (st : AppState) (img : Image) :
  truthyStr (imageUrl st) = true ->
  loadEvent (imageUrl st) = onload img ->
  (0 < width img)%Z -> (0 < height img)%Z ->
  exists cv sx sy sw sh rest,
    draw loadEvent measureWidth true st = Resolved (Some cv) /\
    log cv = DrawImage defaultCtx img sx sy sw sh 0 0 W H :: rest /\
    coverCropSpec img (sx, sy, sw, sh).
Proof.
  intros Hurl Hload Hw Hh.
  pose proof (coverCrop_spec img Hw Hh) as Hspec.
  assert (Hops : exists rest,
            layerOps loadEvent st
            = (let '(sx, sy, sw, sh) := coverCrop img in
               DrawImage defaultCtx img sx sy sw sh 0 0 W H) :: rest).
  { unfold layerOps, loaded. rewrite Hurl, Hload. cbn [drawBackground].
    destruct (coverCrop img) as [[[sx sy] sw] sh]. eexists. reflexivity. }
  destruct Hops as [rest Hops].
  destruct (coverCrop img) as [[[sx sy] sw] sh].
  destruct (truthy (trim (text st))) eqn:Htext.
  - destruct (draw_with_text loadEvent measureWidth st Htext)
      as [layers [fit [cv [_ [_ [Hd [_ [_ Hrest]]]]]]]].
    cbv zeta in Hrest. destruct Hrest as [Hlog _].
    exists cv, sx, sy, sw, sh. eexists.
    split; [exact Hd|]. split; [|exact Hspec].
    rewrite Hlog, Hops. reflexivity.
  - destruct (drawLayers_resolves loadEvent st) as [layers [Hl [Hlog _]]].
    exists layers, sx, sy, sw, sh, rest.
    split; [|split; [rewrite Hlog; exact Hops | exact Hspec]].
    unfold draw. cbn [negb]. rewrite Hl. cbn [andThen].
    rewrite Htext. reflexivity.
Qed.

Lemma draw_cover_crop_witness :
  exists cv sx sy sw sh rest,
    draw (fun _ => onload landscapePhoto) halfEm true photoState
      = Resolved (Some cv) /\
    log cv = DrawImage defaultCtx landscapePhoto sx sy sw sh 0 0 W H :: rest /\
    coverCropSpec landscapePhoto (sx, sy, sw, sh).
Proof.
  apply (draw_cover_crop (fun _ => onload landscapePhoto) halfEm photoState
           landscapePhoto).
  - reflexivity.
  - reflexivity.
  - reflexivity.
  - reflexivity.
Defined.

(** C9.  When there is no image URL or the image fails to decode,
    [loadImageSafe] resolves to the absent image, the render pass resolves,
    and its first call fills the canvas with the vertical gradient from
    #0c1224 at the top to #05070f at the bottom; the bottom plate comes
    next. *)
Theorem draw_fallback_background
    (loadEvent : string -> LoadEvent) (measureWidth : Font -> jsstring -> Q)
    (st : AppState) :
  truthyStr (imageUrl st) = false \/ loadEvent (imageUrl st) = onerror ->
  (loadEvent (imageUrl st) = onerror ->
   loadImageSafe loadEvent (imageUrl st) = Resolved None) /\
  exists cv c c' rest,
    draw loadEvent measureWidth true st = Resolved (Some cv) /\
    log cv = FillRect c 0 0 W H :: FillRect c' 0 (H - 320) W 320 :: rest /\
    c_fillStyle c
    = LinearGradient 0 0 0 H [(0, "#0c1224"%string); (1, "#05070f"%string)].
Proof.
  intro Habsent. split.
  { intro Herr. unfold loadImageSafe. rewrite Herr. reflexivity. }
  assert (Hnone : loaded loadEvent (imageUrl st) = None).
  { unfold loaded. destruct Habsent as [-> | ->]; [reflexivity|].
    destruct (truthyStr (imageUrl st)); reflexivity. }
  assert (Hops : exists c c' rest,
            layerOps loadEvent st
            = FillRect c 0 0 W H :: FillRect c' 0 (H - 320) W 320 :: rest /\
            c_fillStyle c
            = LinearGradient 0 0 0 H
                [(0, "#0c1224"%string); (1, "#05070f"%string)]).
  { unfold layerOps. rewrite Hnone.
    eexists. eexists. eexists. split; reflexivity. }
  destruct Hops as [c [c' [rest [Hops Hgrad]]]].
  destruct (truthy (trim (text st))) eqn:Htext.
  - destruct (draw_with_text loadEvent measureWidth st Htext)
      as [layers [fit [cv [_ [_ [Hd [_ [_ Hrest]]]]]]]].
    cbv zeta in Hrest. destruct Hrest as [Hlog _].
    exists cv, c, c'. eexists.
    split; [exact Hd|]. split; [|exact Hgrad].
    rewrite Hlog, Hops. reflexivity.
  - destruct (drawLayers_resolves loadEvent st) as [layers [Hl [Hlog _]]].
    exists layers, c, c', rest.
    split; [|split; [rewrite Hlog; exact Hops | exact Hgrad]].
    unfold draw. cbn [negb]. rewrite Hl. cbn [andThen].
    rewrite Htext. reflexivity.
Qed.

Lemma draw_fallback_background_witness :
  (noImage (imageUrl photoState) = onerror ->
   loadImageSafe noImage (imageUrl photoState) = Resolved None) /\
  exists cv c c' rest,
    draw noImage halfEm true photoState = Resolved (Some cv) /\
    log cv = FillRect c 0 0 W H :: FillRect c' 0 (H - 320) W 320 :: rest /\
    c_fillStyle c
    = LinearGradient 0 0 0 H [(0, "#0c1224"%string); (1, "#05070f"%string)].
Proof.
  apply (draw_fallback_background noImage halfEm photoState).
  right. reflexivity.
Defined.

(** C10.  With a configured size strictly below 34 and a non-empty trimmed
    text, the body of the fitting loop never runs, the line list stays
    empty, and the pass ends with no [strokeText] and no [fillText]: the
    canvas holds exactly the background, plate and logo layers. *)
Theorem draw_below_34_draws_no_text
    (loadEvent : string -> LoadEvent) (measureWidth : Font -> jsstring -> Q)
    (st : AppState) :
  size (fontStyle st) < 34 ->
  truthy (trim (text st)) = true ->
  exists layers fit cv,
    drawLayers loadEvent st = Resolved layers /\
    fitText measureWidth (fontStyle st) (trim (text st)) layers = Some fit /\
    iterations fit = 0%nat /\
    lines fit = [] /\
    draw loadEvent measureWidth true st = Resolved (Some cv) /\
    filter isTextOp (log cv) = [] /\
    log cv = log layers /\
    log cv = layerOps loadEvent st.
Proof.
  intros Hsize Htext.
  destruct (draw_with_text loadEvent measureWidth st Htext)
    as [layers [fit [cv [Hl [Hf [Hd [_ [Hlow Hrest]]]]]]]].
  destruct (Hlow Hsize) as [Hit Hlines].
  cbv zeta in Hrest. destruct Hrest as [Hlog [_ [_ [_ Hsizes]]]].
  destruct (drawLayers_resolves loadEvent st) as [layers' [Hl' [Hlog' _]]].
  assert (layers' = layers) by congruence. subst layers'.
  assert (Hnone : filter isTextOp (log cv) = []).
  { rewrite Hlines in Hsizes. cbn in Hsizes.
    clear - Hsizes. induction (log cv) as [|op ops IH]; [reflexivity|].
    destruct op; cbn in *; try discriminate; apply IH; exact Hsizes. }
  exists layers, fit, cv.
  repeat split; try assumption.
  - rewrite Hlog' , Hlog at 1. rewrite Hnone, app_nil_r. reflexivity.
  - rewrite Hlog at 1. rewrite Hnone, app_nil_r. reflexivity.
Qed.

Lemma draw_below_34_draws_no_text_witness :
  let st := plainState (styleOfSize 30 1.22) DEFAULT_TEXT in
  exists layers fit cv,
    drawLayers noImage st = Resolved layers /\
    fitText halfEm (fontStyle st) (trim (text st)) layers = Some fit /\
    iterations fit = 0%nat /\
    lines fit = [] /\
    draw noImage halfEm true st = Resolved (Some cv) /\
    filter isTextOp (log cv) = [] /\
    log cv = log layers /\
    log cv = layerOps noImage st.
Proof.
  apply (draw_below_34_draws_no_text noImage halfEm
           (plainState (styleOfSize 30 1.22) DEFAULT_TEXT)).
  - reflexivity.
  - reflexivity.
Defined.

(** * Further properties *)

(** ** Colour helpers *)

Lemma clamp_range (v : Q) : 0 <= clamp v <= 255.
Proof.
  unfold clamp, clamp3. split.
  - apply Q.min_glb; [lra | apply Q.le_max_l].
  - apply Q.le_min_l.
Qed.

Lemma clamp_id (v : Q) : 0 <= v <= 255 -> clamp v == v.
Proof.
  intros [H0 H1]. unfold clamp, clamp3.
  rewrite (Q.max_r 0 v H0). apply Q.min_r. exact H1.
Qed.

Lemma clamp_mono (u v : Q) : u <= v -> clamp u <= clamp v.
Proof.
  intro H. unfold clamp, clamp3.
  apply Q.min_le_compat_l, Q.max_le_compat_l, H.
Qed.

(** X1.  Whatever the colour and the shift, every channel of [adjustColor]
    lies in [0, 255]. *)
Theorem adjustColor_in_range (color : RGB) (delta : Q) :
  let c := adjustColor color delta in
  0 <= r c <= 255 /\ 0 <= g c <= 255 /\ 0 <= b c <= 255.
Proof.
  cbv zeta. unfold adjustColor. cbn [r g b].
  repeat split; apply clamp_range.
Qed.

(** X2.  On a colour with channels in [0, 255], a shift that is not negative
    lowers no channel and a shift that is not positive raises none. *)
Theorem adjustColor_direction (color : RGB) (delta : Q) :
  byteRGB color ->
  let c := adjustColor color delta in
  (0 <= delta -> r color <= r c /\ g color <= g c /\ b color <= b c) /\
  (delta <= 0 -> r c <= r color /\ g c <= g color /\ b c <= b color).
Proof.
  intros [Hr [Hg Hb]]. cbv zeta. unfold adjustColor. cbn [r g b].
  split; intro Hd; repeat split.
  - rewrite <- (clamp_id (r color) Hr) at 1. apply clamp_mono. lra.
  - rewrite <- (clamp_id (g color) Hg) at 1. apply clamp_mono. lra.
  - rewrite <- (clamp_id (b color) Hb) at 1. apply clamp_mono. lra.
  - rewrite <- (clamp_id (r color) Hr) at 2. apply clamp_mono. lra.
  - rewrite <- (clamp_id (g color) Hg) at 2. apply clamp_mono. lra.
  - rewrite <- (clamp_id (b color) Hb) at 2. apply clamp_mono. lra.
Qed.

Lemma adjustColor_direction_witness :
  let color := mkRGB 200 100 10 in
  let c := adjustColor color 65 in
  (0 <= 65 -> r color <= r c /\ g color <= g c /\ b color <= b c) /\
  (65 <= 0 -> r c <= r color /\ g c <= g color /\ b c <= b color).
Proof.
  apply (adjustColor_direction (mkRGB 200 100 10) 65).
  vm_compute. repeat split; discriminate.
Defined.

Lemma channelByte_range (n : Q) : (0 <= channelByte n <= 255)%Z.
Proof.
  unfold channelByte. destruct (clamp_range (Math_round n)) as [H0 H1].
  split.
  - change 0%Z with (Qfloor 0). apply Qfloor_resp_le, H0.
  - change 255%Z with (Qfloor 255). apply Qfloor_resp_le, H1.
Qed.

Lemma hexValue_hexDigit (d : Z) :
  (0 <= d < 16)%Z -> hexValue (hexDigit d) = Some d.
Proof.
  intro Hd.
  assert (H : (d = 0 \/ d = 1 \/ d = 2 \/ d = 3 \/ d = 4 \/ d = 5 \/ d = 6 \/
              d = 7 \/ d = 8 \/ d = 9 \/ d = 10 \/ d = 11 \/ d = 12 \/
              d = 13 \/ d = 14 \/ d = 15)%Z) by lia.
  repeat (destruct H as [H | H]; [subst d; reflexivity | idtac]).
  subst d. reflexivity.
Qed.

Lemma toHex_digits (n : Q) :
  toHex n = String (hexDigit (channelByte n / 16))
              (String (hexDigit (channelByte n mod 16)) EmptyString).
Proof.
  unfold toHex. fold (channelByte n).
  pose proof (channelByte_range n) as Hz.
  unfold toString16.
  destruct (channelByte n <? 16)%Z eqn:E.
  - apply Z.ltb_lt in E. cbn [padStart2].
    rewrite Z.div_small, Z.mod_small by lia. reflexivity.
  - reflexivity.
Qed.

Lemma hexPair_digits (z : Z) :
  (0 <= z <= 255)%Z ->
  hexPair (hexDigit (z / 16)) (hexDigit (z mod 16)) = Some z.
Proof.
  intro Hz. unfold hexPair.
  rewrite !hexValue_hexDigit.
  - f_equal. pose proof (Z.div_mod z 16). lia.
  - apply Z.mod_pos_bound. lia.
  - split; [apply Z.div_pos; lia | apply Z.div_lt_upper_bound; lia].
Qed.

Lemma parseHexColor_rgbToHex (c : RGB) :
  parseHexColor (rgbToHex c)
  = Some (channelByte (r c), channelByte (g c), channelByte (b c)).
Proof.
  unfold rgbToHex. rewrite !toHex_digits.
  cbn [String.append parseHexColor].
  rewrite !hexPair_digits by apply channelByte_range. reflexivity.
Qed.

(** X3.  [rgbToHex] always writes [#] and six lower-case hexadecimal
    digits, which read back as the channels rounded to the nearest integer
    and clamped to [0, 255]. *)
Theorem rgbToHex_roundtrip (c : RGB) :
  parseHexColor (rgbToHex c)
  = Some (channelByte (r c), channelByte (g c), channelByte (b c)) /\
  (0 <= channelByte (r c) <= 255)%Z /\
  (0 <= channelByte (g c) <= 255)%Z /\
  (0 <= channelByte (b c) <= 255)%Z.
Proof.
  split; [apply parseHexColor_rgbToHex|].
  repeat split; apply channelByte_range.
Qed.

Lemma channelByte_byte (z : Z) :
  (0 <= z <= 255)%Z -> channelByte (inject_Z z) = z.
Proof.
  intros [H0 H1]. unfold channelByte, Math_round.
  assert (Hf : Qfloor (inject_Z z + (1 # 2)) = z).
  { apply Z.le_antisymm.
    - assert (H : (Qfloor (inject_Z z + (1 # 2)) < z + 1)%Z).
      { rewrite Zlt_Qlt. eapply Qle_lt_trans; [apply Qfloor_le|].
        rewrite inject_Z_plus. change (inject_Z 1) with 1. lra. }
      lia.
    - rewrite <- (Qfloor_Z z) at 1. apply Qfloor_resp_le. lra. }
  rewrite Hf.
  assert (Hc : clamp (inject_Z z) == inject_Z z).
  { apply clamp_id. split.
    - change 0 with (inject_Z 0). rewrite <- Zle_Qle. exact H0.
    - change 255 with (inject_Z 255). rewrite <- Zle_Qle. exact H1. }
  rewrite Hc. apply Qfloor_Z.
Qed.

(** X4.  A colour whose channels are integers of [0, 255] is read back
    unchanged from its [rgbToHex]. *)
Theorem rgbToHex_roundtrip_bytes (zr zg zb : Z) :
  (0 <= zr <= 255)%Z -> (0 <= zg <= 255)%Z -> (0 <= zb <= 255)%Z ->
  parseHexColor (rgbToHex (mkRGB (inject_Z zr) (inject_Z zg) (inject_Z zb)))
  = Some (zr, zg, zb).
Proof.
  intros Hr Hg Hb.
  rewrite parseHexColor_rgbToHex. cbn [r g b].
  rewrite !channelByte_byte by assumption. reflexivity.
Qed.

Lemma rgbToHex_roundtrip_bytes_witness :
  parseHexColor (rgbToHex (mkRGB (inject_Z 12) (inject_Z 18) (inject_Z 255)))
  = Some (12, 18, 255)%Z.
Proof.
  apply (rgbToHex_roundtrip_bytes 12 18 255); lia.
Defined.

Lemma pixelsOf_opaque (data : list Z) : pixelsOf (opaque data) = pixelsOf data.
Proof.
  induction data as [| | | |dr dg db da rest IH] using list_ind4;
    try reflexivity.
  cbn [opaque pixelsOf]. rewrite IH. reflexivity.
Qed.

Lemma length_opaque (data : list Z) :
  List.length (opaque data) = List.length data.
Proof.
  induction data as [| | | |dr dg db da rest IH] using list_ind4;
    try reflexivity.
  cbn [opaque List.length]. rewrite IH. reflexivity.
Qed.

(** X5.  The analysis does not look at the alpha bytes: an RGBA array and
    the same array made opaque give the same tone (and fail alike). *)
Theorem analyzeData_ignores_alpha (data : list Z) :
  analyzeData (opaque data) = analyzeData data.
Proof.
  unfold analyzeData.
  rewrite !scanPixels_pixelsOf, pixelsOf_opaque, length_opaque. reflexivity.
Qed.

(** ** The derived style *)

Lemma Math_round_bounds (x : Q) (lo hi : Z) :
  inject_Z lo <= x -> x < inject_Z hi ->
  inject_Z lo <= Math_round x <= inject_Z hi.
Proof.
  intros Hlo Hhi. unfold Math_round. split.
  - rewrite <- Zle_Qle. rewrite <- (Qfloor_Z lo). apply Qfloor_resp_le. lra.
  - rewrite <- Zle_Qle.
    assert (H : (Qfloor (x + (1 # 2)) < hi + 1)%Z).
    { rewrite Zlt_Qlt. eapply Qle_lt_trans; [apply Qfloor_le|].
      rewrite inject_Z_plus. change (inject_Z 1) with 1. lra. }
    lia.
Qed.

(** The line height [1.18 + Math.random() * 0.07] reaches the end of its
    range in doubles: at the random value [1 - 2^-52] the sum rounds to
    1.25. *)
Lemma lineHeight_double_reaches_1_25 :
  Double.add (Double.ofQ 1.18)
    (Double.mul (Double.ofQ (1 - (1 # 4503599627370496))) (Double.ofQ 0.07))
  = Double.ofQ 1.25.
Proof. vm_compute. reflexivity. Qed.

(** X6.  With random values in [0, 1), a derived style has an integer size
    from 50 to 60, a bottom padding from 78 to 96, a line height from 1.18
    to 1.25, ends included, and a stroke width of 3.6 or 3.2; it has no
    paddingX, fontWeight, shadowBlur or shadowOffsetY. *)
Theorem deriveFontStyleFromImage_ranges
    (sampleData : Image -> option (list Z)) (img : Image) (u : Draws)
    (derived : PartialFontStyle) :
  deriveFontStyleFromImage sampleData img u = Some derived ->
  0 <= u_size u < 1 -> 0 <= u_padding u < 1 -> 0 <= u_lineHeight u < 1 ->
  (exists px, p_size derived = Some (inject_Z px) /\ (50 <= px <= 60)%Z) /\
  (exists pad, p_paddingY derived = Some pad /\ 78 <= pad <= 96) /\
  (exists lh, p_lineHeight derived = Some lh /\ 1.18 <= lh <= 1.25) /\
  (p_strokeWidth derived = Some 3.6 \/ p_strokeWidth derived = Some 3.2) /\
  p_paddingX derived = None /\ p_fontWeight derived = None /\
  p_shadowBlur derived = None /\ p_shadowOffsetY derived = None.
Proof.
  intros Hd Hs Hp Hl. unfold deriveFontStyleFromImage in Hd.
  destruct (analyzeImageColors sampleData img) as [tone|]; [|discriminate].
  injection Hd as <-. unfold styleOfTone. cbn.
  split; [|split; [|split; [|split]]].
  - eexists. split; [reflexivity|].
    destruct (Math_round_bounds (50 + u_size u * 10) 50 60) as [H1 H2].
    + change (inject_Z 50) with 50. lra.
    + change (inject_Z 60) with 60. lra.
    + unfold Math_round in H1, H2. rewrite <- Zle_Qle in H1, H2. lia.
  - eexists. split; [reflexivity|].
    destruct (Math_round_bounds (u_padding u * 18) 0 18) as [H1 H2].
    + change (inject_Z 0) with 0. lra.
    + change (inject_Z 18) with 18. lra.
    + change (inject_Z 0) with 0 in H1. change (inject_Z 18) with 18 in H2.
      lra.
  - eexists. split; [reflexivity|]. lra.
  - destruct (isDark tone); auto.
  - repeat split.
Qed.

Lemma deriveFontStyleFromImage_ranges_witness :
  (exists px, p_size (styleOfTone (mkTone (mkRGB 10 20 30) (mkRGB 10 20 30) true)
                        someDraws) = Some (inject_Z px) /\ (50 <= px <= 60)%Z) /\
  (exists pad, p_paddingY (styleOfTone (mkTone (mkRGB 10 20 30) (mkRGB 10 20 30) true)
                        someDraws) = Some pad /\ 78 <= pad <= 96) /\
  (exists lh, p_lineHeight (styleOfTone (mkTone (mkRGB 10 20 30) (mkRGB 10 20 30) true)
                        someDraws) = Some lh /\ 1.18 <= lh <= 1.25) /\
  (p_strokeWidth (styleOfTone (mkTone (mkRGB 10 20 30) (mkRGB 10 20 30) true)
                        someDraws) = Some 3.6 \/
   p_strokeWidth (styleOfTone (mkTone (mkRGB 10 20 30) (mkRGB 10 20 30) true)
                        someDraws) = Some 3.2) /\
  p_paddingX (styleOfTone (mkTone (mkRGB 10 20 30) (mkRGB 10 20 30) true)
                        someDraws) = None /\
  p_fontWeight (styleOfTone (mkTone (mkRGB 10 20 30) (mkRGB 10 20 30) true)
                        someDraws) = None /\
  p_shadowBlur (styleOfTone (mkTone (mkRGB 10 20 30) (mkRGB 10 20 30) true)
                        someDraws) = None /\
  p_shadowOffsetY (styleOfTone (mkTone (mkRGB 10 20 30) (mkRGB 10 20 30) true)
                        someDraws) = None.
Proof.
  apply (deriveFontStyleFromImage_ranges
           (fun _ => Some [10; 20; 30; 255]%Z) darkPhoto someDraws).
  - vm_compute. reflexivity.
  - vm_compute. split; [discriminate | reflexivity].
  - vm_compute. split; [discriminate | reflexivity].
  - vm_compute. split; [discriminate | reflexivity].
Defined.

(** X7.  For a random value in [0, 1), [pickRandomFontStack] is one of the
    eight families of [FONT_CHOICES], quoted, in front of the fallback
    stack. *)
Theorem pickRandomFontStack_in_catalog (u : Q) :
  0 <= u < 1 ->
  exists name,
    In name FONT_CHOICES /\
    pickRandomFontStack u = (quoted name ++ ", " ++ THAI_FONT_FALLBACK)%string.
Proof.
  intros [H0 H1]. unfold pickRandomFontStack.
  change (inject_Z (Z.of_nat (List.length FONT_CHOICES))) with 8.
  assert (Hlo : (0 <= Qfloor (u * 8))%Z).
  { change 0%Z with (Qfloor 0). apply Qfloor_resp_le. lra. }
  assert (Hhi : (Qfloor (u * 8) < 8)%Z).
  { rewrite Zlt_Qlt. eapply Qle_lt_trans; [apply Qfloor_le|].
    change (inject_Z 8) with 8. lra. }
  assert (H : (Qfloor (u * 8) = 0 \/ Qfloor (u * 8) = 1 \/
               Qfloor (u * 8) = 2 \/ Qfloor (u * 8) = 3 \/
               Qfloor (u * 8) = 4 \/ Qfloor (u * 8) = 5 \/
               Qfloor (u * 8) = 6 \/ Qfloor (u * 8) = 7)%Z) by lia.
  repeat (destruct H as [H | H];
          [rewrite H; eexists; split; [|reflexivity]; cbn; tauto | idtac]).
  rewrite H. eexists. split; [|reflexivity]. cbn. tauto.
Qed.

Lemma pickRandomFontStack_in_catalog_witness :
  exists name,
    In name FONT_CHOICES /\
    pickRandomFontStack (1 # 4)
    = (quoted name ++ ", " ++ THAI_FONT_FALLBACK)%string.
Proof.
  apply (pickRandomFontStack_in_catalog (1 # 4)).
  vm_compute. split; [discriminate | reflexivity].
Defined.

(** ** More on line wrapping *)

Lemma wrapTokens_nonempty_lines
    (measureWidth : Font -> jsstring -> Q) (ctx : Ctx) (maxWidth : Q)
    (hasSpace : bool) :
  forall tokens line,
    emptyLines (wrapTokens measureWidth ctx maxWidth hasSpace tokens line)
    = 0%nat.
Proof.
  unfold emptyLines.
  induction tokens as [|piece rest IH]; intro line.
  - cbn [wrapTokens]. destruct (truthy line) eqn:E; [|reflexivity].
    cbn [filter]. rewrite E. reflexivity.
  - cbn [wrapTokens].
    match goal with |- context [if ?c then _ else _] => destruct c eqn:E end.
    + apply andb_true_iff in E. destruct E as [_ E].
      cbn [filter]. rewrite E. cbn [negb]. apply IH.
    + apply IH.
Qed.

Lemma emptyLines_app (a b : list jsstring) :
  emptyLines (a ++ b) = (emptyLines a + emptyLines b)%nat.
Proof. unfold emptyLines. rewrite filter_app, length_app. reflexivity. Qed.

Lemma splitOn_length (sep : N) (s : jsstring) :
  List.length (splitOn sep s) = S (List.length (filter (N.eqb sep) s)).
Proof.
  induction s as [|c s IH]; [reflexivity|].
  cbn [splitOn filter]. rewrite (N.eqb_sym sep c).
  destruct (N.eqb c sep).
  - cbn [List.length]. rewrite IH. reflexivity.
  - destruct (splitOn sep s) as [|h t]; [discriminate|].
    cbn [List.length] in *. exact IH.
Qed.

Lemma removeCR_lineFeeds (s : jsstring) :
  lineFeeds (removeCR s) = lineFeeds s.
Proof.
  unfold lineFeeds, removeCR.
  induction s as [|c s IH]; [reflexivity|].
  cbn [filter]. destruct (N.eqb c CR) eqn:E.
  - apply N.eqb_eq in E. subst c. cbn. exact IH.
  - cbn [negb filter]. destruct (N.eqb LF c); cbn [List.length]; rewrite IH;
      reflexivity.
Qed.

Lemma wrapParagraphs_emptyLines
    (measureWidth : Font -> jsstring -> Q) (ctx : Ctx) (maxWidth : Q)
    (paragraphs : list jsstring) :
  emptyLines (wrapParagraphs measureWidth ctx maxWidth paragraphs)
  = pred (List.length paragraphs).
Proof.
  induction paragraphs as [|p rest IH]; [reflexivity|].
  cbn [wrapParagraphs]. rewrite !emptyLines_app, IH.
  unfold wrapParagraph. rewrite wrapTokens_nonempty_lines.
  destruct rest; reflexivity.
Qed.

(** X8.  [wrapText] returns exactly one empty line per line feed of the
    text: lines of text are never empty, and every paragraph break is kept,
    also around empty paragraphs. *)
Theorem wrapText_separator_count
    (measureWidth : Font -> jsstring -> Q) (ctx : Ctx) (text : jsstring)
    (maxWidth : Q) :
  emptyLines (wrapText measureWidth ctx text maxWidth) = lineFeeds text.
Proof.
  unfold wrapText. rewrite wrapParagraphs_emptyLines, splitOn_length.
  cbn [pred]. apply removeCR_lineFeeds.
Qed.

Lemma wrapTokens_first_line
    (measureWidth : Font -> jsstring -> Q) (ctx : Ctx) (maxWidth : Q)
    (hasSpace : bool) :
  forall tokens line,
    truthy line = true ->
    wrapTokens measureWidth ctx maxWidth hasSpace tokens line <> [].
Proof.
  induction tokens as [|piece rest IH]; intros line Hline.
  - cbn. rewrite Hline. discriminate.
  - cbn [wrapTokens]. rewrite Hline, andb_true_r.
    match goal with |- context [Qltb maxWidth ?m] =>
      destruct (Qltb maxWidth m) end; [discriminate|].
    apply IH. destruct line; [discriminate|]. destruct hasSpace; reflexivity.
Qed.

Lemma joinWith_cons (sep : N) (x : jsstring) (rest : list jsstring) :
  rest <> [] -> joinWith sep (x :: rest) = x ++ sep :: joinWith sep rest.
Proof. destruct rest; [congruence | reflexivity]. Qed.

Lemma wrapTokens_word_join
    (measureWidth : Font -> jsstring -> Q) (ctx : Ctx) (maxWidth : Q) :
  forall tokens line,
    Forall (fun t => truthy t = true) tokens ->
    joinWith SP (wrapTokens measureWidth ctx maxWidth true tokens line)
    = joinWith SP ((if truthy line then [line] else []) ++ tokens).
Proof.
  induction tokens as [|piece rest IH]; intros line Htok.
  - cbn. destruct (truthy line); reflexivity.
  - inversion Htok as [|? ? Hpiece Hrest]; subst.
    cbn [wrapTokens].
    destruct (truthy line) eqn:Hline.
    + rewrite andb_true_r.
      match goal with |- context [Qltb maxWidth ?m] =>
        destruct (Qltb maxWidth m) end.
      * rewrite joinWith_cons
          by (apply wrapTokens_first_line; exact Hpiece).
        rewrite (IH piece Hrest), Hpiece. reflexivity.
      * rewrite (IH _ Hrest).
        assert (Ht : truthy (line ++ [SP] ++ piece) = true)
          by (destruct line; [discriminate | reflexivity]).
        rewrite Ht. cbn [app].
        destruct rest as [|t rest'].
        -- cbn. reflexivity.
        -- cbn [joinWith]. rewrite <- app_assoc. reflexivity.
    + rewrite andb_false_r. rewrite (IH piece Hrest), Hpiece. reflexivity.
Qed.

(** X9.  In word mode (a paragraph with a space), the lines joined by
    single spaces are the words of the paragraph joined by single spaces:
    no word is lost, repeated or moved, and runs of spaces collapse. *)
Theorem wrapText_word_join
    (measureWidth : Font -> jsstring -> Q) (ctx : Ctx) (text : jsstring)
    (maxWidth : Q) :
  includesSpace text = true ->
  existsb (N.eqb LF) text = false ->
  joinWith SP (wrapText measureWidth ctx text maxWidth)
  = joinWith SP (filter truthy (splitOn SP (removeCR text))).
Proof.
  intros Hsp Hlf. unfold wrapText.
  rewrite (splitOn_absent LF (removeCR text) (removeCR_keeps_absent LF text Hlf)).
  cbn [wrapParagraphs truthy]. rewrite !app_nil_r.
  unfold wrapParagraph, tokensOf.
  assert (Hsp' : includesSpace (removeCR text) = true).
  { unfold includesSpace, removeCR in *.
    apply existsb_exists in Hsp. destruct Hsp as [c [Hin Hc]].
    apply existsb_exists. exists c. split; [|exact Hc].
    apply filter_In. split; [exact Hin|].
    apply N.eqb_eq in Hc. subst c. reflexivity. }
  rewrite Hsp'. rewrite wrapTokens_word_join; [reflexivity|].
  apply Forall_forall. intros t Ht. apply filter_In in Ht. apply Ht.
Qed.

Lemma wrapText_word_join_witness :
  joinWith SP (wrapText fixedPitch (ctxAt 40)
                 [97; 98; 32; 32; 99; 100; 32; 101]%N 60)
  = joinWith SP (filter truthy
                   (splitOn SP (removeCR [97; 98; 32; 32; 99; 100; 32; 101]%N))).
Proof.
  apply (wrapText_word_join fixedPitch (ctxAt 40)
           [97; 98; 32; 32; 99; 100; 32; 101]%N 60).
  - reflexivity.
  - reflexivity.
Defined.

Section NoBreak.

Variable measureWidth : Font -> jsstring -> Q.
Variable ctx : Ctx.
Variable maxWidth : Q.
Variable hasSpace : bool.
Hypothesis monotone : monotoneMeasure measureWidth.

Lemma glued_prefix (tokens : list jsstring) :
  forall line, exists t, fold_left (glue hasSpace) tokens line = line ++ t.
Proof.
  induction tokens as [|piece rest IH]; intro line.
  - exists []. cbn. rewrite app_nil_r. reflexivity.
  - cbn [fold_left]. destruct (IH (glue hasSpace line piece)) as [t Ht].
    rewrite Ht. unfold glue. destruct hasSpace; rewrite <- app_assoc;
      eexists; reflexivity.
Qed.

Lemma wrapTokens_no_break (tokens : list jsstring) :
  forall line,
    truthy line = true ->
    measureText measureWidth ctx (fold_left (glue hasSpace) tokens line) <= maxWidth ->
    wrapTokens measureWidth ctx maxWidth hasSpace tokens line
    = [fold_left (glue hasSpace) tokens line].
Proof.
  induction tokens as [|piece rest IH]; intros line Hline Hfit.
  - cbn. rewrite Hline. reflexivity.
  - cbn [wrapTokens fold_left] in *. rewrite Hline. cbv iota.
    change (if hasSpace then line ++ [SP] ++ piece else line ++ piece)
      with (glue hasSpace line piece).
    assert (Hle : measureText measureWidth ctx (glue hasSpace line piece)
                  <= maxWidth).
    { destruct (glued_prefix rest (glue hasSpace line piece)) as [t Ht].
      rewrite Ht in Hfit. unfold measureText in *.
      eapply Qle_trans; [apply monotone | exact Hfit]. }
    apply Qltb_ge in Hle. rewrite Hle. cbn [andb].
    apply IH; [|exact Hfit].
    unfold glue. destruct line; [discriminate|]. destruct hasSpace; reflexivity.
Qed.

End NoBreak.

Lemma fold_glue_join (rest : list jsstring) :
  forall piece,
    fold_left (glue true) rest piece = joinWith SP (piece :: rest).
Proof.
  induction rest as [|t rest IH]; intro piece; [reflexivity|].
  cbn [fold_left]. rewrite IH. unfold glue.
  destruct rest as [|t' rest'].
  - cbn. reflexivity.
  - cbn [joinWith]. rewrite <- app_assoc. reflexivity.
Qed.

Lemma fold_glue_concat (rest : list jsstring) :
  forall piece,
    fold_left (glue false) rest piece = List.concat (piece :: rest).
Proof.
  induction rest as [|t rest IH]; intro piece.
  - cbn. rewrite app_nil_r. reflexivity.
  - cbn [fold_left]. rewrite IH. unfold glue. cbn [List.concat].
    rewrite app_assoc. reflexivity.
Qed.

(** X10.  Under a measure that grows with the string, a one-paragraph text
    whose words joined by single spaces (or whose units, without a space)
    fit the width comes back as that one line. *)
Theorem wrapText_fitting_text_is_one_line
    (measureWidth : Font -> jsstring -> Q) (ctx : Ctx) (text : jsstring)
    (maxWidth : Q) :
  monotoneMeasure measureWidth ->
  existsb (N.eqb LF) text = false ->
  truthy (oneLine text) = true ->
  measureText measureWidth ctx (oneLine text) <= maxWidth ->
  wrapText measureWidth ctx text maxWidth = [oneLine text].
Proof.
  intros Hmono Hlf Hne Hfit. unfold wrapText.
  rewrite (splitOn_absent LF (removeCR text) (removeCR_keeps_absent LF text Hlf)).
  cbn [wrapParagraphs truthy]. rewrite !app_nil_r.
  unfold wrapParagraph, tokensOf, oneLine in *. cbv zeta in *.
  destruct (includesSpace (removeCR text)) eqn:Hsp.
  - assert (Htok : Forall (fun t => truthy t = true)
                     (filter truthy (splitOn SP (removeCR text)))).
    { apply Forall_forall. intros t Ht. apply filter_In in Ht. apply Ht. }
    destruct (filter truthy (splitOn SP (removeCR text))) as [|piece rest];
      [discriminate|].
    inversion Htok as [|? ? Hpiece _]; subst.
    cbn [wrapTokens truthy andb]. rewrite andb_false_r.
    rewrite <- fold_glue_join in *.
    apply (wrapTokens_no_break measureWidth ctx maxWidth true Hmono rest piece
             Hpiece Hfit).
  - destruct (splitUnits_tokens (removeCR text)) as [Hf Hc]. rewrite Hf.
    destruct (removeCR text) as [|c t] eqn:Ht; [discriminate|].
    cbn [splitUnits map] in *.
    change (map (fun c0 : N => [c0]) t) with (splitUnits t) in *.
    cbn [wrapTokens truthy andb]. rewrite andb_false_r.
    assert (Hcat : fold_left (glue false) (splitUnits t) [c] = c :: t).
    { rewrite fold_glue_concat. exact Hc. }
    rewrite <- Hcat in Hfit. rewrite <- Hcat.
    apply (wrapTokens_no_break measureWidth ctx maxWidth false Hmono
             (splitUnits t) [c] eq_refl).
    exact Hfit.
Qed.

Lemma wrapText_fitting_text_is_one_line_witness :
  wrapText fixedPitch (ctxAt 40) [97; 32; 32; 98; 13; 99]%N 800
  = [oneLine [97; 32; 32; 98; 13; 99]%N].
Proof.
  apply (wrapText_fitting_text_is_one_line fixedPitch (ctxAt 40)
           [97; 32; 32; 98; 13; 99]%N 800).
  - exact fixedPitch_monotone.
  - reflexivity.
  - reflexivity.
  - vm_compute. discriminate.
Defined.

(** ** More on the fitting loop *)

Lemma fitLoop_outcome
    (measureWidth : Font -> jsstring -> Q) (fs : FontStyle)
    (safeText : jsstring) (maxTextWidth : Q) :
  forall fuel size ls n cv fit,
    fitLoop measureWidth fuel fs safeText maxTextWidth size ls n cv = Some fit ->
    fitOutcome measureWidth fs safeText maxTextWidth size ls n fit.
Proof.
  induction fuel as [|fuel IH]; intros size ls n cv fit Hfit;
    cbn [fitLoop] in Hfit;
    destruct (Qle_bool 34 size) eqn:E; try discriminate.
  - injection Hfit as <-. left. cbn.
    assert (~ 34 <= size) by (rewrite <- Qle_bool_iff; congruence).
    repeat split; lra.
  - apply Qle_bool_iff in E.
    match type of Hfit with
    | (if Qle_bool ?longest _ then _ else _) = _ =>
        destruct (Qle_bool longest maxTextWidth) eqn:Hl
    end.
    + injection Hfit as <-. right. left.
      exists (cur (setFont (mkFont (fontWeight fs) size (fontFamily fs)) cv)).
      exists 0%nat. cbn [drawFontSize lines iterations].
      split; [exact E|]. split; [change (inject_Z (Z.of_nat 0)) with 0; ring|].
      split; [lia|]. split; [reflexivity|]. split; [reflexivity|].
      apply Qle_bool_iff in Hl. exact Hl.
    + assert (Hover : maxTextWidth <
                longestLine measureWidth
                  (cur (setFont (mkFont (fontWeight fs) size (fontFamily fs)) cv))
                  (wrapText measureWidth
                     (cur (setFont (mkFont (fontWeight fs) size (fontFamily fs)) cv))
                     safeText maxTextWidth)).
      { apply Qnot_le_lt. intro Hle. apply Qle_bool_iff in Hle.
        unfold longestLine in Hle. congruence. }
      specialize (IH _ _ _ _ _ Hfit).
      destruct IH as [[Hlow [Hsz [Hls Hit]]]
                     | [[c [k [H34 [Hsz [Hit [Hf [Hls Hlong]]]]]]]
                       | [c [s [k [H34 [Hlow [Hsz [Hs [Hit [Hf [Hls Hlong]]]]]]]]]]]].
      * right. right.
        exists (cur (setFont (mkFont (fontWeight fs) size (fontFamily fs)) cv)).
        exists size, 0%nat.
        split; [exact E|]. split; [exact Hlow|]. split; [exact Hsz|].
        split; [change (inject_Z (Z.of_nat 0)) with 0; ring|].
        split; [lia|]. split; [reflexivity|].
        split; [exact Hls|]. rewrite Hls. exact Hover.
      * right. left. exists c, (S k).
        split; [exact H34|]. split.
        { rewrite Hsz, Nat2Z.inj_succ, <- Z.add_1_r, inject_Z_plus.
          change (inject_Z 1) with 1. ring. }
        split; [lia|]. split; [exact Hf|]. split; [exact Hls | exact Hlong].
      * right. right. exists c, s, (S k).
        split; [exact H34|]. split; [exact Hlow|]. split; [exact Hsz|]. split.
        { rewrite Hs, Nat2Z.inj_succ, <- Z.add_1_r, inject_Z_plus.
          change (inject_Z 1) with 1. ring. }
        split; [lia|]. split; [exact Hf|]. split; [exact Hls | exact Hlong].
  - injection Hfit as <-. left. cbn.
    assert (~ 34 <= size) by (rewrite <- Qle_bool_iff; congruence).
    repeat split; lra.
Qed.

Lemma longestLine_bounds (measureWidth : Font -> jsstring -> Q) (c : Ctx)
    (ls : list jsstring) (m : Q) :
  longestLine measureWidth c ls <= m ->
  Forall (fun l => measureText measureWidth c l <= m) ls.
Proof.
  unfold longestLine.
  assert (H : forall a, fold_left (fun acc ln =>
                 Qmax acc (measureText measureWidth c ln)) ls a <= m ->
              a <= m /\ Forall (fun l => measureText measureWidth c l <= m) ls).
  { induction ls as [|l ls IH]; intros a Ha.
    - split; [exact Ha | constructor].
    - cbn [fold_left] in Ha. destruct (IH _ Ha) as [Hmax Hall].
      split.
      + eapply Qle_trans; [apply Q.le_max_l | exact Hmax].
      + constructor; [|exact Hall].
        eapply Qle_trans; [apply Q.le_max_r | exact Hmax]. }
  intro Hle. apply (H 0 Hle).
Qed.

Lemma inject_nat_nonneg (k : nat) : 0 <= inject_Z (Z.of_nat k).
Proof. change 0 with (inject_Z 0). rewrite <- Zle_Qle. lia. Qed.

(** X11.  From a size of at least 34 the fitting loop ends after at least
    one and at most [ceiling((size - 34) / 2) + 1] iterations, with a size
    between 32 and the configured size. *)
Theorem fitText_iteration_bound
    (measureWidth : Font -> jsstring -> Q) (fs : FontStyle)
    (safeText : jsstring) (cv : Canvas) :
  34 <= size fs ->
  exists fit,
    fitText measureWidth fs safeText cv = Some fit /\
    (1 <= Z.of_nat (iterations fit) <= Qceiling ((size fs - 34) / 2) + 1)%Z /\
    32 <= drawFontSize fit <= size fs.
Proof.
  intro Hsize.
  destruct (fitText_total measureWidth fs safeText cv)
    as [fit [Hfit [_ [_ [Hit _]]]]].
  exists fit. split; [exact Hfit|].
  pose proof (fitFuel_ceiling (size fs) Hsize) as Hceil.
  unfold fitText in Hfit. apply fitLoop_outcome in Hfit.
  destruct Hfit as [[Hlow _]
                   | [[c [k [H34 [Hsz [Hk _]]]]]
                     | [c [s [k [H34 [Hlow [Hsz [Hs [Hk _]]]]]]]]]].
  - lra.
  - pose proof (inject_nat_nonneg k). split; [lia|]. rewrite Hsz. lra.
  - pose proof (inject_nat_nonneg k). split; [lia|]. rewrite Hsz. lra.
Qed.

Lemma fitText_iteration_bound_witness :
  exists fit,
    fitText halfEm (styleOfSize 54 1.22) longWord freshCanvas = Some fit /\
    (1 <= Z.of_nat (iterations fit)
     <= Qceiling ((size (styleOfSize 54 1.22) - 34) / 2) + 1)%Z /\
    32 <= drawFontSize fit <= size (styleOfSize 54 1.22).
Proof.
  apply (fitText_iteration_bound halfEm (styleOfSize 54 1.22) longWord
           freshCanvas).
  vm_compute. discriminate.
Defined.

(** X12.  When the loop ends at a size of at least 34, the lines are the
    wrap of the text under that very font, and every one of them fits
    [W - 2 * paddingX]. *)
Theorem fitText_fitted_lines
    (measureWidth : Font -> jsstring -> Q) (fs : FontStyle)
    (safeText : jsstring) (cv : Canvas) (fit : Fit) :
  fitText measureWidth fs safeText cv = Some fit ->
  34 <= drawFontSize fit ->
  exists c,
    c_font c = mkFont (fontWeight fs) (drawFontSize fit) (fontFamily fs) /\
    lines fit = wrapText measureWidth c safeText (W - paddingX fs * 2) /\
    Forall (fun l => measureText measureWidth c l <= W - paddingX fs * 2)
           (lines fit).
Proof.
  intros Hfit H34. unfold fitText in Hfit. apply fitLoop_outcome in Hfit.
  destruct Hfit as [[Hlow [Hsz _]]
                   | [[c [k [_ [_ [_ [Hf [Hls Hlong]]]]]]]
                     | [c [s [k [_ [Hlow [Hsz _]]]]]]]].
  - rewrite Hsz in H34. lra.
  - exists c. split; [exact Hf|]. split; [exact Hls|].
    apply longestLine_bounds, Hlong.
  - rewrite Hsz in H34. lra.
Qed.

Lemma fitText_fitted_lines_witness :
  exists c,
    c_font c = mkFont (fontWeight (styleOfSize 54 1.22)) 54
                 (fontFamily (styleOfSize 54 1.22)) /\
    [DEFAULT_TEXT]
    = wrapText halfEm c DEFAULT_TEXT (W - paddingX (styleOfSize 54 1.22) * 2) /\
    Forall (fun l => measureText halfEm c l
                     <= W - paddingX (styleOfSize 54 1.22) * 2)
           [DEFAULT_TEXT].
Proof.
  apply (fitText_fitted_lines halfEm (styleOfSize 54 1.22) DEFAULT_TEXT
           freshCanvas
           (mkFit (setFont (mkFont 700 54 (SARABUN_STACK ""))
                     (setTextBaseline "middle"
                        (setTextAlign "center" freshCanvas)))
                  54 [DEFAULT_TEXT] 1)).
  - vm_compute. reflexivity.
  - vm_compute. discriminate.
Defined.

(** X13.  When the loop, entered at 34 or more, ends below 34, the lines
    kept are the wrap under a font two pixels larger than the final size,
    and the longest of them exceeds [W - 2 * paddingX]. *)
Theorem fitText_exhausted_lines
    (measureWidth : Font -> jsstring -> Q) (fs : FontStyle)
    (safeText : jsstring) (cv : Canvas) (fit : Fit) :
  fitText measureWidth fs safeText cv = Some fit ->
  34 <= size fs ->
  drawFontSize fit < 34 ->
  exists c s,
    34 <= s /\ drawFontSize fit = s - 2 /\
    c_font c = mkFont (fontWeight fs) s (fontFamily fs) /\
    lines fit = wrapText measureWidth c safeText (W - paddingX fs * 2) /\
    W - paddingX fs * 2 < longestLine measureWidth c (lines fit).
Proof.
  intros Hfit Hsize Hlow. unfold fitText in Hfit. apply fitLoop_outcome in Hfit.
  destruct Hfit as [[Hlt _]
                   | [[c [k [H34 _]]]
                     | [c [s [k [H34 [_ [Hsz [_ [_ [Hf [Hls Hlong]]]]]]]]]]]].
  - lra.
  - lra.
  - exists c, s. repeat split; assumption.
Qed.

Lemma fitText_exhausted_lines_witness :
  exists c s,
    34 <= s /\
    drawFontSize
      (mkFit (setFont (mkFont 700 34 (SARABUN_STACK ""))
                (setTextBaseline "middle" (setTextAlign "center" freshCanvas)))
             32 [repeat 97%N 60; [98%N]] 1) = s - 2 /\
    c_font c = mkFont (fontWeight (styleOfSize 34 1.25)) s
                 (fontFamily (styleOfSize 34 1.25)) /\
    lines
      (mkFit (setFont (mkFont 700 34 (SARABUN_STACK ""))
                (setTextBaseline "middle" (setTextAlign "center" freshCanvas)))
             32 [repeat 97%N 60; [98%N]] 1)
    = wrapText halfEm c longWord (W - paddingX (styleOfSize 34 1.25) * 2) /\
    W - paddingX (styleOfSize 34 1.25) * 2
    < longestLine halfEm c
        (lines
           (mkFit (setFont (mkFont 700 34 (SARABUN_STACK ""))
                     (setTextBaseline "middle"
                        (setTextAlign "center" freshCanvas)))
                  32 [repeat 97%N 60; [98%N]] 1)).
Proof.
  apply (fitText_exhausted_lines halfEm (styleOfSize 34 1.25) longWord
           freshCanvas).
  - vm_compute. reflexivity.
  - vm_compute. discriminate.
  - vm_compute. reflexivity.
Defined.

(** ** More on the render pass *)

Section RenderPassMore.

Variable loadEvent : string -> LoadEvent.
Variable measureWidth : Font -> jsstring -> Q.

Lemma fitLoop_compositing (fs : FontStyle) (safeText : jsstring)
    (maxTextWidth : Q) :
  forall fuel size ls n cv fit,
    fitLoop measureWidth fuel fs safeText maxTextWidth size ls n cv = Some fit ->
    compositing (cur (fitCanvas fit)) = compositing (cur cv).
Proof.
  induction fuel as [|fuel IH]; intros size ls n cv fit Hfit;
    cbn [fitLoop] in Hfit;
    destruct (Qle_bool 34 size); try discriminate.
  - injection Hfit as <-. reflexivity.
  - match type of Hfit with
    | (if ?c then _ else _) = _ => destruct c
    end.
    + injection Hfit as <-. reflexivity.
    + apply IH in Hfit. rewrite Hfit. reflexivity.
  - injection Hfit as <-. reflexivity.
Qed.

Lemma layers_compositing (st : AppState) :
  compositing
    (cur (drawBottomPlate
            (drawBackground (loaded loadEvent (imageUrl st)) freshCanvas)))
  = (1, NoFilter).
Proof.
  destruct (loaded loadEvent (imageUrl st)) as [img|]; cbn [drawBackground].
  - destruct (coverCrop img) as [[[sx sy] sw] sh]. reflexivity.
  - reflexivity.
Qed.

(** The text layer in full: the operations, and the contexts they are
    issued under. *)
Lemma drawLines_ops (p : PresetMode) (fs : FontStyle) (fit : Fit) :
  let s := drawFontSize fit in
  let h := lineHeight fs in
  let total := idxQ (List.length (lines fit)) * s * h in
  let startY := H - paddingY fs - total / 2 in
  exists c1 c2,
    log (drawLines p fs fit) =
      log (fitCanvas fit)
      ++ lineOps (fun ln idx c => StrokeText c ln (W / 2)
                                    (startY + idxQ idx * s * h))
                 c1 (lines fit) 0
      ++ lineOps (fun ln idx c => FillText c ln (W / 2)
                                  (startY + idxQ idx * s * h))
                 c2 (lines fit) 0 /\
    compositing c1 = compositing (cur (fitCanvas fit)) /\
    compositing c2 = compositing (cur (fitCanvas fit)).
Proof.
  cbv zeta. unfold drawLines. cbv zeta.
  set (s := drawFontSize fit). set (h := lineHeight fs).
  set (startY := H - paddingY fs - idxQ (List.length (lines fit)) * s * h / 2).
  pose proof (log_forEachLine
    (fun ln idx c => StrokeText c ln (W / 2) (startY + idxQ idx * s * h)))
    as HS.
  pose proof (log_forEachLine
    (fun ln idx c => FillText c ln (W / 2) (startY + idxQ idx * s * h)))
    as HF.
  pose proof (cur_forEachLine
    (fun ln idx c => StrokeText c ln (W / 2) (startY + idxQ idx * s * h)))
    as HC.
  cbv beta in HS, HF, HC.
  destruct p; cbn [PresetMode_eqb];
    match goal with
    | |- context [forEachLine _ _ _ (setFillStyle ?paint ?inner)] =>
        exists (cur inner), (cur (setFillStyle paint inner));
        change (log (setShadowOffsetY 0 (setShadowBlur 0
                 (setShadowColor "transparent"
                    (forEachLine
                       (fun ln i => emit (fun c =>
                          FillText c ln (W / 2) (startY + idxQ i * s * h)))
                       (lines fit) 0%nat (setFillStyle paint inner))))))
          with (log (forEachLine
                       (fun ln i => emit (fun c =>
                          FillText c ln (W / 2) (startY + idxQ i * s * h)))
                       (lines fit) 0%nat (setFillStyle paint inner)));
        rewrite HF;
        change (log (setFillStyle paint inner)) with (log inner);
        change (compositing (cur (setFillStyle paint inner)))
          with (compositing (cur inner))
    end.
  all: rewrite HS, HC.
  all: rewrite <- app_assoc.
  all: split; [reflexivity|].
  all: split; reflexivity.
Qed.

(** The text operations of a render pass, with their contexts. *)
Lemma draw_text_ops (st : AppState) :
  truthy (trim (text st)) = true ->
  exists layers fit cv c1 c2,
    drawLayers loadEvent st = Resolved layers /\
    fitText measureWidth (fontStyle st) (trim (text st)) layers = Some fit /\
    draw loadEvent measureWidth true st = Resolved (Some cv) /\
    let s := drawFontSize fit in
    let h := lineHeight (fontStyle st) in
    let startY :=
      H - paddingY (fontStyle st) - idxQ (List.length (lines fit)) * s * h / 2 in
    log cv =
      layerOps loadEvent st
      ++ lineOps (fun ln idx c => StrokeText c ln (W / 2)
                                    (startY + idxQ idx * s * h))
                 c1 (lines fit) 0
      ++ lineOps (fun ln idx c => FillText c ln (W / 2)
                                  (startY + idxQ idx * s * h))
                 c2 (lines fit) 0 /\
    compositing c1 = (1, NoFilter) /\
    compositing c2 = (1, NoFilter).
Proof.
  intro Htext.
  destruct (drawLayers_resolves loadEvent st) as [layers [Hlayers [Hlog Hcur]]].
  destruct (fitText_total measureWidth (fontStyle st) (trim (text st)) layers)
    as [fit [Hfit [Hflog _]]].
  destruct (drawLines_ops (preset st) (fontStyle st) fit)
    as [c1 [c2 [Hops [Hc1 Hc2]]]].
  cbv zeta in Hops.
  exists layers, fit, (drawLines (preset st) (fontStyle st) fit), c1, c2.
  split; [exact Hlayers|]. split; [exact Hfit|].
  split.
  { unfold draw. cbn [negb]. rewrite Hlayers. cbn [andThen].
    rewrite Htext. cbn [negb]. rewrite Hfit. reflexivity. }
  cbv zeta. rewrite Hops, Hflog, Hlog.
  split; [reflexivity|].
  assert (Hcomp : compositing (cur (fitCanvas fit)) = (1, NoFilter)).
  { unfold fitText in Hfit. apply fitLoop_compositing in Hfit.
    rewrite Hfit.
    change (compositing (cur (setTextBaseline "middle"
                                (setTextAlign "center" layers))))
      with (compositing (cur layers)).
    rewrite Hcur. apply layers_compositing. }
  rewrite Hc1, Hc2, Hcomp. split; reflexivity.
Qed.

End RenderPassMore.

Lemma lineOps_textCtx (mk : jsstring -> nat -> Ctx -> Op) (c : Ctx)
    (P : Ctx -> Prop) :
  (forall ln i, textCtx (mk ln i c) = Some c) -> P c ->
  forall ls idx,
    Forall (fun op => forall c', textCtx op = Some c' -> P c')
           (lineOps mk c ls idx).
Proof.
  intros Hmk HP. induction ls as [|ln rest IH]; intro idx; [constructor|].
  cbn [lineOps]. constructor; [|apply IH].
  intros c' Hc'. rewrite Hmk in Hc'. injection Hc' as <-. exact HP.
Qed.

Lemma no_text_no_textCtx (P : Ctx -> Prop) (ops : list Op) :
  filter isTextOp ops = [] ->
  Forall (fun op => forall c, textCtx op = Some c -> P c) ops.
Proof.
  induction ops as [|op ops IH]; intro Hnone; [constructor|].
  cbn [filter] in Hnone.
  destruct op; cbn in Hnone; try discriminate;
    (constructor; [intros c0 Hc0; discriminate | apply IH; exact Hnone]).
Qed.

(** X14.  A render pass with text logs the first layers, then one
    [strokeText] per line in line order, then one [fillText] per line in
    line order: every stroke comes before every fill. *)
Theorem draw_strokes_before_fills
    (loadEvent : string -> LoadEvent) (measureWidth : Font -> jsstring -> Q)
    (st : AppState) :
  truthy (trim (text st)) = true ->
  exists layers fit cv strokes fills,
    drawLayers loadEvent st = Resolved layers /\
    fitText measureWidth (fontStyle st) (trim (text st)) layers = Some fit /\
    draw loadEvent measureWidth true st = Resolved (Some cv) /\
    log cv = layerOps loadEvent st ++ strokes ++ fills /\
    map (fun call : jsstring * Q * Q * string => fst (fst (fst call)))
        (strokeCalls strokes) = lines fit /\
    map (fun call : jsstring * Q * Q * string => fst (fst (fst call)))
        (fillCalls fills) = lines fit /\
    fillCalls strokes = [] /\ strokeCalls fills = [] /\
    filter isTextOp strokes = strokes /\ filter isTextOp fills = fills.
Proof.
  intro Htext.
  destruct (draw_text_ops loadEvent measureWidth st Htext)
    as [layers [fit [cv [c1 [c2 [Hl [Hf [Hd Hrest]]]]]]]].
  cbv zeta in Hrest. destruct Hrest as [Hlog _].
  exists layers, fit, cv. eexists. eexists.
  split; [exact Hl|]. split; [exact Hf|]. split; [exact Hd|].
  split; [exact Hlog|].
  match goal with
  | |- context [lineOps _ c1 (lines fit) _] =>
      destruct (lineOps_stroke
                  (H - paddingY (fontStyle st)
                   - idxQ (List.length (lines fit)) * drawFontSize fit
                     * lineHeight (fontStyle st) / 2)
                  (drawFontSize fit) (lineHeight (fontStyle st)) c1
                  (lines fit) 0) as [HS1 [HS2 _]];
      destruct (lineOps_fill
                  (H - paddingY (fontStyle st)
                   - idxQ (List.length (lines fit)) * drawFontSize fit
                     * lineHeight (fontStyle st) / 2)
                  (drawFontSize fit) (lineHeight (fontStyle st)) c2
                  (lines fit) 0) as [HF1 [HF2 _]]
  end.
  cbv zeta in HS1, HS2, HF1, HF2.
  rewrite HS1, HS2, HF1, HF2.
  assert (Hnames : forall a b c d ls idx,
            map (fun call : jsstring * Q * Q * string => fst (fst (fst call)))
                (placeLines a b c d ls idx) = ls).
  { intros a b c d ls. induction ls as [|ln rest IH]; intro idx;
      [reflexivity|]. cbn [placeLines map fst]. rewrite IH. reflexivity. }
  assert (Hall : forall mk c ls idx,
            (forall ln i, isTextOp (mk ln i c) = true) ->
            filter isTextOp (lineOps mk c ls idx) = lineOps mk c ls idx).
  { intros mk c ls. induction ls as [|ln rest IH]; intros idx Hmk;
      [reflexivity|].
    cbn [lineOps filter]. rewrite Hmk, IH by exact Hmk. reflexivity. }
  rewrite !Hnames, !Hall by reflexivity.
  repeat split.
Qed.

Lemma draw_strokes_before_fills_witness :
  exists layers fit cv strokes fills,
    drawLayers noImage twoLineState = Resolved layers /\
    fitText halfEm (fontStyle twoLineState) (trim (text twoLineState)) layers
      = Some fit /\
    draw noImage halfEm true twoLineState = Resolved (Some cv) /\
    log cv = layerOps noImage twoLineState ++ strokes ++ fills /\
    map (fun call : jsstring * Q * Q * string => fst (fst (fst call)))
        (strokeCalls strokes) = lines fit /\
    map (fun call : jsstring * Q * Q * string => fst (fst (fst call)))
        (fillCalls fills) = lines fit /\
    fillCalls strokes = [] /\ strokeCalls fills = [] /\
    filter isTextOp strokes = strokes /\ filter isTextOp fills = fills.
Proof.
  apply (draw_strokes_before_fills noImage halfEm twoLineState).
  reflexivity.
Defined.

(** X15.  Whatever the logo and its opacity and blur, every [strokeText]
    and [fillText] is issued with [globalAlpha = 1] and no filter: the
    overlay is enclosed in [save] and [restore]. *)
Theorem draw_text_unaffected_by_logo
    (loadEvent : string -> LoadEvent) (measureWidth : Font -> jsstring -> Q)
    (st : AppState) :
  truthy (trim (text st)) = true ->
  exists cv,
    draw loadEvent measureWidth true st = Resolved (Some cv) /\
    Forall (fun op => forall c, textCtx op = Some c ->
                      c_globalAlpha c = 1 /\ c_filter c = NoFilter)
           (log cv).
Proof.
  intro Htext.
  destruct (draw_text_ops loadEvent measureWidth st Htext)
    as [layers [fit [cv [c1 [c2 [_ [_ [Hd Hrest]]]]]]]].
  cbv zeta in Hrest. destruct Hrest as [Hlog [Hc1 Hc2]].
  exists cv. split; [exact Hd|]. rewrite Hlog.
  apply Forall_app. split; [|apply Forall_app; split].
  - destruct (layerOps_no_text loadEvent st) as [Hnone _].
    apply no_text_no_textCtx, Hnone.
  - apply lineOps_textCtx; [reflexivity|].
    unfold compositing in Hc1. injection Hc1 as -> ->. split; reflexivity.
  - apply lineOps_textCtx; [reflexivity|].
    unfold compositing in Hc2. injection Hc2 as -> ->. split; reflexivity.
Qed.

Lemma draw_text_unaffected_by_logo_witness :
  exists cv,
    draw photoAndLogo halfEm true logoState = Resolved (Some cv) /\
    Forall (fun op => forall c, textCtx op = Some c ->
                      c_globalAlpha c = 1 /\ c_filter c = NoFilter)
           (log cv).
Proof.
  apply (draw_text_unaffected_by_logo photoAndLogo halfEm logoState).
  reflexivity.
Defined.

Lemma fitLoop_recoloured (measureWidth : Font -> jsstring -> Q)
    (fs : FontStyle) (fill' stroke' : string) (strokeWidth' : Q)
    (shadowColor' : string) (shadowBlur' shadowOffsetY' : Q)
    (safeText : jsstring) (maxTextWidth : Q) :
  forall fuel size ls n cv,
    fitLoop measureWidth fuel
      (recoloured fs fill' stroke' strokeWidth' shadowColor' shadowBlur'
         shadowOffsetY')
      safeText maxTextWidth size ls n cv
    = fitLoop measureWidth fuel fs safeText maxTextWidth size ls n cv.
Proof.
  induction fuel as [|fuel IH]; intros size ls n cv; [reflexivity|].
  cbn [fitLoop recoloured fontWeight fontFamily].
  destruct (Qle_bool 34 size); [|reflexivity].
  match goal with |- (if ?c then _ else _) = _ => destruct c end;
    [reflexivity | apply IH].
Qed.

(** X16.  Under the gold, strike and banner presets the fill, stroke,
    strokeWidth, shadowColor, shadowBlur and shadowOffsetY of the font style
    have no effect on the render pass. *)
Theorem draw_preset_ignores_style_colours
    (loadEvent : string -> LoadEvent) (measureWidth : Font -> jsstring -> Q)
    (surface : bool) (st : AppState) (fill' stroke' : string)
    (strokeWidth' : Q) (shadowColor' : string)
    (shadowBlur' shadowOffsetY' : Q) :
  preset st <> adaptive ->
  draw loadEvent measureWidth surface
    (withFontStyle st
       (recoloured (fontStyle st) fill' stroke' strokeWidth' shadowColor'
          shadowBlur' shadowOffsetY'))
  = draw loadEvent measureWidth surface st.
Proof.
  intro Hpreset. unfold draw.
  destruct surface; [|reflexivity]. cbn [negb].
  change (drawLayers loadEvent (withFontStyle st _))
    with (drawLayers loadEvent st).
  destruct (drawLayers loadEvent st) as [cv|]; [|reflexivity].
  cbn [andThen withFontStyle text fontStyle preset].
  destruct (negb (truthy (trim (text st)))); [reflexivity|].
  unfold fitText. rewrite fitLoop_recoloured.
  cbn [recoloured size paddingX].
  match goal with
  | |- match ?f with _ => _ end = _ => destruct f as [fit|]
  end; [|reflexivity].
  do 2 f_equal.
  unfold drawLines.
  destruct (preset st); [congruence| | |]; reflexivity.
Qed.

Lemma draw_preset_ignores_style_colours_witness :
  draw photoAndLogo halfEm true
    (withFontStyle logoState
       (recoloured (fontStyle logoState) "#000000" "#ffffff" 9 "red" 1 2))
  = draw photoAndLogo halfEm true logoState.
Proof.
  apply (draw_preset_ignores_style_colours photoAndLogo halfEm true logoState).
  discriminate.
Defined.

(** X17.  A logo of positive size that loads is the third call of the
    pass: drawn under the configured opacity and blur, [size] wide, with its
    aspect ratio kept, [padding] below the top edge and [padding] left of
    the right edge; the context is as before the overlay afterwards. *)
Theorem draw_logo_placement
    (loadEvent : string -> LoadEvent) (st : AppState) (logoImg : Image) :
  truthyStr (logoUrl st) = true ->
  loadEvent (logoUrl st) = onload logoImg ->
  (0 < width logoImg)%Z -> (0 < height logoImg)%Z ->
  exists layers before c x y targetW targetH,
    drawLayers loadEvent st = Resolved layers /\
    log layers = before ++ [DrawImageAt c logoImg x y targetW targetH] /\
    List.length before = 2%nat /\
    c_globalAlpha c = logo_opacity (logoSettings st) /\
    c_filter c = Blur (logo_blur (logoSettings st)) /\
    targetW = logo_size (logoSettings st) /\
    y = logo_padding (logoSettings st) /\
    x + targetW + logo_padding (logoSettings st) == W /\
    targetH * inject_Z (width logoImg) == targetW * inject_Z (height logoImg) /\
    compositing (cur layers) = (1, NoFilter).
Proof.
  intros Hurl Hload Hw Hh.
  destruct (drawLayers_resolves loadEvent st) as [layers [Hl [Hlog Hcur]]].
  exists layers. unfold layerOps in Hlog.
  assert (Hlogo : loaded loadEvent (logoUrl st) = Some logoImg).
  { unfold loaded. rewrite Hurl, Hload. reflexivity. }
  rewrite Hlogo in Hlog.
  eexists. eexists. eexists. eexists. eexists. eexists.
  split; [exact Hl|]. split; [exact Hlog|].
  split.
  { destruct (loaded loadEvent (imageUrl st)) as [img|]; cbn [drawBackground].
    - destruct (coverCrop img) as [[[sx sy] sw] sh]. reflexivity.
    - reflexivity. }
  split; [reflexivity|]. split; [reflexivity|]. split; [reflexivity|].
  split; [reflexivity|]. split; [ring|].
  split.
  - unfold logoTargetH.
    assert (Hwq : 0 < inject_Z (width logoImg)).
    { change 0 with (inject_Z 0). rewrite <- Zlt_Qlt. exact Hw. }
    assert (Hhq : 0 < inject_Z (height logoImg)).
    { change 0 with (inject_Z 0). rewrite <- Zlt_Qlt. exact Hh. }
    destruct (height logoImg =? 0)%Z eqn:E; [apply Z.eqb_eq in E; lia|].
    destruct (Qeq_bool (inject_Z (width logoImg) / inject_Z (height logoImg)) 0)
      eqn:E0.
    + apply Qeq_bool_eq in E0.
      assert (Hz : inject_Z (width logoImg) == 0).
      { rewrite <- (Qmult_div_r (inject_Z (width logoImg))
                      (inject_Z (height logoImg))) by lra.
        rewrite E0. ring. }
      lra.
    + field. split; lra.
  - rewrite Hcur. apply layers_compositing.
Qed.

Lemma draw_logo_placement_witness :
  exists layers before c x y targetW targetH,
    drawLayers photoAndLogo logoState = Resolved layers /\
    log layers = before ++ [DrawImageAt c logoImage x y targetW targetH] /\
    List.length before = 2%nat /\
    c_globalAlpha c = logo_opacity (logoSettings logoState) /\
    c_filter c = Blur (logo_blur (logoSettings logoState)) /\
    targetW = logo_size (logoSettings logoState) /\
    y = logo_padding (logoSettings logoState) /\
    x + targetW + logo_padding (logoSettings logoState) == W /\
    targetH * inject_Z (width logoImage) == targetW * inject_Z (height logoImage) /\
    compositing (cur layers) = (1, NoFilter).
Proof.
  apply (draw_logo_placement photoAndLogo logoState logoImage).
  - reflexivity.
  - reflexivity.
  - reflexivity.
  - reflexivity.
Defined.

(** X18.  When the text is empty or all white space, the pass draws the
    background, the plate and the logo if any, and no text. *)
Theorem draw_blank_text_draws_layers_only
    (loadEvent : string -> LoadEvent) (measureWidth : Font -> jsstring -> Q)
    (st : AppState) :
  truthy (trim (text st)) = false ->
  exists cv,
    draw loadEvent measureWidth true st = Resolved (Some cv) /\
    log cv = layerOps loadEvent st /\
    filter isTextOp (log cv) = [] /\
    (2 <= List.length (log cv) <= 3)%nat.
Proof.
  intro Htext.
  destruct (drawLayers_resolves loadEvent st) as [layers [Hl [Hlog _]]].
  exists layers. split.
  { unfold draw. cbn [negb]. rewrite Hl. cbn [andThen]. rewrite Htext.
    reflexivity. }
  split; [exact Hlog|]. rewrite Hlog.
  split; [apply layerOps_no_text|].
  unfold layerOps. rewrite length_app.
  assert (Hbase : List.length
            (log (drawBottomPlate
                    (drawBackground (loaded loadEvent (imageUrl st))
                       freshCanvas))) = 2%nat).
  { destruct (loaded loadEvent (imageUrl st)) as [img|]; cbn [drawBackground].
    - destruct (coverCrop img) as [[[sx sy] sw] sh]. reflexivity.
    - reflexivity. }
  rewrite Hbase.
  destruct (loaded loadEvent (logoUrl st)); cbn [List.length]; lia.
Qed.

Lemma draw_blank_text_draws_layers_only_witness :
  exists cv,
    draw noImage halfEm true (plainState (styleOfSize 54 1.22) [32; 10; 9]%N)
      = Resolved (Some cv) /\
    log cv = layerOps noImage (plainState (styleOfSize 54 1.22) [32; 10; 9]%N) /\
    filter isTextOp (log cv) = [] /\
    (2 <= List.length (log cv) <= 3)%nat.
Proof.
  apply (draw_blank_text_draws_layers_only noImage halfEm
           (plainState (styleOfSize 54 1.22) [32; 10; 9]%N)).
  reflexivity.
Defined.

(** ** The image generation route *)

Lemma tokenOf_truthy (a b : option jsstring) (token : jsstring) :
  HfGenerate.tokenOf a b = Some token -> truthy token = true.
Proof.
  unfold HfGenerate.tokenOf.
  destruct (HfGenerate.firstTruthy a b) as [s|]; [|discriminate].
  destruct (truthy s) eqn:E; [|discriminate].
  intro H. injection H as <-. exact E.
Qed.

Lemma numberOr_nonzero (n : option Q) (d : Q) :
  ~ d == 0 -> ~ HfGenerate.numberOr n d == 0.
Proof.
  intro Hd. unfold HfGenerate.numberOr.
  destruct n as [q|]; [|exact Hd].
  destruct (Qeq_bool q 0) eqn:E; [exact Hd|].
  apply Qeq_bool_neq in E. exact E.
Qed.

(** X19.  With neither [HF_TOKEN] nor [HUGGINGFACE_TOKEN] set to a
    non-empty value, [POST] answers 500 with the configuration message and
    sends nothing upstream, whatever the body. *)
Theorem POST_without_token
    (numberToString : Q -> jsstring) (toBase64 : list Z -> jsstring)
    (fetch : HfGenerate.Request -> option HfGenerate.Upstream)
    (HF_TOKEN HUGGINGFACE_TOKEN : option jsstring)
    (body : option HfGenerate.Body) (random : Q) :
  HF_TOKEN = None \/ HF_TOKEN = Some [] ->
  HUGGINGFACE_TOKEN = None \/ HUGGINGFACE_TOKEN = Some [] ->
  HfGenerate.POST numberToString toBase64 fetch HF_TOKEN HUGGINGFACE_TOKEN
    body random
  = (HfGenerate.mkResponse 500 (HfGenerate.ErrorBody HfGenerate.NO_TOKEN), []).
Proof.
  intros [-> | ->] [-> | ->]; reflexivity.
Qed.

Lemma POST_without_token_witness :
  HfGenerate.POST (fun _ => []) (fun _ => [])
    (fun _ => Some (HfGenerate.mkUpstream true 200 None (Some [1; 2; 3]%Z)))
    None (Some [])
    (Some (HfGenerate.mkBody (Some (ofAscii "a cat")) None None None false))
    (1 # 2)
  = (HfGenerate.mkResponse 500 (HfGenerate.ErrorBody HfGenerate.NO_TOKEN), []).
Proof.
  apply (POST_without_token (fun _ => []) (fun _ => [])
           (fun _ => Some (HfGenerate.mkUpstream true 200 None
                             (Some [1; 2; 3]%Z)))
           None (Some [])).
  - left. reflexivity.
  - right. reflexivity.
Defined.

(** X20.  With a token, a body whose prompt is missing or blank after
    trimming is answered 400 when it is read without an exception, and 500
    by the [catch] when one of the conversions throws, as the conversion of
    the width does before the prompt is looked at; nothing is sent upstream
    either way. *)
Theorem POST_blank_prompt
    (numberToString : Q -> jsstring) (toBase64 : list Z -> jsstring)
    (fetch : HfGenerate.Request -> option HfGenerate.Upstream)
    (HF_TOKEN HUGGINGFACE_TOKEN : option jsstring) (token : jsstring)
    (body : HfGenerate.Body) (random : Q) :
  HfGenerate.tokenOf HF_TOKEN HUGGINGFACE_TOKEN = Some token ->
  match HfGenerate.b_prompt body with
  | Some p => truthy (trim p) = false
  | None => True
  end ->
  HfGenerate.POST numberToString toBase64 fetch HF_TOKEN HUGGINGFACE_TOKEN
    (Some body) random
  = if HfGenerate.b_throws body
    then (HfGenerate.mkResponse 500
            (HfGenerate.ErrorBody HfGenerate.UNEXPECTED), [])
    else (HfGenerate.mkResponse 400
            (HfGenerate.ErrorBody HfGenerate.EMPTY_PROMPT), []).
Proof.
  intros Htoken Hprompt. unfold HfGenerate.POST. rewrite Htoken.
  destruct (HfGenerate.b_throws body); [reflexivity|].
  destruct (HfGenerate.b_prompt body) as [p|].
  - rewrite Hprompt. reflexivity.
  - reflexivity.
Qed.

Lemma POST_blank_prompt_witness :
  HfGenerate.POST (fun _ => []) (fun _ => [])
    (fun _ => Some (HfGenerate.mkUpstream true 200 None (Some [1; 2; 3]%Z)))
    (Some (ofAscii "hf_abc")) None
    (Some (HfGenerate.mkBody (Some (ofAscii "   ")) (Some 512) None None false))
    (1 # 2)
  = (HfGenerate.mkResponse 400
       (HfGenerate.ErrorBody HfGenerate.EMPTY_PROMPT), []) /\
  HfGenerate.POST (fun _ => []) (fun _ => [])
    (fun _ => Some (HfGenerate.mkUpstream true 200 None (Some [1; 2; 3]%Z)))
    (Some (ofAscii "hf_abc")) None
    (Some (HfGenerate.mkBody (Some []) None None None true))
    (1 # 2)
  = (HfGenerate.mkResponse 500
       (HfGenerate.ErrorBody HfGenerate.UNEXPECTED), []).
Proof.
  split.
  - apply (POST_blank_prompt (fun _ => []) (fun _ => [])
             (fun _ => Some (HfGenerate.mkUpstream true 200 None
                               (Some [1; 2; 3]%Z)))
             (Some (ofAscii "hf_abc")) None (ofAscii "hf_abc")
             (HfGenerate.mkBody (Some (ofAscii "   ")) (Some 512) None None
                false)).
    + reflexivity.
    + reflexivity.
  - apply (POST_blank_prompt (fun _ => []) (fun _ => [])
             (fun _ => Some (HfGenerate.mkUpstream true 200 None
                               (Some [1; 2; 3]%Z)))
             (Some (ofAscii "hf_abc")) None (ofAscii "hf_abc")
             (HfGenerate.mkBody (Some []) None None None true)).
    + reflexivity.
    + reflexivity.
Defined.

(** X21.  [POST] sends at most one request; a request goes to the model
    endpoint with the bearer token, a prompt that starts with the trimmed,
    non-empty prompt of the body, 28 steps, and a width and height that are
    never 0 (960 and 1200 when the body gives none). *)
Theorem POST_request_shape
    (numberToString : Q -> jsstring) (toBase64 : list Z -> jsstring)
    (fetch : HfGenerate.Request -> option HfGenerate.Upstream)
    (HF_TOKEN HUGGINGFACE_TOKEN : option jsstring)
    (body : option HfGenerate.Body) (random : Q) :
  let sent :=
    snd (HfGenerate.POST numberToString toBase64 fetch HF_TOKEN
           HUGGINGFACE_TOKEN body random) in
  (List.length sent <= 1)%nat /\
  forall request, In request sent ->
    HfGenerate.endpoint request = HfGenerate.HF_ENDPOINT /\
    (exists token,
       HfGenerate.tokenOf HF_TOKEN HUGGINGFACE_TOKEN = Some token /\
       truthy token = true /\
       HfGenerate.authorization request = ofAscii "Bearer " ++ token) /\
    (exists b p rest,
       body = Some b /\ HfGenerate.b_prompt b = Some p /\
       truthy (trim p) = true /\
       HfGenerate.inputs request = trim p ++ rest /\
       (HfGenerate.b_width b = None -> HfGenerate.r_width request = 960) /\
       (HfGenerate.b_height b = None -> HfGenerate.r_height request = 1200)) /\
    ~ HfGenerate.r_width request == 0 /\
    ~ HfGenerate.r_height request == 0 /\
    HfGenerate.num_inference_steps request = 28%Z.
Proof.
  cbv zeta. unfold HfGenerate.POST.
  destruct (HfGenerate.tokenOf HF_TOKEN HUGGINGFACE_TOKEN) as [token|] eqn:Ht;
    [|cbn; split; [lia | tauto]].
  destruct body as [b|]; [|cbn; split; [lia | tauto]].
  destruct (HfGenerate.b_throws b); [cbn; split; [lia | tauto]|].
  destruct (HfGenerate.b_prompt b) as [p|] eqn:Hp;
    [|cbn; split; [lia | tauto]].
  destruct (truthy (trim p)) eqn:Htp; [|cbn; split; [lia | tauto]].
  cbn [negb].
  match goal with
  | |- context [fetch ?req] =>
      set (request := req);
      assert (Hshape :
        HfGenerate.endpoint request = HfGenerate.HF_ENDPOINT /\
        (exists token0,
           Some token = Some token0 /\ truthy token0 = true /\
           HfGenerate.authorization request = ofAscii "Bearer " ++ token0) /\
        (exists b0 p0 rest,
           Some b = Some b0 /\ HfGenerate.b_prompt b0 = Some p0 /\
           truthy (trim p0) = true /\
           HfGenerate.inputs request = trim p0 ++ rest /\
           (HfGenerate.b_width b0 = None -> HfGenerate.r_width request = 960) /\
           (HfGenerate.b_height b0 = None ->
            HfGenerate.r_height request = 1200)) /\
        ~ HfGenerate.r_width request == 0 /\
        ~ HfGenerate.r_height request == 0 /\
        HfGenerate.num_inference_steps request = 28%Z)
  end.
  { split; [reflexivity|]. split.
    { exists token. split; [reflexivity|].
      split; [exact (tokenOf_truthy _ _ _ Ht) | reflexivity]. }
    split.
    { exists b, p. eexists. split; [reflexivity|]. split; [exact Hp|].
      split; [exact Htp|]. split; [reflexivity|].
      split; intro Hnone; subst request; cbn; rewrite Hnone; reflexivity. }
    split; [apply numberOr_nonzero; discriminate|].
    split; [apply numberOr_nonzero; discriminate | reflexivity]. }
  assert (Hone : forall resp : HfGenerate.Response,
            (List.length (snd (resp, [request])) <= 1)%nat /\
            forall r0, In r0 (snd (resp, [request])) -> r0 = request).
  { intro resp. cbn. split; [lia|]. intros r0 [<- | []]. reflexivity. }
  destruct (fetch request) as [response|].
  - destruct (HfGenerate.up_ok response); cbn [negb].
    + destruct (HfGenerate.up_bytes response);
        (split; [apply Hone | intros r0 Hr0; apply Hone in Hr0; subst r0;
                              exact Hshape]).
    + split; [apply Hone | intros r0 Hr0; apply Hone in Hr0; subst r0;
                           exact Hshape].
  - split; [apply Hone | intros r0 Hr0; apply Hone in Hr0; subst r0;
                         exact Hshape].
Qed.

(** X22.  [POST] answers 200 with the PNG data URL exactly when the
    upstream answered ok and its bytes could be read; 502 when the upstream
    answered not ok, with the error of the upstream when it gives a
    non-empty one and with "HF error " followed by the upstream status when
    it gives none or an empty one; otherwise 400 or 500 with a non-empty
    message, and 400 only before any request. *)
Theorem POST_outcomes
    (numberToString : Q -> jsstring) (toBase64 : list Z -> jsstring)
    (fetch : HfGenerate.Request -> option HfGenerate.Upstream)
    (HF_TOKEN HUGGINGFACE_TOKEN : option jsstring)
    (body : option HfGenerate.Body) (random : Q) :
  let result :=
    HfGenerate.POST numberToString toBase64 fetch HF_TOKEN HUGGINGFACE_TOKEN
      body random in
  (HfGenerate.status (fst result) = 200%Z /\
   exists request response bytes,
     snd result = [request] /\ fetch request = Some response /\
     HfGenerate.up_ok response = true /\
     HfGenerate.up_bytes response = Some bytes /\
     HfGenerate.payload (fst result)
     = HfGenerate.ImageBody
         (ofAscii "data:image/png;base64," ++ toBase64 bytes))
  \/
  (HfGenerate.status (fst result) = 502%Z /\
   exists request response message,
     snd result = [request] /\ fetch request = Some response /\
     HfGenerate.up_ok response = false /\
     HfGenerate.payload (fst result) = HfGenerate.ErrorBody message /\
     truthy message = true /\
     (forall e, HfGenerate.up_error response = Some e -> truthy e = true ->
                message = e) /\
     (HfGenerate.up_error response = None \/
      HfGenerate.up_error response = Some [] ->
      message = ofAscii "HF error "
                ++ numberToString (inject_Z (HfGenerate.up_status response))))
  \/
  ((HfGenerate.status (fst result) = 400%Z \/
    HfGenerate.status (fst result) = 500%Z) /\
   exists message,
     HfGenerate.payload (fst result) = HfGenerate.ErrorBody message /\
     truthy message = true /\
     (HfGenerate.status (fst result) = 400%Z -> snd result = [])).
Proof.
  cbv zeta. unfold HfGenerate.POST.
  destruct (HfGenerate.tokenOf HF_TOKEN HUGGINGFACE_TOKEN) as [token|];
    [|right; right; cbn; split; [auto|]; eexists; repeat split; discriminate].
  destruct body as [b|];
    [|right; right; cbn; split; [auto|]; eexists; repeat split; discriminate].
  destruct (HfGenerate.b_throws b);
    [right; right; cbn; split; [auto|]; eexists; repeat split; discriminate|].
  match goal with
  | |- context [if negb (truthy ?p) then _ else _] => destruct (truthy p)
  end; cbn [negb];
    [|right; right; cbn; split; [auto|]; eexists; repeat split].
  match goal with
  | |- context [fetch ?req] => set (request := req)
  end.
  destruct (fetch request) as [response|] eqn:Hfetch;
    [|right; right; cbn; split; [auto|]; eexists; repeat split; discriminate].
  destruct (HfGenerate.up_ok response) eqn:Hok; cbn [negb].
  - destruct (HfGenerate.up_bytes response) as [bytes|] eqn:Hbytes;
      [|right; right; cbn; split; [auto|]; eexists; repeat split;
        discriminate].
    left. cbn. split; [reflexivity|].
    exists request, response, bytes. repeat split; assumption.
  - right. left. cbn [fst snd HfGenerate.status HfGenerate.payload].
    split; [reflexivity|].
    exists request, response. eexists.
    split; [reflexivity|]. split; [exact Hfetch|]. split; [exact Hok|].
    split; [reflexivity|].
    destruct (HfGenerate.up_error response) as [e|].
    + destruct (truthy e) eqn:He.
      * split; [exact He|]. split.
        -- intros e0 H0 _. injection H0 as <-. reflexivity.
        -- intros [H0 | H0]; [discriminate|]. injection H0 as ->.
           discriminate.
      * split; [reflexivity|]. split.
        -- intros e0 H0 He0. injection H0 as <-. congruence.
        -- intros _. reflexivity.
    + split; [reflexivity|]. split.
      * intros e0 H0. discriminate.
      * intros _. reflexivity.
Qed.

(** ** File names *)

Lemma stripExtension_no_dot (name : jsstring) :
  existsb (N.eqb DOT) name = false -> stripExtension name = name.
Proof.
  induction name as [|c rest IH]; intro H; [reflexivity|].
  cbn [existsb] in H. apply orb_false_iff in H. destruct H as [Hc Hrest].
  cbn [stripExtension]. rewrite N.eqb_sym, Hc. cbn [andb].
  rewrite (IH Hrest). reflexivity.
Qed.

Lemma stripExtension_ext (base ext : jsstring) :
  truthy ext = true -> existsb (N.eqb DOT) ext = false ->
  stripExtension (base ++ DOT :: ext) = base.
Proof.
  intros Hne Hnd. induction base as [|c base IH].
  - cbn [app stripExtension]. rewrite N.eqb_refl, Hne, Hnd. reflexivity.
  - cbn [app stripExtension].
    assert (Hd : existsb (N.eqb DOT) (base ++ DOT :: ext) = true).
    { rewrite existsb_app. cbn [existsb].
      rewrite N.eqb_refl, orb_true_r. reflexivity. }
    rewrite Hd. cbn [negb]. rewrite andb_false_r, IH. reflexivity.
Qed.

Lemma stripExtension_trailing_dot (base : jsstring) :
  stripExtension (base ++ [DOT]) = base ++ [DOT].
Proof.
  induction base as [|c base IH].
  - cbn [app stripExtension truthy]. rewrite andb_false_r. reflexivity.
  - cbn [app stripExtension].
    assert (Hd : existsb (N.eqb DOT) (base ++ [DOT]) = true).
    { rewrite existsb_app. cbn [existsb].
      rewrite N.eqb_refl, orb_true_r. reflexivity. }
    rewrite Hd. cbn [negb]. rewrite andb_false_r, IH. reflexivity.
Qed.

(** X23.  [onPickFile] names the output after the picked file without its
    last extension: [base.ext] gives [base-960x1200.png]; a name without a
    dot, or ending with a dot, is kept whole; the download then carries
    that name. *)
Theorem pickedFileName_strips_last_extension (base ext : jsstring) :
  truthy ext = true -> existsb (N.eqb DOT) ext = false ->
  pickedFileName (base ++ DOT :: ext) = base ++ ofAscii "-960x1200.png" /\
  pickedFileName ext = ext ++ ofAscii "-960x1200.png" /\
  pickedFileName (base ++ [DOT]) = (base ++ [DOT]) ++ ofAscii "-960x1200.png" /\
  downloadName (pickedFileName (base ++ DOT :: ext))
  = base ++ ofAscii "-960x1200.png".
Proof.
  intros Hne Hnd. unfold pickedFileName.
  rewrite (stripExtension_ext base ext Hne Hnd).
  rewrite (stripExtension_no_dot ext Hnd).
  rewrite stripExtension_trailing_dot.
  split; [reflexivity|]. split; [reflexivity|]. split; [reflexivity|].
  unfold downloadName.
  destruct (base ++ ofAscii "-960x1200.png") eqn:E; [|reflexivity].
  destruct base; discriminate.
Qed.

Lemma pickedFileName_strips_last_extension_witness :
  pickedFileName (ofAscii "holiday.2024" ++ DOT :: ofAscii "jpeg")
  = ofAscii "holiday.2024" ++ ofAscii "-960x1200.png" /\
  pickedFileName (ofAscii "jpeg") = ofAscii "jpeg" ++ ofAscii "-960x1200.png" /\
  pickedFileName (ofAscii "holiday.2024" ++ [DOT])
  = (ofAscii "holiday.2024" ++ [DOT]) ++ ofAscii "-960x1200.png" /\
  downloadName (pickedFileName (ofAscii "holiday.2024" ++ DOT :: ofAscii "jpeg"))
  = ofAscii "holiday.2024" ++ ofAscii "-960x1200.png".
Proof.
  apply (pickedFileName_strips_last_extension (ofAscii "holiday.2024")
           (ofAscii "jpeg")).
  - reflexivity.
  - reflexivity.
Defined.

(** ** Text is drawn *)

Lemma trimStart_suffix (s : jsstring) : exists pre, s = pre ++ trimStart s.
Proof.
  induction s as [|c s [pre IH]].
  - exists []. reflexivity.
  - cbn [trimStart]. destruct (isTrimSpace c).
    + exists (c :: pre). cbn [app]. rewrite <- IH. reflexivity.
    + exists []. reflexivity.
Qed.

Lemma trimStart_head (s : jsstring) (c : N) (rest : jsstring) :
  trimStart s = c :: rest -> isTrimSpace c = false.
Proof.
  induction s as [|d s IH]; [discriminate|].
  cbn [trimStart]. destruct (isTrimSpace d) eqn:E; [exact IH|].
  intro H. injection H as <- _. exact E.
Qed.

Lemma trim_head (s : jsstring) :
  truthy (trim s) = true ->
  exists c rest, trim s = c :: rest /\ isTrimSpace c = false.
Proof.
  unfold trim. intro Hne.
  destruct (trimStart_suffix (rev (trimStart s))) as [pre Hpre].
  assert (Hu : trimStart s
               = rev (trimStart (rev (trimStart s))) ++ rev pre).
  { rewrite <- rev_app_distr, <- Hpre, rev_involutive. reflexivity. }
  destruct (rev (trimStart (rev (trimStart s)))) as [|c rest] eqn:E;
    [discriminate|].
  exists c, rest. split; [reflexivity|].
  cbn [app] in Hu. exact (trimStart_head s c _ Hu).
Qed.

Lemma splitOn_head (sep c : N) (s : jsstring) :
  N.eqb c sep = false ->
  exists h t, splitOn sep (c :: s) = (c :: h) :: t.
Proof.
  intro Hc. cbn [splitOn]. rewrite Hc.
  destruct (splitOn sep s) as [|h t]; eexists; eexists; reflexivity.
Qed.

Lemma wrapText_nonempty (measureWidth : Font -> jsstring -> Q) (ctx : Ctx)
    (maxWidth : Q) (c : N) (rest : jsstring) :
  isTrimSpace c = false ->
  wrapText measureWidth ctx (c :: rest) maxWidth <> [].
Proof.
  intro Hc.
  assert (Hcr : N.eqb c CR = false)
    by (destruct (N.eqb c CR) eqn:E; [apply N.eqb_eq in E; subst c; discriminate | reflexivity]).
  assert (Hlf : N.eqb c LF = false)
    by (destruct (N.eqb c LF) eqn:E; [apply N.eqb_eq in E; subst c; discriminate | reflexivity]).
  assert (Hsp : N.eqb c SP = false)
    by (destruct (N.eqb c SP) eqn:E; [apply N.eqb_eq in E; subst c; discriminate | reflexivity]).
  unfold wrapText, removeCR. cbn [filter]. rewrite Hcr. cbn [negb].
  fold (removeCR rest).
  destruct (splitOn_head LF c (removeCR rest) Hlf) as [p [ps Hsplit]].
  rewrite Hsplit. cbn [wrapParagraphs].
  intro Hnil. apply app_eq_nil in Hnil. destruct Hnil as [Hnil _].
  revert Hnil. unfold wrapParagraph, tokensOf.
  destruct (includesSpace (c :: p)).
  - destruct (splitOn_head SP c p Hsp) as [h [t Htok]]. rewrite Htok.
    cbn [filter truthy wrapTokens andb]. rewrite andb_false_r.
    apply wrapTokens_first_line. reflexivity.
  - cbn [splitUnits map filter truthy wrapTokens andb]. rewrite andb_false_r.
    apply wrapTokens_first_line. reflexivity.
Qed.

(** X24.  With a size of at least 34 and a text that is not blank, the
    fitting loop leaves at least one line and the pass strokes and fills
    every line. *)
Theorem draw_draws_every_fitted_line
    (loadEvent : string -> LoadEvent) (measureWidth : Font -> jsstring -> Q)
    (st : AppState) :
  34 <= size (fontStyle st) ->
  truthy (trim (text st)) = true ->
  exists layers fit cv,
    drawLayers loadEvent st = Resolved layers /\
    fitText measureWidth (fontStyle st) (trim (text st)) layers = Some fit /\
    draw loadEvent measureWidth true st = Resolved (Some cv) /\
    lines fit <> [] /\
    List.length (strokeCalls (log cv)) = List.length (lines fit) /\
    List.length (fillCalls (log cv)) = List.length (lines fit).
Proof.
  intros Hsize Htext.
  destruct (draw_with_text loadEvent measureWidth st Htext)
    as [layers [fit [cv [Hl [Hf [Hd [_ [_ Hrest]]]]]]]].
  cbv zeta in Hrest. destruct Hrest as [_ [_ [Hs [Hfl _]]]].
  exists layers, fit, cv.
  split; [exact Hl|]. split; [exact Hf|]. split; [exact Hd|].
  assert (Hlen : forall a b c d ls idx,
            List.length (placeLines a b c d ls idx) = List.length ls).
  { intros a b c d ls. induction ls as [|ln rest IH]; intro idx;
      [reflexivity|]. cbn [placeLines List.length]. rewrite IH. reflexivity. }
  rewrite Hs, Hfl, !Hlen. split; [|split; reflexivity].
  destruct (trim_head (text st) Htext) as [c [rest [Htrim Hc]]].
  pose proof Hf as Hout. unfold fitText in Hout. apply fitLoop_outcome in Hout.
  destruct Hout as [[Hlow _]
                   | [[c0 [k [_ [_ [_ [_ [Hls _]]]]]]]
                     | [c0 [s [k [_ [_ [_ [_ [_ [_ [Hls _]]]]]]]]]]]].
  - lra.
  - rewrite Hls, Htrim. apply wrapText_nonempty, Hc.
  - rewrite Hls, Htrim. apply wrapText_nonempty, Hc.
Qed.

Lemma draw_draws_every_fitted_line_witness :
  exists layers fit cv,
    drawLayers noImage twoLineState = Resolved layers /\
    fitText halfEm (fontStyle twoLineState) (trim (text twoLineState)) layers
      = Some fit /\
    draw noImage halfEm true twoLineState = Resolved (Some cv) /\
    lines fit <> [] /\
    List.length (strokeCalls (log cv)) = List.length (lines fit) /\
    List.length (fillCalls (log cv)) = List.length (lines fit).
Proof.
  apply (draw_draws_every_fitted_line noImage halfEm twoLineState).
  - vm_compute. discriminate.
  - reflexivity.
Defined.

(** ** Guards of the restyle, exact aspect, full lines *)

(** X25.  [adaptStyle] always resolves.  When there is an image URL, the
    preset is adaptive, the image loads, the effect has not been cancelled
    and a style is derived, the new style is the merge of the derived one;
    when any of the five fails, the font style is left as it was. *)
Theorem adaptStyle_changes_only_when_derived
    (loadEvent : string -> LoadEvent) (sampleData : Image -> option (list Z))
    (st : AppState) (cancelled : bool) (u : Draws) :
  exists fs,
    adaptStyle loadEvent sampleData st cancelled u = Resolved fs /\
    (forall img derived,
       truthyStr (imageUrl st) = true -> preset st = adaptive ->
       loadEvent (imageUrl st) = onload img -> cancelled = false ->
       deriveFontStyleFromImage sampleData img u = Some derived ->
       fs = adaptMerge (fontStyle st) derived) /\
    (truthyStr (imageUrl st) = false \/ preset st <> adaptive \/
     loadEvent (imageUrl st) = onerror \/ cancelled = true \/
     (exists img, loadEvent (imageUrl st) = onload img /\
                  deriveFontStyleFromImage sampleData img u = None) ->
     fs = fontStyle st).
Proof.
  unfold adaptStyle, loadImageSafe.
  destruct (truthyStr (imageUrl st)) eqn:Hurl; cbn [negb orb];
    [|eexists; split; [reflexivity|]; split;
      [intros; discriminate | reflexivity]].
  destruct (preset st) eqn:Hp; cbn [PresetMode_eqb negb];
    try (eexists; split; [reflexivity|]; split;
         [intros; discriminate | reflexivity]).
  destruct (loadEvent (imageUrl st)) as [img|] eqn:Hload; cbn [andThen];
    [|eexists; split; [reflexivity|]; split;
      [intros; discriminate | reflexivity]].
  destruct cancelled;
    [eexists; split; [reflexivity|]; split;
     [intros; discriminate | reflexivity]|].
  destruct (deriveFontStyleFromImage sampleData img u) as [derived|] eqn:Hd.
  - eexists. split; [reflexivity|]. split.
    + intros img' derived' _ _ Himg _ Hd'.
      injection Himg as <-. rewrite Hd in Hd'. injection Hd' as <-.
      reflexivity.
    + intros [H | [H | [H | [H | [img' [Himg Hd']]]]]];
        try discriminate; try (exfalso; apply H; reflexivity).
      injection Himg as <-. congruence.
  - eexists. split; [reflexivity|]. split.
    + intros img' derived' _ _ Himg _ Hd'.
      injection Himg as <-. congruence.
    + reflexivity.
Qed.

Lemma adaptStyle_changes_only_when_derived_witness :
  exists derived,
    deriveFontStyleFromImage (fun _ => Some [10; 20; 30; 255]%Z) darkPhoto
      someDraws = Some derived /\
    adaptStyle (fun _ => onload darkPhoto) (fun _ => Some [10; 20; 30; 255]%Z)
      untouchedState false someDraws
    = Resolved (adaptMerge (fontStyle untouchedState) derived) /\
    adaptStyle (fun _ => onload darkPhoto) (fun _ => Some [10; 20; 30; 255]%Z)
      untouchedState true someDraws
    = Resolved (fontStyle untouchedState).
Proof.
  destruct (adaptStyle_changes_only_when_derived (fun _ => onload darkPhoto)
              (fun _ => Some [10; 20; 30; 255]%Z) untouchedState false
              someDraws)
    as [fs [Hrun [Hmerge _]]].
  destruct (adaptStyle_changes_only_when_derived (fun _ => onload darkPhoto)
              (fun _ => Some [10; 20; 30; 255]%Z) untouchedState true
              someDraws)
    as [fs' [Hrun' [_ Hkeep]]].
  destruct (deriveFontStyleFromImage (fun _ => Some [10; 20; 30; 255]%Z)
              darkPhoto someDraws) as [derived|] eqn:Hd;
    [|vm_compute in Hd; discriminate].
  exists derived. split; [reflexivity|]. split.
  - rewrite Hrun. f_equal.
    apply (Hmerge darkPhoto derived); [reflexivity | reflexivity | reflexivity
                                       | reflexivity | exact Hd].
  - rewrite Hrun'. f_equal. apply Hkeep. right. right. right. left.
    reflexivity.
Defined.

(** X26.  An image that already has the aspect 4:5 of the canvas is not
    cropped: the source rectangle is the whole image. *)
Theorem coverCrop_exact_aspect (img : Image) :
  (0 < width img)%Z -> (0 < height img)%Z ->
  (5 * width img = 4 * height img)%Z ->
  coverCrop img = (0, 0, inject_Z (width img), inject_Z (height img)).
Proof.
  intros Hw Hh Hasp.
  assert (Hwq : 0 < inject_Z (width img)).
  { change 0 with (inject_Z 0). rewrite <- Zlt_Qlt. exact Hw. }
  assert (Hhq : 0 < inject_Z (height img)).
  { change 0 with (inject_Z 0). rewrite <- Zlt_Qlt. exact Hh. }
  assert (Hq : 5 * inject_Z (width img) == 4 * inject_Z (height img)).
  { change 5 with (inject_Z 5). change 4 with (inject_Z 4).
    rewrite <- !inject_Z_mult, Hasp. reflexivity. }
  assert (Hwh : inject_Z (width img) == (4 # 5) * inject_Z (height img))
    by lra.
  assert (Hratio : inject_Z (width img) / inject_Z (height img) == W / H).
  { rewrite canvasAR_value, Hwh. field. lra. }
  assert (Hsh : Qfloor (inject_Z (width img) / (W / H)) = height img).
  { assert (Heq : inject_Z (width img) / (W / H) == inject_Z (height img)).
    { rewrite canvasAR_value, Hwh. field. }
    rewrite (Qfloor_comp _ _ Heq). apply Qfloor_Z. }
  unfold coverCrop.
  assert (Hbranch : Qltb (W / H)
            (inject_Z (width img) / inject_Z (height img)) = false).
  { apply Qltb_ge. rewrite Hratio. apply Qle_refl. }
  rewrite Hbranch. unfold Math_floor. rewrite Hsh.
  assert (Hsy : Qfloor ((inject_Z (height img) - inject_Z (height img)) / 2)
                = 0%Z).
  { assert (Heq : (inject_Z (height img) - inject_Z (height img)) / 2 == 0)
      by field.
    rewrite (Qfloor_comp _ _ Heq). reflexivity. }
  rewrite Hsy. reflexivity.
Qed.

Lemma coverCrop_exact_aspect_witness :
  coverCrop (mkImage 1920 2400 "blob:photo")
  = (0, 0, inject_Z (width (mkImage 1920 2400 "blob:photo")),
     inject_Z (height (mkImage 1920 2400 "blob:photo"))).
Proof.
  apply (coverCrop_exact_aspect (mkImage 1920 2400 "blob:photo")).
  - reflexivity.
  - reflexivity.
  - reflexivity.
Defined.

Lemma splitOn_pieces (sep : N) (s : jsstring) :
  Forall (fun t => existsb (N.eqb sep) t = false) (splitOn sep s).
Proof.
  induction s as [|c s IH]; [repeat constructor|].
  cbn [splitOn]. destruct (N.eqb c sep) eqn:E.
  - constructor; [reflexivity | exact IH].
  - destruct (splitOn sep s) as [|h t]; [repeat constructor; cbn;
      rewrite N.eqb_sym, E; reflexivity|].
    inversion IH as [|? ? Hh Ht]; subst.
    constructor; [|exact Ht]. cbn [existsb]. rewrite N.eqb_sym, E, Hh.
    reflexivity.
Qed.

Lemma tokensOf_tokens (paragraph : jsstring) :
  Forall (isToken (includesSpace paragraph)) (tokensOf paragraph).
Proof.
  unfold tokensOf, isToken. destruct (includesSpace paragraph).
  - apply Forall_forall. intros t Ht. apply filter_In in Ht.
    destruct Ht as [Hin Ht]. split; [exact Ht|].
    pose proof (splitOn_pieces SP paragraph) as Hall.
    rewrite Forall_forall in Hall. apply Hall, Hin.
  - apply Forall_forall. intros t Ht. apply filter_In in Ht.
    destruct Ht as [Hin Ht]. split; [exact Ht|].
    unfold splitUnits in Hin. apply in_map_iff in Hin.
    destruct Hin as [c [<- _]]. reflexivity.
Qed.

Lemma firstToken_token (hasSpace : bool) (t : jsstring) :
  isToken hasSpace t -> firstToken hasSpace t = t.
Proof.
  unfold isToken, firstToken. intros [Hne Ht]. destruct hasSpace.
  - rewrite (splitOn_absent SP t Ht). reflexivity.
  - destruct t as [|c [|d t]]; try discriminate. reflexivity.
Qed.

Lemma splitOn_nonempty (sep : N) (s : jsstring) : splitOn sep s <> [].
Proof.
  destruct s as [|c s]; [discriminate|].
  cbn [splitOn]. destruct (N.eqb c sep); [discriminate|].
  destruct (splitOn sep s); discriminate.
Qed.

Lemma hd_splitOn_glued (line piece : jsstring) :
  hd [] (splitOn SP (line ++ [SP] ++ piece)) = hd [] (splitOn SP line).
Proof.
  induction line as [|c line IH]; [reflexivity|].
  cbn [app splitOn]. destruct (N.eqb c SP); [reflexivity|].
  cbn [app] in IH.
  pose proof (splitOn_nonempty SP (line ++ SP :: piece)) as H1.
  pose proof (splitOn_nonempty SP line) as H2.
  destruct (splitOn SP (line ++ SP :: piece)) as [|h t]; [congruence|].
  destruct (splitOn SP line) as [|h' t']; [congruence|].
  cbn [hd] in *. rewrite IH. reflexivity.
Qed.

Lemma firstToken_glue (hasSpace : bool) (line piece : jsstring) :
  truthy line = true ->
  firstToken hasSpace (glue hasSpace line piece) = firstToken hasSpace line.
Proof.
  intro Hne. unfold firstToken, glue. destruct hasSpace.
  - apply hd_splitOn_glued.
  - destruct line; [discriminate | reflexivity].
Qed.

Lemma wrapTokens_full (measureWidth : Font -> jsstring -> Q) (ctx : Ctx)
    (maxWidth : Q) (hasSpace : bool) :
  forall tokens line,
    Forall (isToken hasSpace) tokens ->
    truthy line = true ->
    exists first rest,
      wrapTokens measureWidth ctx maxWidth hasSpace tokens line
      = first :: rest /\
      firstToken hasSpace first = firstToken hasSpace line /\
      linesAreFull measureWidth ctx maxWidth hasSpace (first :: rest).
Proof.
  induction tokens as [|piece more IH]; intros line Htok Hline.
  - exists line, []. cbn [wrapTokens]. rewrite Hline.
    split; [reflexivity|]. split; [reflexivity|]. cbn. tauto.
  - inversion Htok as [|? ? Hpiece Hmore]; subst.
    cbn [wrapTokens]. rewrite Hline. cbv iota.
    change (if hasSpace then line ++ [SP] ++ piece else line ++ piece)
      with (glue hasSpace line piece).
    rewrite andb_true_r.
    destruct (Qltb maxWidth
                (measureText measureWidth ctx (glue hasSpace line piece)))
      eqn:Hbreak.
    + destruct (IH piece Hmore (proj1 Hpiece)) as [first [rest [Hout [Hft Hfull]]]].
      exists line, (first :: rest). rewrite Hout.
      split; [reflexivity|]. split; [reflexivity|].
      cbn [linesAreFull]. split; [|exact Hfull].
      rewrite Hft, (firstToken_token hasSpace piece Hpiece).
      apply Qltb_lt, Hbreak.
    + assert (Hg : truthy (glue hasSpace line piece) = true).
      { unfold glue. destruct line; [discriminate|].
        destruct hasSpace; reflexivity. }
      destruct (IH (glue hasSpace line piece) Hmore Hg)
        as [first [rest [Hout [Hft Hfull]]]].
      exists first, rest. rewrite Hout.
      split; [reflexivity|]. split; [|exact Hfull].
      rewrite Hft. apply firstToken_glue, Hline.
Qed.

(** X27.  In a one-paragraph text every line but the last is full: the
    first token of the next line, put behind it (after a space in word
    mode), is wider than [maxWidth]. *)
Theorem wrapText_lines_are_full
    (measureWidth : Font -> jsstring -> Q) (ctx : Ctx) (text : jsstring)
    (maxWidth : Q) :
  existsb (N.eqb LF) text = false ->
  linesAreFull measureWidth ctx maxWidth (includesSpace (removeCR text))
    (wrapText measureWidth ctx text maxWidth).
Proof.
  intro Hlf. unfold wrapText.
  rewrite (splitOn_absent LF (removeCR text) (removeCR_keeps_absent LF text Hlf)).
  cbn [wrapParagraphs truthy]. rewrite !app_nil_r.
  unfold wrapParagraph.
  pose proof (tokensOf_tokens (removeCR text)) as Htok.
  destruct (tokensOf (removeCR text)) as [|piece more]; [cbn; tauto|].
  inversion Htok as [|? ? Hpiece Hmore]; subst.
  cbn [wrapTokens truthy andb]. rewrite andb_false_r.
  destruct (wrapTokens_full measureWidth ctx maxWidth
              (includesSpace (removeCR text)) more piece Hmore (proj1 Hpiece))
    as [first [rest [Hout [_ Hfull]]]].
  rewrite Hout. exact Hfull.
Qed.

Lemma wrapText_lines_are_full_witness :
  linesAreFull fixedPitch (ctxAt 40) 60
    (includesSpace (removeCR [97; 98; 32; 99; 100; 32; 101]%N))
    (wrapText fixedPitch (ctxAt 40) [97; 98; 32; 99; 100; 32; 101]%N 60).
Proof.
  apply (wrapText_lines_are_full fixedPitch (ctxAt 40)
           [97; 98; 32; 99; 100; 32; 101]%N 60).
  reflexivity.
Defined.
